(** * Heat convergence engine: stack state, traversal markers, worker step,
      dependency graph and task scheduling

    Shallow embedding of [heat/engine/stack.py] and [heat/engine/worker.py]
    (state passing over an explicit database and an event trace), together
    with models of the dependency graph and of the cooperative scheduler
    that the test-suite [heat/tests/engine/test_scheduler.py] exercises. *)

From Stdlib Require Import List String ZArith Bool Lia PeanoNat.
Import ListNotations.

Set Implicit Arguments.

(* ================================================================== *)
(** ** Exceptions and results *)

#[warnings="-register-all"] Inductive exn : Type :=
| ValueError (msg : string)
| AssertionError (msg : string)
| NotFound
| TaskError (tag : nat)            (* an exception instance raised by a task *)
| Timeout
| CircularDependencyException (cycle : list string)
| ExceptionGroup (exceptions : list exn).

Inductive Result (A : Type) : Type :=
| Ok (a : A)
| Raise (e : exn).
Arguments Ok {A} a.
Arguments Raise {A} e.

(* ================================================================== *)
(** ** The stack aggregate ([heat/engine/stack.py]) *)

Module StackEngine.

Open Scope string_scope.
Open Scope list_scope.

(** [Stack.ACTIONS] and [Stack.STATUSES]. *)
Definition CREATE := "CREATE".
Definition DELETE := "DELETE".
Definition UPDATE := "UPDATE".
Definition ROLLBACK := "ROLLBACK".
Definition SUSPEND := "SUSPEND".
Definition RESUME := "RESUME".
Definition ADOPT := "ADOPT".
Definition SNAPSHOT := "SNAPSHOT".
Definition CHECK := "CHECK".
Definition RESTORE := "RESTORE".

Definition ACTIONS : list string :=
  [CREATE; DELETE; UPDATE; ROLLBACK; SUSPEND; RESUME; ADOPT;
   SNAPSHOT; CHECK; RESTORE].

Definition IN_PROGRESS := "IN_PROGRESS".
Definition FAILED := "FAILED".
Definition COMPLETE := "COMPLETE".

Definition STATUSES : list string := [IN_PROGRESS; FAILED; COMPLETE].

(** Python's [x in seq] for strings. *)
Definition str_in (x : string) (l : list string) : bool :=
  existsb (String.eqb x) l.

(** Python truthiness of an optional string ([None] and [''] are false). *)
Definition truthy (o : option string) : bool :=
  match o with
  | Some s => negb (String.eqb s "")
  | None => false
  end.

Definition opt_str_eqb (a b : option string) : bool :=
  match a, b with
  | Some x, Some y => String.eqb x y
  | None, None => true
  | _, _ => false
  end.

Definition opt_Z_eqb (a b : option Z) : bool :=
  match a, b with
  | Some x, Some y => Z.eqb x y
  | None, None => true
  | _, _ => false
  end.

(** A node of the convergence graph: [(resource id, is_update)]. *)
Definition GraphKey : Type := (Z * bool)%type.

Definition key_eqb (a b : GraphKey) : bool :=
  Z.eqb (fst a) (fst b) && Bool.eqb (snd a) (snd b).

(** An edge [(requirer, required)]; [required] is [None] for a free node. *)
Definition Edge : Type := (GraphKey * option GraphKey)%type.

(** The convergence dependencies as the stack uses them: the nodes in
    iteration order, the flattened edges and the leaves. *)
Record ConvGraph : Type := {
  cg_nodes : list GraphKey;
  cg_edges : list Edge;
  cg_leaves : list GraphKey
}.

Record Template : Type := { tmpl_id : option Z }.

(** The fields of a [Stack] object that the modelled methods read or
    write. *)
Record Stack : Type := {
  id : option string;
  name : string;
  action : option string;
  status : option string;
  status_reason : string;
  convergence : bool;
  current_traversal : option string;
  prev_raw_template_id : option Z;
  t : Template;
  current_deps : list Edge;
  owner_id : option string;
  user_creds_id : option Z;
  disable_rollback : bool;
  timeout_mins : option Z;
  tags : list string;
  updated_time : option Z;
  created_time : option Z;
  stack_user_project_id : option string
}.

Definition set_id v (s : Stack) : Stack :=
  {| id := v; name := name s; action := action s; status := status s;
     status_reason := status_reason s; convergence := convergence s;
     current_traversal := current_traversal s;
     prev_raw_template_id := prev_raw_template_id s; t := t s;
     current_deps := current_deps s; owner_id := owner_id s;
     user_creds_id := user_creds_id s; disable_rollback := disable_rollback s;
     timeout_mins := timeout_mins s; tags := tags s;
     updated_time := updated_time s; created_time := created_time s;
     stack_user_project_id := stack_user_project_id s |}.

Definition set_action v (s : Stack) : Stack :=
  {| id := id s; name := name s; action := v; status := status s;
     status_reason := status_reason s; convergence := convergence s;
     current_traversal := current_traversal s;
     prev_raw_template_id := prev_raw_template_id s; t := t s;
     current_deps := current_deps s; owner_id := owner_id s;
     user_creds_id := user_creds_id s; disable_rollback := disable_rollback s;
     timeout_mins := timeout_mins s; tags := tags s;
     updated_time := updated_time s; created_time := created_time s;
     stack_user_project_id := stack_user_project_id s |}.

Definition set_status v (s : Stack) : Stack :=
  {| id := id s; name := name s; action := action s; status := v;
     status_reason := status_reason s; convergence := convergence s;
     current_traversal := current_traversal s;
     prev_raw_template_id := prev_raw_template_id s; t := t s;
     current_deps := current_deps s; owner_id := owner_id s;
     user_creds_id := user_creds_id s; disable_rollback := disable_rollback s;
     timeout_mins := timeout_mins s; tags := tags s;
     updated_time := updated_time s; created_time := created_time s;
     stack_user_project_id := stack_user_project_id s |}.

Definition set_status_reason v (s : Stack) : Stack :=
  {| id := id s; name := name s; action := action s; status := status s;
     status_reason := v; convergence := convergence s;
     current_traversal := current_traversal s;
     prev_raw_template_id := prev_raw_template_id s; t := t s;
     current_deps := current_deps s; owner_id := owner_id s;
     user_creds_id := user_creds_id s; disable_rollback := disable_rollback s;
     timeout_mins := timeout_mins s; tags := tags s;
     updated_time := updated_time s; created_time := created_time s;
     stack_user_project_id := stack_user_project_id s |}.

Definition set_current_traversal v (s : Stack) : Stack :=
  {| id := id s; name := name s; action := action s; status := status s;
     status_reason := status_reason s; convergence := convergence s;
     current_traversal := v;
     prev_raw_template_id := prev_raw_template_id s; t := t s;
     current_deps := current_deps s; owner_id := owner_id s;
     user_creds_id := user_creds_id s; disable_rollback := disable_rollback s;
     timeout_mins := timeout_mins s; tags := tags s;
     updated_time := updated_time s; created_time := created_time s;
     stack_user_project_id := stack_user_project_id s |}.

Definition set_prev_raw_template_id v (s : Stack) : Stack :=
  {| id := id s; name := name s; action := action s; status := status s;
     status_reason := status_reason s; convergence := convergence s;
     current_traversal := current_traversal s;
     prev_raw_template_id := v; t := t s;
     current_deps := current_deps s; owner_id := owner_id s;
     user_creds_id := user_creds_id s; disable_rollback := disable_rollback s;
     timeout_mins := timeout_mins s; tags := tags s;
     updated_time := updated_time s; created_time := created_time s;
     stack_user_project_id := stack_user_project_id s |}.

Definition set_t v (s : Stack) : Stack :=
  {| id := id s; name := name s; action := action s; status := status s;
     status_reason := status_reason s; convergence := convergence s;
     current_traversal := current_traversal s;
     prev_raw_template_id := prev_raw_template_id s; t := v;
     current_deps := current_deps s; owner_id := owner_id s;
     user_creds_id := user_creds_id s; disable_rollback := disable_rollback s;
     timeout_mins := timeout_mins s; tags := tags s;
     updated_time := updated_time s; created_time := created_time s;
     stack_user_project_id := stack_user_project_id s |}.

Definition set_current_deps v (s : Stack) : Stack :=
  {| id := id s; name := name s; action := action s; status := status s;
     status_reason := status_reason s; convergence := convergence s;
     current_traversal := current_traversal s;
     prev_raw_template_id := prev_raw_template_id s; t := t s;
     current_deps := v; owner_id := owner_id s;
     user_creds_id := user_creds_id s; disable_rollback := disable_rollback s;
     timeout_mins := timeout_mins s; tags := tags s;
     updated_time := updated_time s; created_time := created_time s;
     stack_user_project_id := stack_user_project_id s |}.

Definition set_user_creds_id v (s : Stack) : Stack :=
  {| id := id s; name := name s; action := action s; status := status s;
     status_reason := status_reason s; convergence := convergence s;
     current_traversal := current_traversal s;
     prev_raw_template_id := prev_raw_template_id s; t := t s;
     current_deps := current_deps s; owner_id := owner_id s;
     user_creds_id := v; disable_rollback := disable_rollback s;
     timeout_mins := timeout_mins s; tags := tags s;
     updated_time := updated_time s; created_time := created_time s;
     stack_user_project_id := stack_user_project_id s |}.

Definition set_rollback_timeout_tags dr tm tg (s : Stack) : Stack :=
  {| id := id s; name := name s; action := action s; status := status s;
     status_reason := status_reason s; convergence := convergence s;
     current_traversal := current_traversal s;
     prev_raw_template_id := prev_raw_template_id s; t := t s;
     current_deps := current_deps s; owner_id := owner_id s;
     user_creds_id := user_creds_id s; disable_rollback := dr;
     timeout_mins := tm; tags := tg;
     updated_time := updated_time s; created_time := created_time s;
     stack_user_project_id := stack_user_project_id s |}.

Definition set_updated_time v (s : Stack) : Stack :=
  {| id := id s; name := name s; action := action s; status := status s;
     status_reason := status_reason s; convergence := convergence s;
     current_traversal := current_traversal s;
     prev_raw_template_id := prev_raw_template_id s; t := t s;
     current_deps := current_deps s; owner_id := owner_id s;
     user_creds_id := user_creds_id s; disable_rollback := disable_rollback s;
     timeout_mins := timeout_mins s; tags := tags s;
     updated_time := v; created_time := created_time s;
     stack_user_project_id := stack_user_project_id s |}.

Definition set_created_time v (s : Stack) : Stack :=
  {| id := id s; name := name s; action := action s; status := status s;
     status_reason := status_reason s; convergence := convergence s;
     current_traversal := current_traversal s;
     prev_raw_template_id := prev_raw_template_id s; t := t s;
     current_deps := current_deps s; owner_id := owner_id s;
     user_creds_id := user_creds_id s; disable_rollback := disable_rollback s;
     timeout_mins := timeout_mins s; tags := tags s;
     updated_time := updated_time s; created_time := v;
     stack_user_project_id := stack_user_project_id s |}.

(** *** The database *)

(** A row of the stack table (the columns written by [Stack.store] and
    [Stack._persist_state]). *)
Record StackRow : Type := {
  row_name : string;
  row_action : option string;
  row_status : option string;
  row_status_reason : string;
  row_current_traversal : option string;
  row_prev_raw_template_id : option Z;
  row_raw_template_id : option Z;
  row_current_deps : list Edge;
  row_convergence : bool;
  row_owner_id : option string;
  row_user_creds_id : option Z;
  row_disable_rollback : bool;
  row_timeout : option Z;
  row_backup : bool;
  row_updated_at : option Z
}.

(** One key of a values dictionary handed to the database layer. *)
Inductive Field : Type :=
| FName (v : string)
| FAction (v : option string)
| FStatus (v : option string)
| FStatusReason (v : string)
| FCurrentTraversal (v : option string)
| FPrevRawTemplateId (v : option Z)
| FRawTemplateId (v : option Z)
| FCurrentDeps (v : list Edge)
| FConvergence (v : bool)
| FOwnerId (v : option string)
| FUserCredsId (v : option Z)
| FDisableRollback (v : bool)
| FTimeout (v : option Z)
| FBackup (v : bool)
| FUpdatedAt (v : option Z).

Definition Values : Type := list Field.

Definition apply_field (r : StackRow) (f : Field) : StackRow :=
  let mk n a s sr ct p rt cd cv o u dr tm b ua :=
    {| row_name := n; row_action := a; row_status := s;
       row_status_reason := sr; row_current_traversal := ct;
       row_prev_raw_template_id := p; row_raw_template_id := rt;
       row_current_deps := cd; row_convergence := cv; row_owner_id := o;
       row_user_creds_id := u; row_disable_rollback := dr;
       row_timeout := tm; row_backup := b; row_updated_at := ua |} in
  let '{| row_name := n; row_action := a; row_status := s;
          row_status_reason := sr; row_current_traversal := ct;
          row_prev_raw_template_id := p; row_raw_template_id := rt;
          row_current_deps := cd; row_convergence := cv; row_owner_id := o;
          row_user_creds_id := u; row_disable_rollback := dr;
          row_timeout := tm; row_backup := b; row_updated_at := ua |} := r in
  match f with
  | FName v => mk v a s sr ct p rt cd cv o u dr tm b ua
  | FAction v => mk n v s sr ct p rt cd cv o u dr tm b ua
  | FStatus v => mk n a v sr ct p rt cd cv o u dr tm b ua
  | FStatusReason v => mk n a s v ct p rt cd cv o u dr tm b ua
  | FCurrentTraversal v => mk n a s sr v p rt cd cv o u dr tm b ua
  | FPrevRawTemplateId v => mk n a s sr ct v rt cd cv o u dr tm b ua
  | FRawTemplateId v => mk n a s sr ct p v cd cv o u dr tm b ua
  | FCurrentDeps v => mk n a s sr ct p rt v cv o u dr tm b ua
  | FConvergence v => mk n a s sr ct p rt cd v o u dr tm b ua
  | FOwnerId v => mk n a s sr ct p rt cd cv v u dr tm b ua
  | FUserCredsId v => mk n a s sr ct p rt cd cv o v dr tm b ua
  | FDisableRollback v => mk n a s sr ct p rt cd cv o u v tm b ua
  | FTimeout v => mk n a s sr ct p rt cd cv o u dr v b ua
  | FBackup v => mk n a s sr ct p rt cd cv o u dr tm v ua
  | FUpdatedAt v => mk n a s sr ct p rt cd cv o u dr tm b v
  end.

Definition update_row (r : StackRow) (vs : Values) : StackRow :=
  fold_left apply_field vs r.

Definition empty_row : StackRow :=
  {| row_name := ""; row_action := None; row_status := None;
     row_status_reason := ""; row_current_traversal := None;
     row_prev_raw_template_id := None; row_raw_template_id := None;
     row_current_deps := []; row_convergence := false; row_owner_id := None;
     row_user_creds_id := None; row_disable_rollback := true;
     row_timeout := None; row_backup := false; row_updated_at := None |}.

Definition StackTable : Type := list (string * StackRow).

Fixpoint lookup_row (sid : string) (tb : StackTable) : option StackRow :=
  match tb with
  | [] => None
  | (k, r) :: tb' => if String.eqb k sid then Some r else lookup_row sid tb'
  end.

Fixpoint replace_row (sid : string) (r : StackRow) (tb : StackTable)
  : StackTable :=
  match tb with
  | [] => []
  | (k, r0) :: tb' =>
      if String.eqb k sid then (k, r) :: tb'
      else (k, r0) :: replace_row sid r tb'
  end.

Fixpoint delete_row (sid : string) (tb : StackTable) : StackTable :=
  match tb with
  | [] => []
  | (k, r0) :: tb' =>
      if String.eqb k sid then tb' else (k, r0) :: delete_row sid tb'
  end.

(** Everything a method can observe outside the [Stack] object. *)
Inductive Event : Type :=
| EvNotify (a s : option string) (reason : string)
| EvWarning (msg : string)
| EvInfo (msg : string)
| EvTemplateStore (tid : Z)
| EvStackUpdate (sid : string) (vs : Values) (exp_trvsl : option string)
                (updated : bool)
| EvStackCreate (sid : string) (vs : Values)
| EvStackDelete (sid : string)
| EvUserCredsCreate (cid : Z)
| EvTagsSet (sid : option string) (tg : list string)
| EvTagsDelete (sid : option string)
| EvSetParamStackId
| EvStoreResources
| EvSnapshotsDelete (sid : option string)
| EvPurgeDeleted (sid : option string)
| EvRawTemplateDelete (tid : Z)
| EvDebug (msg : string)
| EvException (msg : string)
| EvUserCredsGet (cid : option Z)
| EvDeleteTrust (trust_id : option string) (stored_context : bool)
| EvUserCredsDelete (cid : option Z)
| EvDeleteDomainProject (project_id : option string)
| EvSyncPointCreate (entity : string + Z) (trv : option string)
                    (is_update : bool) (sid : option string)
| EvSyncPointDeleteAll (sid : option string) (trv : option string)
| EvCheckResource (rsrc_id : Z) (trv : option string) (is_update : bool).

(** What [UserCreds.get_by_id] answers: it raises [exception.Error], or
    returns nothing, or the stored credentials, of which the trust and the
    trustor are read. *)
Inductive CredsAnswer : Type :=
| CredsError
| CredsNone
| CredsFound (trust_id trustor_user_id : option string).

(** What the credentials table and the identity service do when
    [_delete_credentials] calls them. *)
Record Identity : Type := {
  stored_creds : CredsAnswer;            (* UserCreds.get_by_id *)
  context_user_id : option string;       (* self.context.user_id *)
  delete_trust_error : option string;    (* what delete_trust raises, if so *)
  user_creds_gone : bool;                (* UserCreds.delete raises NotFound *)
  delete_project_error : option string   (* what delete_stack_domain_project
                                            raises, if so *)
}.

(** The environment of a stack method: the stack table, the sources of
    fresh identifiers and of the clock, what the collaborators answer, and
    the trace of the calls made to them (most recent last). *)
Record World : Type := {
  stacks : StackTable;
  uuid_src : nat -> string;        (* uuidutils.generate_uuid, call by call *)
  uuid_next : nat;
  next_id : Z;                     (* primary keys handed out by the DB *)
  now : Z;                         (* oslo_timeutils.utcnow *)
  convg : ConvGraph;               (* what _compute_convg_dependencies builds *)
  identity : Identity;             (* see above *)
  trace : list Event
}.

Definition set_stacks v (w : World) : World :=
  {| stacks := v; uuid_src := uuid_src w; uuid_next := uuid_next w;
     next_id := next_id w; now := now w; convg := convg w;
     identity := identity w; trace := trace w |}.

Definition set_uuid_next v (w : World) : World :=
  {| stacks := stacks w; uuid_src := uuid_src w; uuid_next := v;
     next_id := next_id w; now := now w; convg := convg w;
     identity := identity w; trace := trace w |}.

Definition set_next_id v (w : World) : World :=
  {| stacks := stacks w; uuid_src := uuid_src w; uuid_next := uuid_next w;
     next_id := v; now := now w; convg := convg w;
     identity := identity w; trace := trace w |}.

Definition set_trace v (w : World) : World :=
  {| stacks := stacks w; uuid_src := uuid_src w; uuid_next := uuid_next w;
     next_id := next_id w; now := now w; convg := convg w;
     identity := identity w; trace := v |}.

(** *** The state-and-exception monad of the stack methods *)

Record State : Type := { self : Stack; world : World }.

Definition M (A : Type) : Type := State -> Result A * State.

Definition ret {A} (a : A) : M A := fun st => (Ok a, st).

Definition bind {A B} (m : M A) (k : A -> M B) : M B :=
  fun st =>
    match m st with
    | (Ok a, st') => k a st'
    | (Raise e, st') => (Raise e, st')
    end.

Definition raise {A} (e : exn) : M A := fun st => (Raise e, st).

Declare Scope heat_scope.
Delimit Scope heat_scope with heat.
Notation "x <- m ;; k" := (bind m (fun x => k))
  (at level 61, m at next level, right associativity) : heat_scope.
Notation "m ;; k" := (bind m (fun _ => k))
  (at level 61, right associativity) : heat_scope.
Open Scope heat_scope.

Definition get_self : M Stack := fun st => (Ok (self st), st).
Definition get_world : M World := fun st => (Ok (world st), st).

Definition modify_self (f : Stack -> Stack) : M unit :=
  fun st => (Ok tt, {| self := f (self st); world := world st |}).

Definition modify_world (f : World -> World) : M unit :=
  fun st => (Ok tt, {| self := self st; world := f (world st) |}).

Definition emit (e : Event) : M unit :=
  modify_world (fun w => set_trace (trace w ++ [e]) w).

Definition generate_uuid : M string :=
  w <- get_world ;;
  modify_world (set_uuid_next (S (uuid_next w))) ;;
  ret (uuid_src w (uuid_next w)).

Definition fresh_id : M Z :=
  w <- get_world ;;
  modify_world (set_next_id (next_id w + 1)%Z) ;;
  ret (next_id w).

Fixpoint for_each {A} (l : list A) (body : A -> M unit) : M unit :=
  match l with
  | [] => ret tt
  | x :: l' => body x ;; for_each l' body
  end.

(** *** Database layer

    Modelled from the spec: the [heat.objects.stack] calls
    ([select_and_update], [update_by_id], [create], [get_by_id], [delete])
    are not part of the sources; the storage interface is "atomic
    compare-and-swap update of {current_traversal, action, status,
    status_reason, current_deps} on the aggregate keyed by expected prior
    traversal".  [Stack.store] passes [exp_trvsl=None] exactly when the
    traversal check is to be skipped ([ignore_traversal_check]). *)

Definition traversal_matches (exp_trvsl : option string) (r : StackRow)
  : bool :=
  match exp_trvsl with
  | None => true
  | Some e => opt_str_eqb (row_current_traversal r) (Some e)
  end.

(** Modelled from the spec: [Stack.select_and_update] of the missing
    [heat/objects/stack.py], the compare-and-swap on the stored
    traversal. *)
Definition select_and_update (sid : string) (vs : Values)
           (exp_trvsl : option string) : M bool :=
  w <- get_world ;;
  match lookup_row sid (stacks w) with
  | Some r =>
      if traversal_matches exp_trvsl r then
        modify_world (set_stacks (replace_row sid (update_row r vs)
                                               (stacks w))) ;;
        emit (EvStackUpdate sid vs exp_trvsl true) ;;
        ret true
      else
        emit (EvStackUpdate sid vs exp_trvsl false) ;;
        ret false
  | None =>
      emit (EvStackUpdate sid vs exp_trvsl false) ;;
      ret false
  end.

Definition update_by_id (sid : string) (vs : Values) : M unit :=
  _ <- select_and_update sid vs None ;; ret tt.

Definition get_by_id (sid : string) : M (option StackRow) :=
  w <- get_world ;; ret (lookup_row sid (stacks w)).

Definition stack_create (vs : Values) : M string :=
  sid <- generate_uuid ;;
  w <- get_world ;;
  modify_world (set_stacks (stacks w ++ [(sid, update_row empty_row vs)])) ;;
  emit (EvStackCreate sid vs) ;;
  ret sid.

Definition stack_delete (sid : string) : M unit :=
  w <- get_world ;;
  match lookup_row sid (stacks w) with
  | Some _ =>
      modify_world (set_stacks (delete_row sid (stacks w))) ;;
      emit (EvStackDelete sid)
  | None => raise NotFound
  end.

(** *** [Stack.store] *)

(** [get_kwargs_for_cloning(keep_status=True, only_db=True)] extended by
    [store] with name, backup, updated_at and raw_template_id. *)
Definition store_values (s : Stack) (backup : bool) (raw : option Z)
  : Values :=
  [ FOwnerId (owner_id s); FDisableRollback (disable_rollback s);
    FUserCredsId (user_creds_id s); FConvergence (convergence s);
    FCurrentTraversal (current_traversal s);
    FPrevRawTemplateId (prev_raw_template_id s);
    FCurrentDeps (current_deps s);
    FAction (action s); FStatus (status s);
    FStatusReason (status_reason s);
    FTimeout (timeout_mins s);
    FName (name s); FBackup backup; FUpdatedAt (updated_time s);
    FRawTemplateId raw ].

(** The tail of [store] shared by the update and the create branch. *)
Definition store_finish : M (option string) :=
  s <- get_self ;;
  (match tags s with
   | [] => ret tt
   | _ :: _ => emit (EvTagsSet (id s) (tags s))
   end) ;;
  emit EvSetParamStackId ;;
  s' <- get_self ;;
  ret (id s').

Definition store (backup : bool) (exp_trvsl : option string)
           (ignore_traversal_check : bool) : M (option string) :=
  s0 <- get_self ;;
  raw <- (match tmpl_id (t s0) with
          | None =>
              tid <- fresh_id ;;
              emit (EvTemplateStore tid) ;;
              modify_self (set_t {| tmpl_id := Some tid |}) ;;
              ret (Some tid)
          | Some tid => ret (Some tid)
          end) ;;
  s <- get_self ;;
  let vs := store_values s backup raw in
  if truthy (id s) then
    let sid := match id s with Some i => i | None => "" end in
    let exp := match exp_trvsl with
               | None => if ignore_traversal_check then None
                         else current_traversal s
               | Some e => Some e
               end in
    if convergence s then
      updated <- select_and_update sid vs exp ;;
      if updated then store_finish else ret None
    else
      update_by_id sid vs ;;
      store_finish
  else
    vs1 <- (match user_creds_id s with
            | Some _ => ret vs
            | None =>
                cid <- fresh_id ;;
                emit (EvUserCredsCreate cid) ;;
                modify_self (set_user_creds_id (Some cid)) ;;
                ret (vs ++ [FUserCredsId (Some cid)])
            end) ;;
    vs2 <- (if convergence s then
              u <- generate_uuid ;;
              modify_self (set_current_traversal (Some u)) ;;
              ret (vs1 ++ [FCurrentTraversal (Some u)])
            else ret vs1) ;;
    w <- get_world ;;
    sid <- stack_create vs2 ;;
    modify_self (set_id (Some sid)) ;;
    modify_self (set_created_time (Some (now w))) ;;
    store_finish.

(** *** [Stack.state_set] and [Stack._persist_state] *)

Definition _send_notification_and_add_event : M unit :=
  s <- get_self ;;
  emit (EvNotify (action s) (status s) (status_reason s)) ;;
  emit (EvInfo "Stack state").

(** Python's [None] / [True] / [False] result of [_persist_state]. *)
Definition _persist_state : M (option bool) :=
  s <- get_self ;;
  match id s with
  | None => ret None
  | Some sid =>
      row <- get_by_id sid ;;
      match row with
      | None => ret None
      | Some r =>
          let values := [FAction (action s); FStatus (status s);
                         FStatusReason (status_reason s)] in
          _send_notification_and_add_event ;;
          if convergence s then
            let exp_trvsl := current_traversal s in
            values' <- (if opt_str_eqb (status s) (Some FAILED) then
                          modify_self (set_current_traversal (Some "")) ;;
                          ret (values ++ [FCurrentTraversal (Some "")])
                        else ret values) ;;
            updated <- select_and_update sid values' exp_trvsl ;;
            ret (Some updated)
          else
            _ <- select_and_update sid values None ;;
            ret None
      end
  end.

Definition is_true (o : option bool) : bool :=
  match o with Some true => true | _ => false end.

Definition state_set (act sts reason : string) : M (option bool) :=
  if negb (str_in act ACTIONS) then
    raise (ValueError ("Invalid action " ++ act)%string)
  else if negb (str_in sts STATUSES) then
    raise (ValueError ("Invalid status " ++ sts)%string)
  else
    modify_self (set_action (Some act)) ;;
    modify_self (set_status (Some sts)) ;;
    modify_self (set_status_reason reason) ;;
    s <- get_self ;;
    if convergence s && str_in act [UPDATE; DELETE; CREATE; ADOPT; ROLLBACK]
    then
      updated <- _persist_state ;;
      (if is_true updated then ret tt
       else emit (EvWarning "Failed to set state of stack")) ;;
      ret updated
    else
      (if String.eqb sts IN_PROGRESS || str_in act [UPDATE; DELETE; ROLLBACK]
       then _ <- _persist_state ;; ret tt
       else ret tt) ;;
      ret None.

(** *** [Stack.purge_db] and [Stack.mark_complete] *)

(** Python truthiness of an optional integer ([None] and [0] are
    false). *)
Definition truthyZ (o : option Z) : bool :=
  match o with
  | Some z => negb (Z.eqb z 0)
  | None => false
  end.

Definition _try_get_user_creds
  : M (option (option string * option string)) :=
  s <- get_self ;;
  w <- get_world ;;
  emit (EvUserCredsGet (user_creds_id s)) ;;
  match stored_creds (identity w) with
  | CredsError =>
      emit (EvException "Failed to retrieve user_creds") ;; ret None
  | CredsNone => ret None
  | CredsFound trust_id trustor_id => ret (Some (trust_id, trustor_id))
  end.

(** [try: m except exception.NotFound: handler], the value of [m] being
    dropped. *)
Definition try_except_NotFound_with {A} (m : M A) (handler : M unit)
  : M unit :=
  fun st =>
    match m st with
    | (Ok _, st') => (Ok tt, st')
    | (Raise NotFound, st') => handler st'
    | (Raise e, st') => (Raise e, st')
    end.

(** [_delete_credentials(stack_status, reason, abandon)]: the trust, the
    stored credentials and the domain project are deleted by collaborators
    whose outcome the environment gives; the status and reason passed in
    come back unless the deletion of the trust or of the project fails. *)
Definition _delete_credentials (stack_status : option string)
           (reason : string) (abandon : bool)
  : M (option string * string) :=
  s <- get_self ;;
  w <- get_world ;;
  sr1 <-
    (if truthyZ (user_creds_id s) then
       user_creds <- _try_get_user_creds ;;
       sr <-
         (match user_creds with
          | Some (trust_id, trustor_id) =>
              if truthy trust_id then
                let stored :=
                  negb (opt_str_eqb (context_user_id (identity w))
                                    trustor_id) in
                (if stored
                 then emit (EvDebug "Context user_id doesn't match trustor, using stored context")
                 else ret tt) ;;
                emit (EvDeleteTrust trust_id stored) ;;
                match delete_trust_error (identity w) with
                | Some ex =>
                    emit (EvException "Error deleting trust") ;;
                    ret (Some FAILED,
                         ("Error deleting trust: " ++ ex)%string)
                | None => ret (stack_status, reason)
                end
              else ret (stack_status, reason)
          | None => ret (stack_status, reason)
          end) ;;
       emit (EvUserCredsDelete (user_creds_id s)) ;;
       (if user_creds_gone (identity w)
        then emit (EvInfo "Tried to delete user_creds that do not exist")
        else ret tt) ;;
       try_except_NotFound_with
         (modify_self (set_user_creds_id None) ;; store false None false)
         (emit (EvInfo "Tried to store a stack that does not exist")) ;;
       ret sr
     else ret (stack_status, reason)) ;;
  s2 <- get_self ;;
  if truthy (stack_user_project_id s2) && negb abandon then
    emit (EvDeleteDomainProject (stack_user_project_id s2)) ;;
    match delete_project_error (identity w) with
    | Some ex =>
        emit (EvException "Error deleting project") ;;
        ret (Some FAILED, ("Error deleting project: " ++ ex)%string)
    | None => ret sr1
    end
  else ret sr1.

Definition try_except_NotFound (m : M unit) : M unit :=
  fun st =>
    match m st with
    | (Raise NotFound, st') => (Ok tt, st')
    | r => r
    end.

Definition purge_db : M unit :=
  s <- get_self ;;
  emit (EvPurgeDeleted (id s)) ;;
  prev_tmpl_id <-
    (match prev_raw_template_id s with
     | Some p =>
         if negb (opt_str_eqb (status s) (Some FAILED)) then
           modify_self (set_prev_raw_template_id None) ;; ret (Some p)
         else ret None
     | None => ret None
     end) ;;
  stack_id <- store false None false ;;
  match stack_id with
  | None => emit (EvWarning "Failed to store stack, aborting stack purge")
  | Some _ =>
      (match prev_tmpl_id with
       | Some p => emit (EvRawTemplateDelete p)
       | None => ret tt
       end) ;;
      s1 <- get_self ;;
      emit (EvSyncPointDeleteAll (id s1) (current_traversal s1)) ;;
      if opt_str_eqb (action s1) (Some DELETE)
         && opt_str_eqb (status s1) (Some COMPLETE)
      then
        failed <-
          (if negb (truthy (owner_id s1)) then
             sr <- _delete_credentials (status s1) (status_reason s1) false ;;
             if opt_str_eqb (fst sr) (Some FAILED) then
               _ <- state_set (match action s1 with Some a => a | None => "None" end)
                              FAILED (snd sr) ;;
               ret true
             else ret false
           else ret false) ;;
        if failed : bool then ret tt
        else
          try_except_NotFound
            (stack_delete (match id s1 with Some i => i | None => "" end))
      else ret tt
  end.

Definition mark_complete : M unit :=
  s <- get_self ;;
  emit (EvInfo "update traversal complete") ;;
  let act := match action s with Some a => a | None => "None" end in
  let reason := ("Stack " ++ act ++ " completed successfully")%string in
  updated <- state_set act COMPLETE reason ;;
  if is_true updated then purge_db else ret tt.

(** *** [Stack.converge_stack] *)

(** The attributes of [new_stack] that [converge_stack] copies. *)
Record NewStack : Type := {
  ns_disable_rollback : bool;
  ns_timeout_mins : option Z;
  ns_tags : list string
}.

(** [_update_or_store_resources] and [_compute_convg_dependencies] build
    the convergence graph from the template's resources and the resource
    rows; the model records that they ran and takes the graph they yield
    from the environment. *)
Definition _converge_create_or_update : M unit :=
  emit EvStoreResources ;;
  w <- get_world ;;
  let g := convg w in
  modify_self (set_current_deps (cg_edges g)) ;;
  stack_id <- store false None false ;;
  match stack_id with
  | None => emit (EvWarning "Failed to store stack, aborting stack action")
  | Some _ =>
      emit (EvInfo "convergence_dependencies") ;;
      s <- get_self ;;
      (if opt_str_eqb (action s) (Some DELETE)
       then emit (EvSnapshotsDelete (id s)) else ret tt) ;;
      for_each (cg_nodes g)
        (fun k => emit (EvSyncPointCreate (inr (fst k)) (current_traversal s)
                                          (snd k) (id s))) ;;
      emit (EvSyncPointCreate
              (inl (match id s with Some i => i | None => "" end))
              (current_traversal s) true (id s)) ;;
      match cg_leaves g with
      | [] => mark_complete
      | _ :: _ =>
          for_each (cg_leaves g)
            (fun k =>
               emit (EvInfo (if snd k then "Triggering resource for update"
                             else "Triggering resource for cleanup")) ;;
               emit (EvCheckResource (fst k) (current_traversal s) (snd k)))
      end
  end.

Definition converge_stack (template : Template) (act : string)
           (new_stack : option NewStack) : M unit :=
  s0 <- get_self ;;
  (if negb (str_in act [CREATE; ADOPT])
   then modify_self (set_prev_raw_template_id (tmpl_id (t s0)))
   else ret tt) ;;
  modify_self (set_t template) ;;
  w <- get_world ;;
  (if negb (String.eqb act CREATE)
   then modify_self (set_updated_time (Some (now w))) else ret tt) ;;
  (match new_stack with
   | Some ns =>
       modify_self (set_rollback_timeout_tags (ns_disable_rollback ns)
                      (ns_timeout_mins ns) (ns_tags ns)) ;;
       emit EvSetParamStackId ;;
       (match ns_tags ns with
        | _ :: _ => emit (EvTagsSet (id s0) (ns_tags ns))
        | [] => emit (EvTagsDelete (id s0))
        end)
   | None => ret tt
   end) ;;
  modify_self (set_action (Some act)) ;;
  modify_self (set_status (Some IN_PROGRESS)) ;;
  modify_self (set_status_reason ("Stack " ++ act ++ " started")%string) ;;
  s1 <- get_self ;;
  let previous_traversal := current_traversal s1 in
  u <- generate_uuid ;;
  modify_self (set_current_traversal (Some u)) ;;
  stack_id <- store false previous_traversal false ;;
  match stack_id with
  | None => emit (EvWarning "Failed to store stack, aborting stack action")
  | Some _ =>
      _send_notification_and_add_event ;;
      s2 <- get_self ;;
      (if truthy previous_traversal
       then emit (EvSyncPointDeleteAll (id s2) previous_traversal)
       else ret tt) ;;
      _converge_create_or_update
  end.

(** The calls that make up convergence work: resource rows and graph,
    sync points, dispatch to the workers. *)
Definition convergence_work (e : Event) : bool :=
  match e with
  | EvSyncPointCreate _ _ _ _ => true
  | EvCheckResource _ _ _ => true
  | EvStoreResources => true
  | EvSyncPointDeleteAll _ _ => true
  | _ => false
  end.

(** Writes to the stack table. *)
Definition stack_write (e : Event) : bool :=
  match e with
  | EvStackUpdate _ _ _ _ | EvStackCreate _ _ | EvStackDelete _ => true
  | _ => false
  end.

(** Neither convergence work nor a write to the stack table. *)
Definition quiet (e : Event) : bool :=
  negb (convergence_work e || stack_write e).

(** Two stack objects that differ at most in the template. *)
Definition same_but_t (s s' : Stack) : Prop :=
  id s' = id s /\ action s' = action s /\ status s' = status s
  /\ status_reason s' = status_reason s
  /\ convergence s' = convergence s
  /\ current_traversal s' = current_traversal s
  /\ prev_raw_template_id s' = prev_raw_template_id s
  /\ current_deps s' = current_deps s
  /\ owner_id s' = owner_id s.

(** A computation only appends to the trace of collaborator calls. *)
Definition extends {A} (m : M A) : Prop :=
  forall st, exists evs,
    trace (world (snd (m st))) = trace (world st) ++ evs.

(** A stored convergence stack whose traversal is the stored one. *)
Definition current (sid prev : string) (keys : list string) (st : State)
  : Prop :=
  id (self st) = Some sid
  /\ convergence (self st) = true
  /\ current_traversal (self st) = Some prev
  /\ map fst (stacks (world st)) = keys
  /\ exists r, lookup_row sid (stacks (world st)) = Some r
               /\ row_current_traversal r = Some prev.

(** The stack is stored, its traversal is the stored one, and its state is
    [(act0, sts0)], its owner [own0] and the identity service [idn]. *)
Definition steady (sid prev : string) (keys : list string)
           (act0 sts0 own0 : option string) (idn : Identity) (st : State)
  : Prop :=
  current sid prev keys st
  /\ action (self st) = act0 /\ status (self st) = sts0
  /\ owner_id (self st) = own0
  /\ identity (world st) = idn.

(** The computation returns from every state that satisfies [P], with a
    value and in a state that satisfy [Q]. *)
Definition hoare {A} (P : State -> Prop) (m : M A)
           (Q : A -> State -> Prop) : Prop :=
  forall st, P st -> exists a st', m st = (Ok a, st') /\ Q a st'.

(** What is left of the row of a stack deleted to completion: nothing, or
    a FAILED row whose traversal is cleared. *)
Definition delete_outcome (sid : string) (tb : StackTable) : Prop :=
  match lookup_row sid tb with
  | None => True
  | Some r' => row_current_traversal r' = Some ""
               /\ row_status r' = Some FAILED
  end.

(** *** [Stack._get_best_existing_rsrc_db] *)

(** A row of the resource table, as [db_active_resources_get] returns
    them. *)
Record ResourceRow : Type := {
  rsrc_id : Z;
  rsrc_name : string;
  rsrc_current_template_id : option Z;
  rsrc_replaces : option Z;
  rsrc_requires : list Z;
  rsrc_needed_by : list Z
}.

(** The body of the [for] loop over [ext_rsrcs_db.items()], in the
    dictionary's iteration order; returning without recursing is the
    [break]. *)
Fixpoint best_loop (s : Stack) (rsrc_name0 : string)
         (items : list (Z * ResourceRow)) (candidate : option ResourceRow)
  : option ResourceRow :=
  match items with
  | [] => candidate
  | (_, ext_rsrc) :: rest =>
      if negb (String.eqb (rsrc_name ext_rsrc) rsrc_name0) then
        best_loop s rsrc_name0 rest candidate
      else if opt_Z_eqb (rsrc_current_template_id ext_rsrc) (tmpl_id (t s))
      then Some ext_rsrc
      else if opt_Z_eqb (rsrc_current_template_id ext_rsrc)
                        (prev_raw_template_id s)
      then best_loop s rsrc_name0 rest (Some ext_rsrc)
      else match candidate with
           | None => best_loop s rsrc_name0 rest (Some ext_rsrc)
           | Some _ => best_loop s rsrc_name0 rest candidate
           end
  end.

(** [ext_rsrcs_db] is [None] or a non-empty dictionary
    ([db_active_resources_get] returns [resources or None]). *)
Definition _get_best_existing_rsrc_db (s : Stack)
           (ext_rsrcs_db : option (list (Z * ResourceRow)))
           (rsrc_name0 : string) : option ResourceRow :=
  match ext_rsrcs_db with
  | None => None
  | Some [] => None
  | Some items => best_loop s rsrc_name0 items None
  end.

(** The rows of the given name, in iteration order. *)
Definition same_named (rsrc_name0 : string) (items : list (Z * ResourceRow))
  : list ResourceRow :=
  filter (fun r => String.eqb (rsrc_name r) rsrc_name0) (map snd items).

Definition in_current_template (s : Stack) (r : ResourceRow) : bool :=
  opt_Z_eqb (rsrc_current_template_id r) (tmpl_id (t s)).

Definition in_previous_template (s : Stack) (r : ResourceRow) : bool :=
  opt_Z_eqb (rsrc_current_template_id r) (prev_raw_template_id s).

(** The priority list in the specification's words: a current-template
    match, else a previous-template match, else the earliest row. *)
Definition best_by_priority (s : Stack) (rsrc_name0 : string)
           (items : list (Z * ResourceRow)) : option ResourceRow :=
  let named := same_named rsrc_name0 items in
  match find (in_current_template s) named with
  | Some r => Some r
  | None =>
      match find (in_previous_template s) (rev named) with
      | Some r => Some r
      | None => hd_error named
      end
  end.

End StackEngine.

(* ================================================================== *)
(** ** The convergence worker ([heat/engine/worker.py]) *)

Module Worker.

Import StackEngine.
Open Scope string_scope.
Open Scope list_scope.

(** What a worker invocation does to its collaborators, in order. *)
Inductive WEvent : Type :=
| WAddMsgQueue (sid : option string)
| WRemoveMsgQueue (sid : option string)
| WDebug (msg : string)
| WResourceUpdateAndSave (rid : Z) (act : string)
| WRetriggerCheckResource (is_update : bool) (rid : Z)
| WCheck (rid : Z) (trv : option string) (is_update : bool).

(** The collaborators of [heat.engine.check_resource] are not part of the
    sources; a call to one of them is recorded in the trace and ends the
    way the environment says ([None]: it returns). *)
Record Env : Type := {
  check_raises : option exn;
  retrigger_raises : option exn
}.

Definition W (A : Type) : Type := list WEvent -> Result A * list WEvent.

Definition wret {A} (a : A) : W A := fun tr => (Ok a, tr).

Definition wbind {A B} (m : W A) (k : A -> W B) : W B :=
  fun tr =>
    match m tr with
    | (Ok a, tr') => k a tr'
    | (Raise e, tr') => (Raise e, tr')
    end.

Definition wemit (e : WEvent) : W unit := fun tr => (Ok tt, tr ++ [e]).

Definition wcall (e : WEvent) (outcome : option exn) : W unit :=
  fun tr =>
    match outcome with
    | None => (Ok tt, tr ++ [e])
    | Some x => (Raise x, tr ++ [e])
    end.

(** [try: body finally: fin]. *)
Definition try_finally {A} (body : W A) (fin : W unit) : W A :=
  fun tr =>
    match body tr with
    | (r, tr') =>
        match fin tr' with
        | (Ok _, tr'') => (r, tr'')
        | (Raise e, tr'') => (Raise e, tr'')
        end
    end.

(** The nodes of [stack.convergence_dependencies.graph()], rebuilt from the
    stored edge list as the [convergence_dependencies] property does. *)
Fixpoint graph_nodes (edges : list Edge) : list GraphKey :=
  match edges with
  | [] => []
  | (rqr, Some rqd) :: rest => rqr :: rqd :: graph_nodes rest
  | (rqr, None) :: rest => rqr :: graph_nodes rest
  end.

Definition in_graph (k : GraphKey) (edges : list Edge) : bool :=
  existsb (key_eqb k) (graph_nodes edges).

Definition _retrigger_replaced (env : Env) (is_update : bool)
           (rsrc : ResourceRow) (stack : Stack) : W unit :=
  let key := (rsrc_id rsrc, is_update) in
  match rsrc_replaces rsrc with
  | Some old =>
      if negb (in_graph key (current_deps stack)) then
        wbind (wemit (WResourceUpdateAndSave (rsrc_id rsrc) DELETE))
          (fun _ => wcall (WRetriggerCheckResource is_update old)
                          (retrigger_raises env))
      else wret tt
  | None => wret tt
  end.

(** [load_resource] answers [(rsrc, rsrc_owning_stack, stack)], with
    [rsrc = None] when the resource is gone; [loaded] is that answer. *)
Definition check_resource (env : Env)
           (loaded : option (ResourceRow * Stack))
           (resource_id : Z) (current_traversal0 : option string)
           (is_update : bool) : W unit :=
  match loaded with
  | None => wret tt
  | Some (rsrc, stack) =>
      try_finally
        (wbind (wemit (WAddMsgQueue (id stack)))
           (fun _ =>
              if negb (opt_str_eqb current_traversal0
                                   (current_traversal stack))
              then
                wbind (wemit (WDebug "Traversal cancelled; re-trigerring."))
                  (fun _ => _retrigger_replaced env is_update rsrc stack)
              else
                wcall (WCheck resource_id current_traversal0 is_update)
                      (check_raises env)))
        (wemit (WRemoveMsgQueue (id stack)))
  end.

(** The resource action is run by [CheckResource.check] only. *)
Definition runs_action (e : WEvent) : bool :=
  match e with
  | WCheck _ _ _ => true
  | _ => false
  end.

(** [_update_current_traversal] and [_stop_traversal] act on a stack
    object and the stack table, in the monad of the stack methods. *)
Definition _update_current_traversal : M bool :=
  s <- get_self ;;
  let previous_traversal := current_traversal s in
  u <- generate_uuid ;;
  modify_self (set_current_traversal (Some u)) ;;
  select_and_update (match id s with Some i => i | None => "" end)
                    [FCurrentTraversal (Some u)] previous_traversal.

Definition _stop_traversal : M unit :=
  s <- get_self ;;
  let old_trvsl := current_traversal s in
  updated <- _update_current_traversal ;;
  if negb updated then
    emit (EvWarning "Failed to update stack with new traversal")
  else
    s1 <- get_self ;;
    let act := match action s1 with Some a => a | None => "None" end in
    updated' <- state_set act FAILED ("Stack " ++ act ++ " cancelled")%string ;;
    if negb (is_true updated') then
      emit (EvWarning "Failed to update stack status")
    else
      emit (EvSyncPointDeleteAll (id s1) old_trvsl).

End Worker.


(* ================================================================== *)
(** ** The dependency graph ([heat.engine.dependencies])

    Modelled from the spec: the module [heat/engine/dependencies.py] is not
    part of the sources; only its use by the tests and by the stack is.
    The data model is "a mapping from node key to the set of node keys it
    requires and the inverse", built from a list of [(requirer, required)]
    edges where [required] may be null for a free-standing node.  Iteration
    yields the nodes in a forward topological order and raises
    [CircularDependencyException] "carrying the offending cycle (as an
    ordered list of nodes back to the repeated node)"; "the graph must be
    acyclic; construction must detect and reject cycles, reporting the full
    cycle path", and that "at construction time, not lazily during
    traversal".  [reversed(graph)] "yields valid reverse order". *)

Module Dependencies.

Open Scope string_scope.
Open Scope list_scope.

Definition node : Type := string.

(** [(requirer, required)]. *)
Definition Edge : Type := (node * option node)%type.

Record Dependencies : Type := { dep_edges : list Edge }.

Definition mem (n : node) (l : list node) : bool :=
  existsb (String.eqb n) l.

Definition endpoints (e : Edge) : list node :=
  match snd e with
  | Some m => [fst e; m]
  | None => [fst e]
  end.

(** The node keys of the graph, each once. *)
Definition nodes (d : Dependencies) : list node :=
  nodup string_dec (flat_map endpoints (dep_edges d)).

(** [requires(node)]: the direct predecessors. *)
Definition requires (d : Dependencies) (n : node) : list node :=
  flat_map (fun e => if String.eqb (fst e) n
                     then match snd e with Some m => [m] | None => [] end
                     else [])
           (dep_edges d).

(** [required_by(node)]: the direct successors. *)
Definition required_by (d : Dependencies) (n : node) : list node :=
  flat_map (fun e => match snd e with
                     | Some m => if String.eqb m n then [fst e] else []
                     | None => []
                     end)
           (dep_edges d).

(** A node none of whose predecessors remains. *)
Definition is_leaf (d : Dependencies) (remaining : list node) (n : node)
  : bool :=
  forallb (fun m => negb (mem m remaining)) (requires d n).

(** [leaves()] of the whole graph. *)
Definition leaves (d : Dependencies) : list node :=
  filter (is_leaf d (nodes d)) (nodes d).

(** The suffix of [path] that starts at the first occurrence of [n]. *)
Fixpoint drop_until (n : node) (path : list node) : list node :=
  match path with
  | [] => []
  | x :: rest => if String.eqb x n then path else drop_until n rest
  end.

(** Follow predecessors among the remaining nodes from [cur] until a node
    of the path repeats; the result lists the cycle from the repeated node
    back to itself. *)
Fixpoint walk (fuel : nat) (d : Dependencies) (remaining path : list node)
         (cur : node) : list node :=
  match fuel with
  | O => []
  | S f =>
      match find (fun m => mem m remaining) (requires d cur) with
      | None => []
      | Some nxt =>
          if mem nxt path then drop_until nxt path ++ [nxt]
          else walk f d remaining (path ++ [nxt]) nxt
      end
  end.

Definition find_cycle (d : Dependencies) (remaining : list node)
  : list node :=
  match remaining with
  | [] => []
  | s :: _ => walk (S (List.length remaining)) d remaining [s] s
  end.

(** Modelled from the spec: the forward topological iteration of the
    missing [heat/engine/dependencies.py].  One iteration per node: yield
    a node without remaining predecessors and remove it; when nodes remain
    but none is free there is a cycle. *)
Fixpoint toposort_loop (fuel : nat) (d : Dependencies)
         (remaining acc : list node) : Result (list node) :=
  match fuel with
  | O => Ok (rev acc)
  | S f =>
      match find (is_leaf d remaining) remaining with
      | Some n => toposort_loop f d (remove string_dec n remaining) (n :: acc)
      | None => Raise (CircularDependencyException (find_cycle d remaining))
      end
  end.

(** Modelled from the spec: [iter(dependencies)] of the missing
    [heat/engine/dependencies.py], run to the end. *)
Definition toposort (d : Dependencies) : Result (list node) :=
  toposort_loop (List.length (nodes d)) d (nodes d) [].

(** Modelled from the spec: [Dependencies(edges)] of the missing
    [heat/engine/dependencies.py].  "Construction must raise a
    distinguished CircularDependencyException carrying the offending cycle
    ... the first time a cycle is detected -- at construction time, not
    lazily during traversal": the edges are recorded and the graph is
    sorted once; without a cycle the graph is returned. *)
Definition Dependencies_new (edges : list Edge) : Result Dependencies :=
  let d := {| dep_edges := edges |} in
  match toposort d with
  | Raise e => Raise e
  | Ok _ => Ok d
  end.

(** An edge in the opposite direction; a free-standing node stays. *)
Definition flip (e : Edge) : Edge :=
  match snd e with
  | Some m => (m, Some (fst e))
  | None => e
  end.

(** Modelled from the spec: the graph traversed in reverse,
    [reversed(graph)] of the missing [heat/engine/dependencies.py]: every
    node requires the nodes that required it. *)
Definition reversed (d : Dependencies) : Dependencies :=
  {| dep_edges := map flip (dep_edges d) |}.

(** Consecutive nodes of the list are joined by edges: each requires the
    next. *)
Fixpoint is_walk (d : Dependencies) (c : list node) : Prop :=
  match c with
  | a :: ((b :: _) as rest) => In (a, Some b) (dep_edges d) /\ is_walk d rest
  | _ => True
  end.

(** A cycle, walked in order, returns to its starting node. *)
Definition closed_walk (d : Dependencies) (c : list node) : Prop :=
  exists v mid, c = v :: mid ++ [v] /\ is_walk d c.

Definition has_cycle (d : Dependencies) : Prop :=
  exists c, closed_walk d c.

End Dependencies.

(* ================================================================== *)
(** ** Tasks and task runners ([heat.engine.scheduler.TaskRunner])

    Modelled from the spec: [heat/engine/scheduler.py] is not part of the
    sources; its tests are.  "A Task is any resumable step-function";
    [start(timeout)] "begins the underlying step sequence; asserts not
    already started; records a deadline if timeout given"; [step()]
    "advances one unit of work; returns True when the task has no more work
    (done).  Each call first checks the deadline (raising a Timeout signal
    into the task, giving it a chance to clean up/return, otherwise
    propagating)".  The tests [test_timeout], [test_timeout_return] and
    [test_timeout_swallowed] fix what [step()] answers in the three ways a
    task can react to the signal.  Cancellation is outside this model. *)

Module TaskRunner.

Open Scope Z_scope.

(** How a resumption of a task ends: at its next suspension point, by
    returning, or by raising. *)
Inductive Resumed (S : Type) : Type :=
| Yielded (s : S)
| Returned
| Raised (e : exn).
Arguments Yielded {S} s.
Arguments Returned {S}.
Arguments Raised {S} e.

(** A task over suspension points of type [S]: what running it from the
    beginning does, what resuming it at a suspension point does, and what
    it does when an exception is raised into it at a suspension point. *)
Record Task (S : Type) : Type := {
  begin : Resumed S;
  next : S -> Resumed S;
  throw : exn -> S -> Resumed S
}.

(** The underlying step sequence of a runner. *)
Inductive Gen (S : Type) : Type :=
| Fresh                (* created, not yet resumed *)
| Suspended (s : S)    (* waiting at a suspension point *)
| Finished.            (* returned, raised or closed *)
Arguments Fresh {S}.
Arguments Suspended {S} s.
Arguments Finished {S}.

Record Runner (S : Type) : Type := {
  task : Task S;
  gen : option (Gen S);        (* [None] before [start] *)
  done : bool;
  deadline : option Z
}.

Definition new_runner {S} (tk : Task S) : Runner S :=
  {| task := tk; gen := None; done := false; deadline := None |}.

Definition started {S} (r : Runner S) : bool :=
  match gen r with Some _ => true | None => false end.

Definition with_gen {S} (r : Runner S) (g : Gen S) (d : bool) : Runner S :=
  {| task := task r; gen := Some g; done := d; deadline := deadline r |}.

(** [Timeout.expired()]: the wall clock has passed the deadline. *)
Definition expired {S} (r : Runner S) (now : Z) : bool :=
  match deadline r with
  | Some d => d <? now
  | None => false
  end.

(** Modelled from the spec: [TaskRunner.step()] of the missing
    [heat/engine/scheduler.py].  One call when the clock reads [now]: the
    answer (done or not, or the exception that escapes) and the runner
    afterwards. *)
Definition step {S} (r : Runner S) (now : Z) : Result bool * Runner S :=
  if done r then (Ok true, r)
  else
    match gen r with
    | None => (Raise (AssertionError "Task not started"), r)
    | Some g =>
        if expired r now then
          (* the signal is raised into the task; the runner is done *)
          match g with
          | Suspended s =>
              match throw (task r) Timeout s with
              | Returned => (Ok true, with_gen r Finished true)
              | Yielded _ => (Ok true, with_gen r Finished true)
              | Raised e => (Raise e, with_gen r Finished true)
              end
          | Fresh => (Raise Timeout, with_gen r Finished true)
          | Finished => (Ok true, with_gen r Finished true)
          end
        else
          match g with
          | Fresh =>
              match begin (task r) with
              | Yielded s' => (Ok false, with_gen r (Suspended s') false)
              | Returned => (Ok true, with_gen r Finished true)
              | Raised e => (Raise e, with_gen r Finished false)
              end
          | Suspended s =>
              match next (task r) s with
              | Yielded s' => (Ok false, with_gen r (Suspended s') false)
              | Returned => (Ok true, with_gen r Finished true)
              | Raised e => (Raise e, with_gen r Finished false)
              end
          | Finished => (Ok true, with_gen r Finished true)
          end
    end.

(** Modelled from the spec: [TaskRunner.start(timeout)] of the missing
    [heat/engine/scheduler.py], with the clock reading [now0] when the
    deadline is recorded and [now1] at the first step. *)
Definition start {S} (r : Runner S) (timeout : option Z) (now0 now1 : Z)
  : Result bool * Runner S :=
  if started r || done r then (Raise (AssertionError "Task already started"), r)
  else
    step {| task := task r; gen := Some Fresh; done := false;
            deadline := match timeout with
                        | Some tm => Some (now0 + tm)
                        | None => None
                        end |} now1.

(** The tasks of [test_timeout], [test_timeout_return] and
    [test_timeout_swallowed]; each has a single suspension point, and the
    last has a second one inside its handler. *)
Definition loop_forever : Task unit :=
  {| begin := Yielded tt;
     next := fun _ => Yielded tt;
     throw := fun e _ => Raised e |}.

Definition return_on_timeout : Task unit :=
  {| begin := Yielded tt;
     next := fun _ => Yielded tt;
     throw := fun e _ => match e with Timeout => Returned | _ => Raised e end |}.

Definition swallow_timeout : Task bool :=
  {| begin := Yielded false;
     next := fun s =>
               if s then Raised (AssertionError "Task still running")
               else Yielded false;
     throw := fun e s => match e, s with
                         | Timeout, false => Yielded true
                         | _, _ => Raised e
                         end |}.

End TaskRunner.

(* ================================================================== *)
(** ** Dependency task groups ([heat.engine.scheduler.DependencyTaskGroup])

    Modelled from the spec: the class is not part of the sources; the tests
    of [DependencyTaskGroupTest] are.  It "drives one Task per ready node
    (no unresolved predecessors in the chosen direction) in round-robin
    step fashion; when a node's action completes, its successors become
    candidates if all of their predecessors are done".  On a node failure
    with [aggregate_exceptions] "the failing node's dependents are
    transitively cancelled (never started) ...; all other independent
    branches continue to run to completion; all collected exceptions are
    raised together at the end"; without it every other node is cancelled,
    a node in progress being given [error_wait_time] seconds to finish,
    and the first exception is raised once no node is left in progress.
    Construction iterates the graph and so propagates its
    [CircularDependencyException].  The group is constructed with "a
    traversal direction flag": "reverse traversal (deletion) guarantees a
    node's action starts only after all of its dependents (not
    dependencies) have completed".  A node's task is the sequence of its
    [do_step] calls, each of which returns or raises. *)

Module Scheduler.

Import Dependencies.
Open Scope string_scope.
Open Scope list_scope.
Open Scope Z_scope.

(** What one resumption of a node's task does after calling [do_step]. *)
Inductive outcome : Type :=
| StepOk
| StepRaise (e : exn).

Inductive status : Type :=
| Waiting                                      (* not started *)
| Running (pos : nat) (deadline : option Z)    (* [pos] steps made *)
| Done                                         (* ran to completion *)
| Failed (e : exn)                             (* its action raised [e] *)
| CancelledWaiting                             (* cancelled, never started *)
| CancelledRunning (pos : nat) (at_time : Z).  (* cancelled in progress *)

Record Config : Type := {
  deps : Dependencies;
  reverse : bool;                        (* the traversal direction flag *)
  task : node -> list outcome;
  aggregate_exceptions : bool;
  error_wait_time : node -> option Z;
  dict_order : list node -> list node;   (* iteration order of the runners *)
  wallclock : nat -> Z                   (* the clock during each round *)
}.

Record TaskGroup : Type := {
  topo : list node;                      (* the nodes as the graph yields them *)
  stat : node -> status;
  trace : list (node * nat);             (* the [do_step(i, node)] calls *)
  raised : list (node * exn * Z);        (* failures: node, exception, time *)
  rounds : nat
}.

(** The graph in the chosen direction: what a node waits for are the
    nodes it requires, and in a reverse group the nodes that require it. *)
Definition graph (cfg : Config) : Dependencies :=
  if reverse cfg then reversed (deps cfg) else deps cfg.

(** Modelled from the spec: the constructor
    [DependencyTaskGroup(dependencies, task, reverse, ...)] of the missing
    [heat/engine/scheduler.py]; it iterates the graph in the chosen
    direction. *)
Definition DependencyTaskGroup_new (cfg : Config) : Result TaskGroup :=
  match toposort (graph cfg) with
  | Raise e => Raise e
  | Ok order =>
      Ok {| topo := order; stat := fun _ => Waiting; trace := [];
            raised := []; rounds := O |}
  end.

Definition upd (st : node -> status) (k : node) (v : status)
  : node -> status :=
  fun n => if String.eqb n k then v else st n.

Definition set_stat (tg : TaskGroup) (st : node -> status) : TaskGroup :=
  {| topo := topo tg; stat := st; trace := trace tg; raised := raised tg;
     rounds := rounds tg |}.

Definition now (cfg : Config) (tg : TaskGroup) : Z :=
  wallclock cfg (rounds tg).

Definition is_done (s : status) : bool :=
  match s with Done => true | _ => false end.

(** A runner that is not done. *)
Definition active (s : status) : bool :=
  match s with Waiting | Running _ _ => true | _ => false end.

(** Failed or cancelled: it will never complete. *)
Definition dead (s : status) : bool :=
  match s with
  | Failed _ | CancelledWaiting | CancelledRunning _ _ => true
  | _ => false
  end.

Definition ready (cfg : Config) (tg : TaskGroup) (k : node) : bool :=
  match stat tg k with
  | Waiting => forallb (fun m => is_done (stat tg m)) (requires (graph cfg) k)
  | _ => false
  end.

(** Modelled from the spec: [cancel_all(grace_period=error_wait_time)]
    of the missing [heat/engine/scheduler.py].  Nodes not started are
    cancelled; a node in progress is cancelled at once without a grace
    period and otherwise gets a deadline (an earlier one is kept). *)
Definition cancel_all (cfg : Config) (tg : TaskGroup) : node -> status :=
  fun n =>
    match stat tg n with
    | Waiting => CancelledWaiting
    | Running pos dl =>
        match error_wait_time cfg n with
        | None => CancelledRunning pos (now cfg tg)
        | Some w =>
            Running pos (Some (match dl with
                               | Some d => Z.min d (now cfg tg + w)
                               | None => now cfg tg + w
                               end))
        end
    | s => s
    end.

(** Modelled from the spec: the recursive cancellation of the missing
    [heat/engine/scheduler.py] under [aggregate_exceptions].  The
    dependents of dead nodes are cancelled transitively: one pass in
    dependency order cancels every node not started that has a failed or
    cancelled predecessor. *)
Definition cancel_dependents (cfg : Config) (tg : TaskGroup)
  : node -> status :=
  fold_left
    (fun st n =>
       match st n with
       | Waiting =>
           if existsb (fun m => dead (st m)) (requires (graph cfg) n)
           then upd st n CancelledWaiting else st
       | _ => st
       end)
    (topo tg) (stat tg).

(** Modelled from the spec: one resumption of a node's runner in the
    missing [heat/engine/scheduler.py], with the handling of its failure.
    Node [k], resumed [pos] times so far, is resumed once more.  The
    boolean tells that its action raised, which ends the current round
    after the failure has been recorded and the cancellations made. *)
Definition advance (cfg : Config) (tg : TaskGroup) (k : node) (pos : nat)
           (dl : option Z) : TaskGroup * bool :=
  match nth_error (task cfg k) pos with
  | None => (set_stat tg (upd (stat tg) k Done), false)
  | Some StepOk =>
      ({| topo := topo tg; stat := upd (stat tg) k (Running (S pos) dl);
          trace := trace tg ++ [(k, S pos)]; raised := raised tg;
          rounds := rounds tg |}, false)
  | Some (StepRaise e) =>
      let tg1 :=
        {| topo := topo tg; stat := upd (stat tg) k (Failed e);
           trace := trace tg ++ [(k, S pos)];
           raised := raised tg ++ [(k, e, now cfg tg)];
           rounds := rounds tg |} in
      (set_stat tg1 (if aggregate_exceptions cfg
                     then cancel_dependents cfg tg1
                     else cancel_all cfg tg1), true)
  end.

(** Start every ready node, in iteration order. *)
Fixpoint start_ready (cfg : Config) (ks : list node) (tg : TaskGroup)
  : TaskGroup * bool :=
  match ks with
  | [] => (tg, false)
  | k :: ks' =>
      if ready cfg tg k then
        match advance cfg tg k O None with
        | (tg', true) => (tg', true)
        | (tg', false) => start_ready cfg ks' tg'
        end
      else start_ready cfg ks' tg
  end.

(** Step every node in progress, in iteration order; a node whose deadline
    has passed is cancelled instead. *)
Fixpoint step_running (cfg : Config) (ks : list node) (tg : TaskGroup)
  : TaskGroup * bool :=
  match ks with
  | [] => (tg, false)
  | k :: ks' =>
      match stat tg k with
      | Running pos dl =>
          if match dl with Some d => d <? now cfg tg | None => false end
          then step_running cfg ks'
                 (set_stat tg (upd (stat tg) k
                                   (CancelledRunning pos (now cfg tg))))
          else
            match advance cfg tg k pos dl with
            | (tg', true) => (tg', true)
            | (tg', false) => step_running cfg ks' tg'
            end
      | _ => step_running cfg ks' tg
      end
  end.

Definition next_round (tg : TaskGroup) : TaskGroup :=
  {| topo := topo tg; stat := stat tg; trace := trace tg;
     raised := raised tg; rounds := S (rounds tg) |}.

(** Modelled from the spec: one iteration of the loop of the group's
    task in the missing [heat/engine/scheduler.py]. *)
Definition round (cfg : Config) (tg : TaskGroup) : TaskGroup :=
  let order := dict_order cfg (topo tg) in
  match start_ready cfg order tg with
  | (tg1, true) => next_round tg1
  | (tg1, false) => next_round (fst (step_running cfg order tg1))
  end.

Definition any_active (tg : TaskGroup) : bool :=
  existsb (fun n => active (stat tg n)) (topo tg).

(** Modelled from the spec: what the group of the missing
    [heat/engine/scheduler.py] raises once no runner is left. *)
Definition outcome_of (cfg : Config) (tg : TaskGroup) : Result unit :=
  match raised tg with
  | [] => Ok tt
  | (_, e, _) :: _ =>
      if aggregate_exceptions cfg
      then Raise (ExceptionGroup (map (fun f => snd (fst f)) (raised tg)))
      else Raise e
  end.

(** Modelled from the spec: the group of the missing
    [heat/engine/scheduler.py] run by a [TaskRunner] for at most [fuel]
    rounds; [None] when runners are left after that. *)
Fixpoint run (fuel : nat) (cfg : Config) (tg : TaskGroup)
  : option (Result unit * TaskGroup) :=
  if any_active tg then
    match fuel with
    | O => None
    | S f => run f cfg (round cfg tg)
    end
  else Some (outcome_of cfg tg, tg).

(** The calls [do_step(1, n)], ..., [do_step(k, n)]. *)
Definition steps (n : node) (k : nat) : list (node * nat) :=
  map (fun i => (n, i)) (seq 1 k).

(** The calls made for node [n], in order. *)
Definition calls_of (n : node) (tr : list (node * nat)) : list (node * nat) :=
  filter (fun ev => String.eqb (fst ev) n) tr.

(** [n] depends on [k], directly or through other nodes. *)
Inductive depends_on (d : Dependencies) : node -> node -> Prop :=
| depends_direct n k : In k (requires d n) -> depends_on d n k
| depends_trans n m k :
    In m (requires d n) -> depends_on d m k -> depends_on d n k.

(** [n] comes after [k] in the direction of the traversal: [n] depends on
    [k] in a forward group, and [k] depends on [n] in a reverse group. *)
Definition waits_for (cfg : Config) (n k : node) : Prop :=
  if reverse cfg then depends_on (deps cfg) k n
  else depends_on (deps cfg) n k.

(** Every call for [a] comes before every call for [b]. *)
Definition all_before (a b : node) (tr : list (node * nat)) : Prop :=
  forall l1 l2 i j, tr = l1 ++ (b, j) :: l2 -> ~ In (a, i) l2.

(** Node [a] is complete before node [b] begins: no call for [a] follows
    a call for [b], and once [b] has a call every step of [a] was made. *)
Definition completes_before (cfg : Config) (a b : node)
           (tr : list (node * nat)) : Prop :=
  all_before a b tr
  /\ (calls_of b tr <> [] ->
      calls_of a tr = steps a (List.length (task cfg a))).

(** No step of any action raises. *)
Definition no_raise (cfg : Config) : Prop :=
  forall n p e, nth_error (task cfg n) p <> Some (StepRaise e).

(** The node's action ran to its end: it completed or it raised. *)
Definition finished (s : status) : Prop :=
  s = Done \/ exists e, s = Failed e.

(** The group after [j] iterations of its loop. *)
Definition after_rounds (cfg : Config) (j : nat) (tg : TaskGroup)
  : TaskGroup :=
  Nat.iter j (round cfg) tg.

(** The calls made for the nodes other than [a]. *)
Definition others (a : node) (tr : list (node * nat)) : list (node * nat) :=
  filter (fun ev => negb (String.eqb (fst ev) a)) tr.

(** A task of [k] steps none of which raises, and one whose step [k]
    raises [e] (as [DummyTask] with a stubbed [do_step]). *)
Definition ok_steps (k : nat) : list outcome := repeat StepOk k.

Definition raises_at (k : nat) (e : exn) : list outcome :=
  repeat StepOk (pred k) ++ [StepRaise e].

End Scheduler.

(* ================================================================== *)
(** ** Invariants of a running task group *)

Module SchedulerInv.

Import Dependencies Scheduler.
Open Scope string_scope.
Open Scope list_scope.

(** Every node comes after all the nodes it requires. *)
Definition sorted (d : Dependencies) (l : list node) : Prop :=
  forall l1 n l2, l = l1 ++ n :: l2 ->
                  forall m, In m (requires d n) -> In m l1.

(** The node's task has been resumed at least once. *)
Definition started (s : status) : bool :=
  match s with
  | Running _ _ | Done | Failed _ | CancelledRunning _ _ => true
  | _ => false
  end.

(** What does not change while the group runs. *)
Record Static (cfg : Config) (tg : TaskGroup) : Prop := {
  st_sorted : sorted (graph cfg) (topo tg);
  st_nodup : NoDup (topo tg);
  st_order : forall l k, In k (dict_order cfg l) <-> In k l
}.

(** The calls made for a node are those its status accounts for. *)
Definition calls_ok (cfg : Config) (tg : TaskGroup) (n : node) : Prop :=
  match stat tg n with
  | Waiting | CancelledWaiting => calls_of n (trace tg) = []
  | Running pos _ | CancelledRunning pos _ =>
      calls_of n (trace tg) = steps n pos
      /\ (pos <= List.length (task cfg n))%nat
  | Done => calls_of n (trace tg) = steps n (List.length (task cfg n))
  | Failed e =>
      exists p, calls_of n (trace tg) = steps n (S p)
                /\ nth_error (task cfg n) p = Some (StepRaise e)
  end.

(** The part of the invariant that concerns what has run. *)
Record Core (cfg : Config) (tg : TaskGroup) : Prop := {
  inv_started :
    forall n, started (stat tg n) = true ->
              forall m, In m (requires (graph cfg) n) -> stat tg m = Done;
  inv_calls : forall n, calls_ok cfg tg n;
  inv_nodes : forall n, started (stat tg n) = true -> In n (topo tg);
  inv_order :
    forall n m, depends_on (graph cfg) n m -> all_before m n (trace tg);
  inv_raised :
    forall n e, (exists t, In (n, e, t) (raised tg)) <-> stat tg n = Failed e;
  inv_raised_nodup : NoDup (map (fun f => fst (fst f)) (raised tg))
}.

(** The invariant between two resumptions of node tasks. *)
Record Inv (cfg : Config) (tg : TaskGroup) : Prop := {
  inv_core : Core cfg tg;
  inv_alive :
    forall n, In n (topo tg) -> stat tg n = Waiting ->
              forall m, In m (requires (graph cfg) n) ->
                        dead (stat tg m) = false;
  inv_clean : raised tg = [] -> forall n, dead (stat tg n) = false;
  inv_fail_fast :
    aggregate_exceptions cfg = false -> raised tg <> [] ->
    forall n, stat tg n <> Waiting;
  inv_deadline :
    forall n pos d, stat tg n = Running pos (Some d) ->
                    aggregate_exceptions cfg = false /\ raised tg <> [];
  inv_cancelled :
    aggregate_exceptions cfg = true ->
    forall n,
      (stat tg n = CancelledWaiting ->
       exists m, In m (requires (graph cfg) n) /\ dead (stat tg m) = true)
      /\ (forall pos t, stat tg n <> CancelledRunning pos t)
}.

Arguments inv_nodes [cfg tg] c n _.
Arguments inv_order [cfg tg] c n m _.
Arguments inv_deadline [cfg tg] i n pos d _.

(** A change of statuses that only cancels nodes or sets deadlines. *)
Definition benign (st g : node -> status) : Prop :=
  forall n,
    g n = st n
    \/ (st n = Waiting /\ g n = CancelledWaiting)
    \/ (exists p dl dl', st n = Running p dl /\ g n = Running p dl')
    \/ (exists p dl t, st n = Running p dl /\ g n = CancelledRunning p t).

(** Node [k] can be resumed for the [pos]-th time: it is ready and not
    started, or in progress. *)
Definition can_resume (cfg : Config) (tg : TaskGroup) (k : node) (pos : nat)
           (dl : option Z) : Prop :=
  In k (topo tg)
  /\ ((ready cfg tg k = true /\ pos = O /\ dl = None)
      \/ stat tg k = Running pos dl).

Definition is_running (s : status) : bool :=
  match s with Running _ _ => true | _ => false end.

(** The work left in a node, and in the group. *)
Definition weight (cfg : Config) (n : node) (s : status) : nat :=
  match s with
  | Waiting => S (S (List.length (task cfg n)))
  | Running pos _ => S (List.length (task cfg n) - pos)
  | _ => O
  end.

Definition work (cfg : Config) (st : node -> status) (l : list node) : nat :=
  fold_right (fun n acc => (weight cfg n (st n) + acc)%nat) O l.

(** With a grace period [w] for every node: deadlines lie [w] after the
    first failure, a node cancelled in progress was cancelled
    later than that, and nothing recorded lies in the future. *)
Record Timed (cfg : Config) (w : Z) (tg : TaskGroup) : Prop := {
  tm_failures :
    forall f, In f (raised tg) ->
              (match raised tg with
               | f0 :: _ => snd f0
               | [] => snd f
               end <= snd f <= now cfg tg)%Z;
  tm_deadline :
    forall n pos dl f0 rest,
      stat tg n = Running pos dl -> raised tg = f0 :: rest ->
      dl = Some (snd f0 + w)%Z;
  tm_cancelled :
    forall n pos t,
      stat tg n = CancelledRunning pos t ->
      exists f0 rest, raised tg = f0 :: rest
                      /\ (snd f0 + w < t <= now cfg tg)%Z
}.

Arguments tm_deadline [cfg w tg] t0 n pos dl f0 rest _ _.
Arguments tm_cancelled [cfg w tg] t0 n pos t _.

(** Every call in the trace returned, or it raised and its node is
    recorded as failed with the exception raised. *)
Definition Recorded (cfg : Config) (tg : TaskGroup) : Prop :=
  forall n p,
    In (n, S p) (trace tg) ->
    nth_error (task cfg n) p = Some StepOk
    \/ exists e, nth_error (task cfg n) p = Some (StepRaise e)
                 /\ stat tg n = Failed e.

(** One step of the pass of [cancel_dependents] over node [a]. *)
Definition cd_step_spec (cfg : Config) (st st' : node -> status) (a : node)
  : Prop :=
  (st' = st
   /\ (st a = Waiting ->
       forall m, In m (requires (graph cfg) a) -> dead (st m) = false))
  \/ (st' = upd st a CancelledWaiting /\ st a = Waiting
      /\ exists m, In m (requires (graph cfg) a) /\ dead (st m) = true).

End SchedulerInv.

(* ================================================================== *)
(** ** Sample data *)

Module Fixtures.

Import StackEngine.
Open Scope string_scope.
Open Scope list_scope.
Open Scope Z_scope.

(** A stored convergence stack whose CREATE has completed. *)
Definition stack0 : Stack :=
  {| id := Some "stack-1"; name := "demo"; action := Some CREATE;
     status := Some COMPLETE;
     status_reason := "Stack CREATE completed successfully";
     convergence := true; current_traversal := Some "trv-0";
     prev_raw_template_id := None; t := {| tmpl_id := Some 6 |};
     current_deps := []; owner_id := None; user_creds_id := Some 1;
     disable_rollback := true; timeout_mins := None; tags := [];
     updated_time := None; created_time := Some 0;
     stack_user_project_id := None |}.

Definition row0 : StackRow :=
  update_row empty_row (store_values stack0 false (Some 6)).

(** The same row after another writer advanced the traversal. *)
Definition row_advanced : StackRow :=
  update_row row0 [FCurrentTraversal (Some "trv-9")].

Definition uuids (n : nat) : string :=
  match n with
  | O => "trv-1"
  | S O => "trv-2"
  | _ => "trv-3"
  end.

Definition empty_graph : ConvGraph :=
  {| cg_nodes := []; cg_edges := []; cg_leaves := [] |}.

(** [net] (resource 1) and [server] (resource 2), which requires it. *)
Definition net_server_graph : ConvGraph :=
  {| cg_nodes := [(1, true); (2, true)];
     cg_edges := [((2, true), Some (1, true))];
     cg_leaves := [(1, true)] |}.

(** An identity service without trust and without failure. *)
Definition no_failure : Identity :=
  {| stored_creds := CredsFound None None; context_user_id := None;
     delete_trust_error := None; user_creds_gone := false;
     delete_project_error := None |}.

Definition world_of (tb : StackTable) (g : ConvGraph) : World :=
  {| stacks := tb; uuid_src := uuids; uuid_next := 0%nat; next_id := 8;
     now := 100; convg := g; identity := no_failure; trace := [] |}.

Definition st0 : State :=
  {| self := stack0; world := world_of [("stack-1", row0)] empty_graph |}.

Definition st_raced : State :=
  {| self := stack0;
     world := world_of [("stack-1", row_advanced)] net_server_graph |}.

Definition new_template : Template := {| tmpl_id := Some 7 |}.

(** Three rows named [server] from three template generations, and one
    row of another name. *)
Definition mk_rsrc (i : Z) (n : string) (tid : option Z) : ResourceRow :=
  {| rsrc_id := i; rsrc_name := n; rsrc_current_template_id := tid;
     rsrc_replaces := None; rsrc_requires := []; rsrc_needed_by := [] |}.

Definition rows3 : list (Z * ResourceRow) :=
  [ (1, mk_rsrc 1 "server" (Some 3));
    (2, mk_rsrc 2 "net" (Some 6));
    (3, mk_rsrc 3 "server" (Some 5));
    (4, mk_rsrc 4 "server" (Some 6)) ].

(** A worker message from traversal [trv-0] arriving after the stack moved
    on to [trv-5]; resource 12 replaces resource 11 and is not part of the
    current graph, which holds resource 11 only. *)
Definition stack_moved_on : Stack :=
  set_current_deps [((11, true), None)]
    (set_current_traversal (Some "trv-5") stack0).

Definition replacement_rsrc : ResourceRow :=
  {| rsrc_id := 12; rsrc_name := "server";
     rsrc_current_template_id := Some 6; rsrc_replaces := Some 11;
     rsrc_requires := []; rsrc_needed_by := [] |}.

Definition quiet_env : Worker.Env :=
  {| Worker.check_raises := None; Worker.retrigger_raises := None |}.

End Fixtures.

(* ================================================================== *)
(** ** Sample task groups *)

Module SchedFixtures.

Import Dependencies Scheduler.
Open Scope string_scope.
Open Scope list_scope.

(** [C] requires [B], which requires [A]. *)
Definition chain : Dependencies :=
  {| dep_edges := [("C", Some "B"); ("B", Some "A")] |}.

(** [D] requires [B1] and [B2], which both require [A]. *)
Definition diamond : Dependencies :=
  {| dep_edges := [("D", Some "B1"); ("D", Some "B2");
                   ("B1", Some "A"); ("B2", Some "A")] |}.

(** The edges of [test_circular_deps]. *)
Definition circular_edges : list Edge :=
  [("first", Some "second"); ("second", Some "third");
   ("third", Some "first")].

(** [A] and [B] free-standing, [C] requires [A]. *)
Definition fork : Dependencies :=
  {| dep_edges := [("A", None); ("B", None); ("C", Some "A")] |}.

Definition e1 : exn := TaskError 1.
Definition e2 : exn := TaskError 2.

(** A group whose clock advances by one second per round. *)
Definition group (d : Dependencies) (tk : node -> list outcome)
           (aggr : bool) (wait : option Z)
           (order : list node -> list node) : Config :=
  {| deps := d; reverse := false; task := tk;
     aggregate_exceptions := aggr;
     error_wait_time := fun _ => wait; dict_order := order;
     wallclock := fun r => Z.of_nat r |}.

(** [DummyTask]: three steps for every node. *)
Definition dummy (_ : node) : list outcome := ok_steps 3.

Definition two_steps (_ : node) : list outcome := ok_steps 2.

(** Step 2 of [A] raises [e1]. *)
Definition a_fails (n : node) : list outcome :=
  if String.eqb n "A" then raises_at 2 e1 else ok_steps 3.

(** Step 1 of [A] raises [e1]; step 2 of [B] raises [e2]. *)
Definition a_b_fail (n : node) : list outcome :=
  if String.eqb n "A" then raises_at 1 e1
  else if String.eqb n "B" then raises_at 2 e2
  else ok_steps 3.

Definition as_given (l : list node) : list node := l.

Definition chain_group : Config := group chain dummy false None as_given.

Definition diamond_group (order : list node -> list node) : Config :=
  group diamond two_steps false None order.

Definition aggregate_group : Config :=
  group chain a_fails true None as_given.

Definition grace_group : Config :=
  group fork a_fails false (Some 5%Z) as_given.

(** Five steps for [B], no grace beyond the second of the failure, and a
    clock that moves on after three rounds. *)
Definition a_fails_b_long (n : node) : list outcome :=
  if String.eqb n "A" then raises_at 2 e1 else ok_steps 5.

Definition expired_group : Config :=
  {| deps := fork; reverse := false; task := a_fails_b_long;
     aggregate_exceptions := false;
     error_wait_time := fun _ => Some 0%Z; dict_order := as_given;
     wallclock := fun r => Z.of_nat (r / 3) |}.

(** The same group traversed in the reverse direction. *)
Definition reversed_group (cfg : Config) : Config :=
  {| deps := deps cfg; reverse := true; task := task cfg;
     aggregate_exceptions := aggregate_exceptions cfg;
     error_wait_time := error_wait_time cfg; dict_order := dict_order cfg;
     wallclock := wallclock cfg |}.

(** The chain of [test_chain_fwd] with [reverse=True]. *)
Definition reverse_chain_group : Config := reversed_group chain_group.

(** Step 1 of [C] raises [e1], as in
    [test_aggregate_exceptions_cancels_tasks_in_reverse_order]. *)
Definition c_fails (n : node) : list outcome :=
  if String.eqb n "C" then raises_at 1 e1 else ok_steps 3.

(** Step 1 of [B] raises [e1]. *)
Definition b_fails (n : node) : list outcome :=
  if String.eqb n "B" then raises_at 1 e1 else ok_steps 3.

Definition reverse_aggregate_group (tk : node -> list outcome) : Config :=
  reversed_group (group chain tk true None as_given).

(** [test_exception_grace_period] with [aggregate_exceptions=True]. *)
Definition aggregate_grace_group : Config :=
  group fork a_fails true (Some 5%Z) as_given.

(** [test_exception_grace_period_expired] with
    [aggregate_exceptions=True]. *)
Definition aggregate_expired_group : Config :=
  {| deps := fork; reverse := false; task := a_fails_b_long;
     aggregate_exceptions := true;
     error_wait_time := fun _ => Some 0%Z; dict_order := as_given;
     wallclock := fun r => Z.of_nat (r / 3) |}.

(** A group as it is constructed over the nodes [order]. *)
Definition fresh (order : list node) : TaskGroup :=
  {| topo := order; stat := fun _ => Waiting; trace := []; raised := [];
     rounds := O |}.

End SchedFixtures.
(* ================================================================== *)
(** * Properties *)

Unset Implicit Arguments.

Module StackProps.

Import StackEngine.
Open Scope string_scope.
Open Scope list_scope.

Lemma opt_str_eqb_false a b : a <> b -> opt_str_eqb a b = false.
Proof.
  destruct a, b; simpl; intros H; try reflexivity; try congruence.
  apply String.eqb_neq. congruence.
Qed.

Lemma opt_str_eqb_refl a : opt_str_eqb a a = true.
Proof. destruct a; simpl; [apply String.eqb_refl | reflexivity]. Qed.

Lemma opt_str_eqb_eq a b : opt_str_eqb a b = true -> a = b.
Proof.
  destruct a, b; simpl; intros H; try discriminate; try reflexivity.
  apply String.eqb_eq in H. congruence.
Qed.

Lemma lookup_replace_same sid r' tb r :
  lookup_row sid tb = Some r ->
  lookup_row sid (replace_row sid r' tb) = Some r'.
Proof.
  induction tb as [| [k r0] tb IH]; simpl; [discriminate |].
  destruct (String.eqb k sid) eqn:E; simpl; rewrite E; auto.
Qed.

Lemma bind_apply {A B} (m : M A) (k : A -> M B) st :
  bind m k st =
  match m st with
  | (Ok a, st') => k a st'
  | (Raise e, st') => (Raise e, st')
  end.
Proof. reflexivity. Qed.

(** What [store] writes for the traversal, the action and the status. *)
Lemma store_values_row r s b raw :
  let r' := update_row r (store_values s b raw) in
  row_current_traversal r' = current_traversal s
  /\ row_action r' = action s
  /\ row_status r' = status s
  /\ row_current_deps r' = current_deps s.
Proof. destruct r. cbn. auto. Qed.

Ltac msimpl :=
  cbv beta iota zeta delta
      [bind ret raise get_self get_world modify_self modify_world emit
       generate_uuid fresh_id];
  cbn [negb andb orb truthy fst snd self world trace stacks uuid_next uuid_src next_id now convg identity
       set_trace set_stacks set_uuid_next set_next_id
       id action status status_reason convergence current_traversal
       prev_raw_template_id t current_deps owner_id user_creds_id tags
       set_id set_action set_status set_status_reason set_current_traversal
       set_prev_raw_template_id set_t set_current_deps set_user_creds_id
       set_rollback_timeout_tags set_updated_time set_created_time tmpl_id
       stack_user_project_id].

Lemma store_existing st exp_arg sid r :
  id (self st) = Some sid -> (sid =? "") = false ->
  convergence (self st) = true ->
  lookup_row sid (stacks (world st)) = Some r ->
  let out := store false exp_arg false st in
  let e := match exp_arg with
           | None => current_traversal (self st)
           | Some x => Some x
           end in
  let ok := traversal_matches e r in
  exists pre vs post,
    fst out = Ok (if ok then Some sid else None)
    /\ trace (world (snd out)) =
       trace (world st) ++ pre ++ [EvStackUpdate sid vs e ok] ++ post
    /\ forallb quiet pre = true
    /\ forallb quiet post = true
    /\ (ok = false -> post = [])
    /\ vs = store_values (self (snd out)) false
                         (tmpl_id (t (self (snd out))))
    /\ stacks (world (snd out)) =
       (if ok then replace_row sid (update_row r vs) (stacks (world st))
        else stacks (world st))
    /\ same_but_t (self st) (self (snd out))
    /\ uuid_next (world (snd out)) = uuid_next (world st)
    /\ uuid_src (world (snd out)) = uuid_src (world st)
    /\ convg (world (snd out)) = convg (world st)
    /\ identity (world (snd out)) = identity (world st).
Proof.
  intros Hid Hne Hc Hl out e ok.
  subst out. unfold store, select_and_update, store_finish, update_by_id.
  destruct (tmpl_id (t (self st))) as [tid |] eqn:Et.
  - msimpl. rewrite Et. msimpl. rewrite Hid. msimpl. rewrite Hne. msimpl.
    rewrite Hc. msimpl. rewrite Hl. fold e. fold ok.
    destruct ok eqn:Eok; msimpl.
    + rewrite ?Hid. destruct (tags (self st)) eqn:Etg; msimpl.
      * exists [], (store_values (self st) false (Some tid)),
               [EvSetParamStackId].
        rewrite Et. unfold same_but_t.
        repeat split; try reflexivity; try discriminate;
          try (cbn [app]; rewrite <- ?app_assoc; reflexivity);
          try (rewrite Hid; reflexivity).
      * exists [], (store_values (self st) false (Some tid)),
               [EvTagsSet (Some sid) (tags (self st)); EvSetParamStackId].
        rewrite Et, Etg. unfold same_but_t.
        repeat split; try reflexivity; try discriminate;
          try (cbn [app]; rewrite <- ?app_assoc; reflexivity);
          try (rewrite Hid; reflexivity).
    + exists [], (store_values (self st) false (Some tid)), [].
      rewrite Et. unfold same_but_t.
      repeat split; reflexivity.
  - msimpl. rewrite Et. msimpl. rewrite Hid. msimpl. rewrite Hne. msimpl.
    rewrite Hc. msimpl. rewrite Hl. fold e. fold ok.
    destruct ok eqn:Eok; msimpl.
    + rewrite ?Hid. destruct (tags (self st)) eqn:Etg; msimpl.
      * exists [EvTemplateStore (next_id (world st))],
               (store_values (set_t {| tmpl_id := Some (next_id (world st)) |} (self st)) false (Some (next_id (world st)))),
               [EvSetParamStackId].
        unfold same_but_t.
        repeat split; try reflexivity; try discriminate;
          try (cbn [app]; rewrite <- ?app_assoc; reflexivity);
          try (rewrite Hid; reflexivity).
      * exists [EvTemplateStore (next_id (world st))],
               (store_values (set_t {| tmpl_id := Some (next_id (world st)) |} (self st)) false (Some (next_id (world st)))),
               [EvTagsSet (Some sid) (tags (self st)); EvSetParamStackId].
        rewrite Etg. unfold same_but_t.
        repeat split; try reflexivity; try discriminate;
          try (cbn [app]; rewrite <- ?app_assoc; reflexivity);
          try (rewrite Hid; reflexivity).
    + exists [EvTemplateStore (next_id (world st))],
             (store_values (set_t {| tmpl_id := Some (next_id (world st)) |} (self st)) false (Some (next_id (world st)))), [].
      unfold same_but_t.
      repeat split; try reflexivity;
        try (cbn [app]; rewrite <- ?app_assoc; reflexivity);
          try (rewrite Hid; reflexivity).
Qed.

(** *** The trace only grows *)

Lemma extends_ret {A} (a : A) : extends (ret a).
Proof. intros st. exists []. cbn. now rewrite app_nil_r. Qed.

Lemma extends_raise {A} (e : exn) : extends (@raise A e).
Proof. intros st. exists []. cbn. now rewrite app_nil_r. Qed.

Lemma extends_get_self : extends get_self.
Proof. intros st. exists []. cbn. now rewrite app_nil_r. Qed.

Lemma extends_get_world : extends get_world.
Proof. intros st. exists []. cbn. now rewrite app_nil_r. Qed.

Lemma extends_modify_self f : extends (modify_self f).
Proof. intros st. exists []. cbn. now rewrite app_nil_r. Qed.

Lemma extends_modify_world f :
  (forall w, trace (f w) = trace w) -> extends (modify_world f).
Proof. intros H st. exists []. cbn. rewrite H. now rewrite app_nil_r. Qed.

Lemma extends_emit e : extends (emit e).
Proof. intros st. exists [e]. reflexivity. Qed.

Lemma extends_bind {A B} (m : M A) (k : A -> M B) :
  extends m -> (forall a, extends (k a)) -> extends (bind m k).
Proof.
  intros Hm Hk st. unfold bind.
  destruct (Hm st) as [e1 H1].
  destruct (m st) as [[a | x] st1]; cbn [snd] in *.
  - destruct (Hk a st1) as [e2 H2]. exists (e1 ++ e2).
    rewrite H2, H1. now rewrite app_assoc.
  - exists e1. exact H1.
Qed.

Lemma extends_try_except_NotFound m :
  extends m -> extends (try_except_NotFound m).
Proof.
  intros Hm st. unfold try_except_NotFound.
  destruct (Hm st) as [e1 H1].
  destruct (m st) as [[a | x] st1]; cbn [snd] in *.
  - exists e1. exact H1.
  - destruct x; exists e1; exact H1.
Qed.

Lemma extends_try_except_NotFound_with {A} (m : M A) handler :
  extends m -> extends handler -> extends (try_except_NotFound_with m handler).
Proof.
  intros Hm Hh st. unfold try_except_NotFound_with.
  destruct (Hm st) as [e1 H1].
  destruct (m st) as [[a | x] st1]; cbn [snd] in *.
  - exists e1. exact H1.
  - destruct x; try (exists e1; exact H1).
    destruct (Hh st1) as [e2 H2]. exists (e1 ++ e2).
    rewrite H2, H1. now rewrite app_assoc.
Qed.

Lemma extends_for_each {A} (l : list A) body :
  (forall a, extends (body a)) -> extends (for_each l body).
Proof.
  intros Hb. induction l as [| a l IH]; cbn [for_each].
  - apply extends_ret.
  - apply extends_bind; [apply Hb | intros _; exact IH].
Qed.

Create HintDb heat_ext.
#[local] Hint Resolve extends_ret extends_raise extends_get_self
  extends_get_world extends_modify_self extends_emit : heat_ext.

Ltac ext_step :=
  cbv zeta;
  first
    [ solve [auto with heat_ext nocore]
    | apply extends_ret | apply extends_raise | apply extends_get_self
    | apply extends_get_world | apply extends_modify_self
    | apply extends_emit
    | apply extends_modify_world; intros; reflexivity
    | apply extends_for_each; intros ?
    | apply extends_try_except_NotFound
    | apply extends_try_except_NotFound_with
    | apply extends_bind; [| intros ?]
    | match goal with
      | |- extends (if ?c then _ else _) => destruct c
      | |- extends (match ?x with _ => _ end) => destruct x
      end ].

Ltac ext := repeat ext_step.

Lemma extends_generate_uuid : extends generate_uuid.
Proof. unfold generate_uuid. ext. Qed.
#[local] Hint Resolve extends_generate_uuid : heat_ext.

Lemma extends_fresh_id : extends fresh_id.
Proof. unfold fresh_id. ext. Qed.
#[local] Hint Resolve extends_fresh_id : heat_ext.

Lemma extends_select_and_update sid vs e :
  extends (select_and_update sid vs e).
Proof. unfold select_and_update. ext. Qed.
#[local] Hint Resolve extends_select_and_update : heat_ext.

Lemma extends_stack_create vs : extends (stack_create vs).
Proof. unfold stack_create. ext. Qed.
#[local] Hint Resolve extends_stack_create : heat_ext.

Lemma extends_stack_delete sid : extends (stack_delete sid).
Proof. unfold stack_delete. ext. Qed.
#[local] Hint Resolve extends_stack_delete : heat_ext.

Lemma extends_store b e i : extends (store b e i).
Proof. unfold store, store_finish, update_by_id, get_by_id. ext. Qed.
#[local] Hint Resolve extends_store : heat_ext.

Lemma extends_persist_state : extends _persist_state.
Proof.
  unfold _persist_state, _send_notification_and_add_event, get_by_id. ext.
Qed.
#[local] Hint Resolve extends_persist_state : heat_ext.

Lemma extends_state_set a s r : extends (state_set a s r).
Proof. unfold state_set. ext. Qed.
#[local] Hint Resolve extends_state_set : heat_ext.

Lemma extends_delete_credentials st0 r a :
  extends (_delete_credentials st0 r a).
Proof. unfold _delete_credentials, _try_get_user_creds. ext. Qed.
#[local] Hint Resolve extends_delete_credentials : heat_ext.

Lemma extends_purge_db : extends purge_db.
Proof. unfold purge_db. ext. Qed.
#[local] Hint Resolve extends_purge_db : heat_ext.

Lemma extends_mark_complete : extends mark_complete.
Proof. unfold mark_complete. ext. Qed.
#[local] Hint Resolve extends_mark_complete : heat_ext.

Lemma extends_converge_create_or_update : extends _converge_create_or_update.
Proof. unfold _converge_create_or_update. ext. Qed.
#[local] Hint Resolve extends_converge_create_or_update : heat_ext.

Ltac split_if :=
  match goal with
  | |- context [if ?c then _ else _] =>
      lazymatch c with
      | context [if _ then _ else _] => fail
      | context [match _ with _ => _ end] => fail
      | _ => destruct c eqn:?
      end
  end.

Ltac mred :=
  cbn [get_self get_world modify_self modify_world emit ret raise
       negb andb orb fst snd self world trace stacks uuid_next uuid_src
       next_id now convg identity
       set_trace set_stacks set_uuid_next set_next_id
       id action status status_reason convergence current_traversal
       prev_raw_template_id t current_deps owner_id user_creds_id tags
       set_id set_action set_status set_status_reason set_current_traversal
       set_prev_raw_template_id set_t set_current_deps set_user_creds_id
       set_rollback_timeout_tags set_updated_time set_created_time tmpl_id
       stack_user_project_id
       ns_tags ns_disable_rollback ns_timeout_mins].

Ltac mstep := rewrite bind_apply; mred.
Ltac mrun := repeat (progress (rewrite ?bind_apply; mred)).

Ltac mred_in H :=
  cbn [get_self get_world modify_self modify_world emit ret raise
       negb andb orb fst snd self world trace stacks uuid_next uuid_src
       next_id now convg identity
       set_trace set_stacks set_uuid_next set_next_id
       id action status status_reason convergence current_traversal
       prev_raw_template_id t current_deps owner_id user_creds_id tags
       set_id set_action set_status set_status_reason set_current_traversal
       set_prev_raw_template_id set_t set_current_deps set_user_creds_id
       set_rollback_timeout_tags set_updated_time set_created_time tmpl_id
       stack_user_project_id
       ns_tags ns_disable_rollback ns_timeout_mins] in H.



Lemma store_values_traversal s b raw :
  In (FCurrentTraversal (current_traversal s)) (store_values s b raw).
Proof. cbn. tauto. Qed.

Lemma extends_converge_tail (prev : option string) :
  extends (_send_notification_and_add_event ;;
           s2 <- get_self ;;
           (if truthy prev
            then emit (EvSyncPointDeleteAll (id s2) prev)
            else ret tt) ;;
           _converge_create_or_update).
Proof. unfold _send_notification_and_add_event. ext. Qed.

(** The part of [converge_stack] from the store on, started in any state
    of a persisted convergence stack. *)
Lemma converge_store_and_tail (st1 : State) (sid prev : string) (r : StackRow) :
  id (self st1) = Some sid -> (sid =? "") = false ->
  convergence (self st1) = true ->
  lookup_row sid (stacks (world st1)) = Some r ->
  let out :=
    (stack_id <- store false (Some prev) false ;;
     match stack_id with
     | None => emit (EvWarning "Failed to store stack, aborting stack action")
     | Some _ =>
         _send_notification_and_add_event ;;
         s2 <- get_self ;;
         (if truthy (Some prev)
          then emit (EvSyncPointDeleteAll (id s2) (Some prev))
          else ret tt) ;;
         _converge_create_or_update
     end) st1 in
  let won := opt_str_eqb (row_current_traversal r) (Some prev) in
  exists pre vs post,
    trace (world (snd out)) =
    trace (world st1) ++ pre ++ [EvStackUpdate sid vs (Some prev) won] ++ post
    /\ forallb quiet pre = true
    /\ In (FCurrentTraversal (current_traversal (self st1))) vs
    /\ row_current_traversal (update_row r vs) = current_traversal (self st1)
    /\ (won = false ->
        fst out = Ok tt
        /\ stacks (world (snd out)) = stacks (world st1)
        /\ post = [EvWarning "Failed to store stack, aborting stack action"]).
Proof.
  intros Hid Hne Hc Hl out won. subst out.
  destruct (@store_existing st1 (Some prev) sid r Hid Hne Hc Hl)
    as (pre & vs & post & Hres & Htr & Hq1 & Hq2 & Hpost & Hvs & Hstk
        & Hsame & _).
  cbv zeta in *.
  change (traversal_matches (Some prev) r) with won in *.
  rewrite bind_apply.
  destruct (store false (Some prev) false st1) as [res st2].
  cbn [fst snd] in *. subst res.
  assert (Hin : In (FCurrentTraversal (current_traversal (self st1))) vs).
  { destruct Hsame as (_ & _ & _ & _ & _ & Hs & _). rewrite <- Hs, Hvs.
    apply store_values_traversal. }
  assert (Hrow : row_current_traversal (update_row r vs)
                 = current_traversal (self st1)).
  { destruct Hsame as (_ & _ & _ & _ & _ & Hs & _). rewrite <- Hs, Hvs.
    apply store_values_row. }
  destruct won eqn:Ew.
  - destruct (extends_converge_tail (Some prev) st2) as [evs Hevs].
    exists pre, vs, (post ++ evs). repeat split; auto; try discriminate.
    rewrite Hevs, Htr. rewrite <- !app_assoc. reflexivity.
  - rewrite (Hpost eq_refl) in *.
    exists pre, vs, [EvWarning "Failed to store stack, aborting stack action"].
    repeat split; auto.
    + cbn. rewrite Htr. rewrite <- !app_assoc. reflexivity.
Qed.

(** The first write of [converge_stack] to the stack table. *)
Lemma converge_stack_first_store
  (template : Template) (act : string) (new_stack : option NewStack)
  (st : State) (sid prev : string) (r : StackRow) :
  id (self st) = Some sid -> sid <> "" ->
  convergence (self st) = true ->
  current_traversal (self st) = Some prev ->
  lookup_row sid (stacks (world st)) = Some r ->
  let fresh := uuid_src (world st) (uuid_next (world st)) in
  let out := converge_stack template act new_stack st in
  let won := opt_str_eqb (row_current_traversal r) (Some prev) in
  exists pre vs post,
    trace (world (snd out)) =
    trace (world st) ++ pre ++ [EvStackUpdate sid vs (Some prev) won] ++ post
    /\ forallb quiet pre = true
    /\ In (FCurrentTraversal (Some fresh)) vs
    /\ row_current_traversal (update_row r vs) = Some fresh
    /\ (won = false ->
        fst out = Ok tt
        /\ stacks (world (snd out)) = stacks (world st)
        /\ post = [EvWarning "Failed to store stack, aborting stack action"]).
Proof.
  intros Hid Hne Hc Ht Hl fresh out won.
  apply String.eqb_neq in Hne.
  subst out. unfold converge_stack, generate_uuid.
  mstep.
  destruct (negb (str_in act [CREATE; ADOPT]));
  destruct (negb (act =? CREATE));
  destruct new_stack as [[dr tm [| tg tgs]] |].
  all: repeat mstep.
  all: rewrite ?Ht.
  all: match goal with
       | |- context [store false (Some ?p) false ?S] =>
           destruct (@converge_store_and_tail S sid p r Hid Hne Hc Hl)
             as (pre & vs & post & Htr & Hq & Hin & Hrow & Hlost)
       end.
  all: cbv zeta in Htr, Hlost; cbn [self world trace set_trace set_uuid_next
         current_traversal set_current_traversal stacks]
         in Htr, Hin, Hrow, Hlost;
       fold won in Htr, Hlost.
  all: rewrite bind_apply in Htr, Hlost.
  all: match type of Htr with
       | _ = ?T ++ _ ++ _ =>
           assert (Hp : exists prol,
                      T = trace (world st) ++ prol
                      /\ forallb quiet prol = true)
             by (first
                   [ exists []; split;
                     [symmetry; apply app_nil_r | reflexivity]
                   | eexists; split;
                     [rewrite <- ?app_assoc; reflexivity | reflexivity] ])
       end.
  all: destruct Hp as (prol & Hp1 & Hp2).
  all: exists (prol ++ pre), vs, post; split; [| split; [| split; [| split]]].
  all: try exact Hin; try exact Hlost; try exact Hrow.
  all: try (rewrite forallb_app, Hp2, Hq; reflexivity).
  all: rewrite Htr; rewrite Hp1 at 1; rewrite <- !app_assoc; reflexivity.
Qed.

(** C1. [converge_stack] on a persisted convergence stack generates a
    fresh traversal ID and stores the stack by one compare-and-swap whose
    expected value is the previous traversal ID and whose values carry the
    fresh one; nothing is written to the stack table and no convergence work
    is done before it.  If the swap is lost (the stored traversal is no
    longer the previous one) the call returns normally, the stack table is
    unchanged and the only further call is the warning: no sync point is
    created and no resource check is dispatched. *)
Theorem converge_stack_cas_abort
  (template : Template) (act : string) (new_stack : option NewStack)
  (st : State) (sid prev : string) (r : StackRow) :
  id (self st) = Some sid -> sid <> "" ->
  convergence (self st) = true ->
  current_traversal (self st) = Some prev ->
  lookup_row sid (stacks (world st)) = Some r ->
  let fresh := uuid_src (world st) (uuid_next (world st)) in
  let out := converge_stack template act new_stack st in
  let won := opt_str_eqb (row_current_traversal r) (Some prev) in
  exists pre vs post,
    trace (world (snd out)) =
    trace (world st) ++ pre ++ [EvStackUpdate sid vs (Some prev) won] ++ post
    /\ forallb quiet pre = true
    /\ In (FCurrentTraversal (Some fresh)) vs
    /\ (row_current_traversal r <> Some prev ->
        won = false
        /\ fst out = Ok tt
        /\ stacks (world (snd out)) = stacks (world st)
        /\ post = [EvWarning "Failed to store stack, aborting stack action"]
        /\ forallb (fun e => negb (convergence_work e)) (pre ++ post) = true).
Proof.
  intros Hid Hne Hc Ht Hl fresh out won.
  destruct (@converge_stack_first_store template act new_stack st sid prev r
              Hid Hne Hc Ht Hl)
    as (pre & vs & post & Htr & Hq & Hin & _ & Hlost).
  exists pre, vs, post. repeat split; auto.
  - apply opt_str_eqb_false. exact H.
  - apply Hlost. apply opt_str_eqb_false. exact H.
  - apply Hlost. apply opt_str_eqb_false. exact H.
  - apply Hlost. apply opt_str_eqb_false. exact H.
  - destruct Hlost as (_ & _ & Hp); [apply opt_str_eqb_false; exact H |].
    rewrite Hp, forallb_app. cbn [forallb convergence_work negb andb].
    rewrite andb_true_r.
    clear - Hq. induction pre as [| e pre IH]; [reflexivity |].
    cbn [forallb] in *. apply andb_true_iff in Hq. destruct Hq as [H1 H2].
    rewrite (IH H2), andb_true_r. unfold quiet in H1.
    destruct (convergence_work e); [discriminate | reflexivity].
Qed.

Lemma persisted_actions_valid act :
  str_in act [UPDATE; DELETE; CREATE; ADOPT; ROLLBACK] = true ->
  str_in act ACTIONS = true.
Proof.
  unfold str_in. cbn [existsb]. intros H.
  repeat (apply orb_true_iff in H; destruct H as [H | H]);
    try discriminate; apply String.eqb_eq in H; subst act; reflexivity.
Qed.

Lemma update_row_keeps_traversal r a s sr :
  row_current_traversal (update_row r [FAction a; FStatus s; FStatusReason sr])
  = row_current_traversal r.
Proof. destruct r. reflexivity. Qed.

Lemma state_set_persisted (st : State) (sid prev : string) (r : StackRow)
      (act sts reason : string) :
  id (self st) = Some sid ->
  convergence (self st) = true ->
  current_traversal (self st) = Some prev ->
  lookup_row sid (stacks (world st)) = Some r ->
  row_current_traversal r = Some prev ->
  str_in act [UPDATE; DELETE; CREATE; ADOPT; ROLLBACK] = true ->
  str_in sts STATUSES = true ->
  let failed := String.eqb sts FAILED in
  let vs := [FAction (Some act); FStatus (Some sts); FStatusReason reason]
            ++ (if failed then [FCurrentTraversal (Some "")] else []) in
  exists st1 evs,
    state_set act sts reason st = (Ok (Some true), st1)
    /\ self st1 =
       (if failed then set_current_traversal (Some "") else fun s => s)
         (set_status_reason reason
            (set_status (Some sts) (set_action (Some act) (self st))))
    /\ stacks (world st1) = replace_row sid (update_row r vs) (stacks (world st))
    /\ trace (world st1) = trace (world st) ++ evs
    /\ uuid_next (world st1) = uuid_next (world st)
    /\ uuid_src (world st1) = uuid_src (world st)
    /\ convg (world st1) = convg (world st)
    /\ identity (world st1) = identity (world st).
Proof.
  intros Hid Hc Ht Hl Hr Ha Hs failed vs.
  unfold state_set. rewrite (persisted_actions_valid _ Ha), Hs. cbn [negb].
  repeat mstep. rewrite Hc, Ha. cbn [andb].
  unfold _persist_state, get_by_id, _send_notification_and_add_event,
    select_and_update.
  repeat mstep. rewrite Hid. repeat mstep. rewrite Hl. repeat mstep.
  rewrite Hc. repeat mstep.
  cbn [opt_str_eqb]. fold failed.
  assert (Hm : traversal_matches (Some prev) r = true).
  { unfold traversal_matches. rewrite Hr. apply opt_str_eqb_refl. }
  subst vs.
  destruct failed; mrun; rewrite Hl, Ht, Hm; mrun;
    cbn [is_true]; mrun;
    eexists; eexists; repeat split; try reflexivity;
    cbn [trace world set_trace set_stacks]; rewrite <- !app_assoc; reflexivity.
Qed.

Lemma mark_complete_keeps_traversal (st : State) (sid prev : string)
      (r : StackRow) (act : string) :
  id (self st) = Some sid -> sid <> "" ->
  convergence (self st) = true ->
  current_traversal (self st) = Some prev ->
  lookup_row sid (stacks (world st)) = Some r ->
  row_current_traversal r = Some prev ->
  action (self st) = Some act ->
  str_in act [UPDATE; CREATE; ADOPT; ROLLBACK] = true ->
  let out := mark_complete st in
  fst out = Ok tt
  /\ current_traversal (self (snd out)) = Some prev
  /\ exists r',
      lookup_row sid (stacks (world (snd out))) = Some r'
      /\ row_current_traversal r' = Some prev
      /\ row_status r' = Some COMPLETE
      /\ row_action r' = Some act.
Proof.
  intros Hid Hne Hc Ht Hl Hr Hact Ha out. subst out.
  apply String.eqb_neq in Hne.
  assert (Ha' : str_in act [UPDATE; DELETE; CREATE; ADOPT; ROLLBACK] = true).
  { unfold str_in in *. cbn [existsb] in *.
    repeat (apply orb_true_iff in Ha; destruct Ha as [Ha | Ha]);
      try discriminate; rewrite Ha; rewrite ?orb_true_r; reflexivity. }
  assert (Hnd : String.eqb act DELETE = false).
  { unfold str_in in Ha. cbn [existsb] in Ha.
    repeat (apply orb_true_iff in Ha; destruct Ha as [Ha | Ha]);
      try discriminate; apply String.eqb_eq in Ha; subst act; reflexivity. }
  unfold mark_complete. mrun. rewrite Hact.
  match goal with
  | |- context [state_set act COMPLETE ?R ?S] =>
      destruct (@state_set_persisted S sid prev r act COMPLETE R
                  Hid Hc Ht Hl Hr Ha' eq_refl)
        as (st1 & evs & Hset & Hself & Hstk & Htr & _)
  end.
  cbn [String.eqb Ascii.eqb Bool.eqb COMPLETE FAILED] in Hself, Hstk.
  mred_in Hself. mred_in Hstk.
  rewrite Hset. cbn [is_true].
  unfold purge_db. mrun. rewrite !Hself. mred.
  cbn [opt_str_eqb String.eqb Ascii.eqb Bool.eqb COMPLETE FAILED negb].
  set (r1 := update_row r
               ([FAction (Some act); FStatus (Some COMPLETE);
                 FStatusReason
                   ("Stack " ++ act ++ " completed successfully")%string]
                ++ [])) in *.
  assert (Hl1 : lookup_row sid (stacks (world st1)) = Some r1).
  { rewrite Hstk. eapply lookup_replace_same. exact Hl. }
  assert (Hm1 : traversal_matches (Some prev) r1 = true).
  { unfold traversal_matches, r1. cbn [app].
    rewrite update_row_keeps_traversal, Hr. apply opt_str_eqb_refl. }
  destruct (prev_raw_template_id (self st)) as [p |]; mrun.
  all: match goal with
       | |- context [store false None false ?S] =>
           destruct (@store_existing S None sid r1 Hid Hne Hc Hl1)
             as (pre & vs & post & Hres & _ & _ & _ & _ & Hvs & Hstk2
                 & Hsame & _);
           cbv zeta in Hres, Hstk2; mred_in Hres; mred_in Hstk2;
           mred_in Hsame;
           rewrite Ht, Hm1 in Hres; rewrite Ht, Hm1 in Hstk2;
           destruct (store false None false S) as [res st3]
       end.
  all: cbn [fst snd] in *; subst res.
  all: destruct Hsame as (Hs1 & Hs2 & Hs3 & _ & _ & Hs6 & _).
  all: mred_in Hs1; mred_in Hs2; mred_in Hs3; mred_in Hs6.
  all: mrun; rewrite Hs2, Hs3; cbn [opt_str_eqb]; rewrite Hnd; cbn [andb];
       mrun.
  all: split; [reflexivity |]; split; [rewrite Hs6; exact Ht |].
  all: exists (update_row r1 vs); rewrite Hstk2; split;
       [eapply lookup_replace_same; exact Hl1 |].
  all: rewrite Hvs;
       destruct (store_values_row r1 (self st3) false (tmpl_id (t (self st3))))
         as (Hv1 & Hv2 & Hv3 & _).
  all: cbv zeta in Hv1, Hv2, Hv3; rewrite Hv1, Hv2, Hv3, Hs6, Hs2, Hs3.
  all: auto.
Qed.

(** *** Deleting a stack to completion *)

Lemma replace_row_keys sid r tb :
  map fst (replace_row sid r tb) = map fst tb.
Proof.
  induction tb as [| [k r0] tb IH]; [reflexivity |].
  cbn [replace_row]. destruct (String.eqb k sid); cbn [map fst].
  - reflexivity.
  - rewrite IH. reflexivity.
Qed.

Lemma lookup_row_none sid tb :
  ~ In sid (map fst tb) -> lookup_row sid tb = None.
Proof.
  induction tb as [| [k r0] tb IH]; intros Hn; [reflexivity |].
  cbn [lookup_row]. destruct (String.eqb k sid) eqn:E.
  - apply String.eqb_eq in E. subst k. exfalso. apply Hn. left. reflexivity.
  - apply IH. intros H. apply Hn. right. exact H.
Qed.

Lemma lookup_delete_row sid tb :
  NoDup (map fst tb) -> lookup_row sid (delete_row sid tb) = None.
Proof.
  induction tb as [| [k r0] tb IH]; intros Hnd; [reflexivity |].
  cbn [map fst] in Hnd. inversion Hnd as [| x l Hx Hl]; subst.
  cbn [delete_row]. destruct (String.eqb k sid) eqn:E.
  - apply String.eqb_eq in E. subst k. apply lookup_row_none. exact Hx.
  - cbn [lookup_row]. rewrite E. apply IH. exact Hl.
Qed.


Lemma store_current sid prev keys st :
  sid <> "" -> current sid prev keys st ->
  exists st',
    store false None false st = (Ok (Some sid), st')
    /\ current sid prev keys st'
    /\ same_but_t (self st) (self st')
    /\ identity (world st') = identity (world st).
Proof.
  intros Hne (Hid & Hc & Ht & Hk & r & Hl & Hr).
  apply String.eqb_neq in Hne.
  destruct (@store_existing st None sid r Hid Hne Hc Hl)
    as (pre & vs & post & Hres & _ & _ & _ & _ & Hvs & Hstk & Hsame & _ & _
        & _ & Hi).
  cbv zeta in *.
  assert (Hm : traversal_matches (current_traversal (self st)) r = true).
  { rewrite Ht. unfold traversal_matches. rewrite Hr. apply opt_str_eqb_refl. }
  rewrite Hm in *.
  destruct (store false None false st) as [res st']. cbn [fst snd] in *.
  subst res. exists st'. split; [reflexivity |].
  pose proof Hsame as (S1 & S2 & S3 & S4 & S5 & S6 & _).
  split; [| split; [exact Hsame | exact Hi]].
  unfold current. rewrite S1, S5, S6, Hstk, replace_row_keys.
  repeat (split; [assumption |]).
  exists (update_row r vs). split; [eapply lookup_replace_same; exact Hl |].
  rewrite Hvs.
  destruct (store_values_row r (self st') false (tmpl_id (t (self st'))))
    as (Hv1 & _).
  cbv zeta in Hv1. rewrite Hv1, S6. exact Ht.
Qed.



Section Current.

Variables (sid prev : string) (keys : list string).
Variables (act0 sts0 own0 : option string) (idn : Identity).
Hypothesis Hne : sid <> "".

Local Abbreviation stdy := (steady sid prev keys act0 sts0 own0 idn).


Lemma steady_store :
  hoare stdy (store false None false)
        (fun res st => res = Some sid /\ stdy st).
Proof.
  intros st (Hc & Ha & Hs & Ho & Hi).
  destruct (store_current sid prev keys st Hne Hc)
    as (st' & E & Hc' & Hsame & Hi').
  exists (Some sid), st'. split; [exact E |]. split; [reflexivity |].
  destruct Hsame as (_ & S2 & S3 & _ & _ & _ & _ & _ & S9).
  unfold steady. rewrite S2, S3, S9, Hi'. auto.
Qed.

Lemma steady_explicit st s' w' :
  stdy st ->
  id s' = id (self st) -> convergence s' = convergence (self st) ->
  current_traversal s' = current_traversal (self st) ->
  action s' = action (self st) -> status s' = status (self st) ->
  owner_id s' = owner_id (self st) ->
  stacks w' = stacks (world st) -> identity w' = identity (world st) ->
  stdy {| self := s'; world := w' |}.
Proof.
  intros ((H1 & H2 & H3 & H4 & H5) & H6 & H7 & H8 & H9)
         E1 E2 E3 E4 E5 E6 E7 E8.
  unfold steady, current. cbn [self world].
  rewrite E1, E2, E3, E4, E5, E6, E7, E8. auto 10.
Qed.

Ltac steady_here H :=
  apply (steady_explicit _ _ _ H); reflexivity.

Lemma steady_delete_credentials stk reason :
  hoare stdy (_delete_credentials stk reason false)
        (fun sr st =>
           ((fst sr = stk \/ fst sr = Some FAILED)
            /\ (delete_trust_error idn = None ->
                delete_project_error idn = None -> sr = (stk, reason)))
           /\ stdy st).
Proof.
  intros st Hst. pose proof Hst as (_ & _ & _ & _ & Hi).
  unfold _delete_credentials, _try_get_user_creds. mrun. rewrite !Hi.
  assert (Htail : forall sr0 st1,
             ((fst sr0 = stk \/ fst sr0 = Some FAILED)
              /\ (delete_trust_error idn = None -> sr0 = (stk, reason))) ->
             stdy st1 ->
             exists sr st',
               (s2 <- get_self ;;
                if truthy (stack_user_project_id s2) && negb false then
                  emit (EvDeleteDomainProject (stack_user_project_id s2)) ;;
                  match delete_project_error idn with
                  | Some ex =>
                      emit (EvException "Error deleting project") ;;
                      ret (Some FAILED,
                           ("Error deleting project: " ++ ex)%string)
                  | None => ret sr0
                  end
                else ret sr0) st1 = (Ok sr, st')
               /\ ((fst sr = stk \/ fst sr = Some FAILED)
                   /\ (delete_trust_error idn = None ->
                       delete_project_error idn = None -> sr = (stk, reason)))
               /\ stdy st').
  { intros sr0 st1 (Hs1 & Hs2) H1. mrun.
    destruct (truthy (stack_user_project_id (self st1))); cbn [andb negb];
      [destruct (delete_project_error idn) |]; mrun;
      eexists; eexists; (split; [reflexivity |]); cbn [fst];
      (split; [split; [auto | intros; auto; discriminate] |]);
      try exact H1; steady_here H1. }
  destruct (truthyZ (user_creds_id (self st))).
  2: { mrun. apply Htail; [| exact Hst]. cbn [fst]. auto. }
  assert (Hstore : forall s' w',
             stdy {| self := s'; world := w' |} ->
             exists st1,
               try_except_NotFound_with
                 (modify_self (set_user_creds_id None) ;;
                  store false None false)
                 (emit (EvInfo "Tried to store a stack that does not exist"))
                 {| self := s'; world := w' |} = (Ok tt, st1)
               /\ stdy st1).
  { intros s' w' H1.
    unfold try_except_NotFound_with. rewrite bind_apply. mred.
    match goal with
    | |- context [store false None false ?S] =>
        assert (HS : stdy S) by (steady_here H1);
        destruct (steady_store S HS) as (res & st1 & E & _ & H2)
    end.
    rewrite E. exists st1. auto. }
  mrun. rewrite ?Hi.
  destruct (stored_creds idn) as [| | trust trustor]; mrun;
    [| | destruct (truthy trust);
         [destruct (negb (opt_str_eqb (context_user_id idn) trustor));
          destruct (delete_trust_error idn) eqn:Ete |]];
    mrun; destruct (user_creds_gone idn); mrun.
  all: match goal with
       | |- context [try_except_NotFound_with _ _
                       {| self := ?s'; world := ?w' |}] =>
           assert (HS : stdy {| self := s'; world := w' |})
             by (steady_here Hst);
           destruct (Hstore s' w' HS) as (st1 & E & H1);
           rewrite E; cbv beta iota; unfold ret at 1
       end.
  all: apply Htail; [| exact H1]; cbn [fst]; rewrite ?Ete;
    (split; [auto | intros; auto; discriminate]).
Qed.

End Current.


Lemma stack_delete_gone sid prev keys act0 sts0 own0 idn st :
  NoDup keys -> steady sid prev keys act0 sts0 own0 idn st ->
  exists st',
    try_except_NotFound (stack_delete sid) st = (Ok tt, st')
    /\ lookup_row sid (stacks (world st')) = None.
Proof.
  intros Hnd ((_ & _ & _ & Hk & r & Hl & _) & _).
  unfold try_except_NotFound, stack_delete. mrun. rewrite Hl. mrun.
  eexists. split; [reflexivity |]. mred.
  apply lookup_delete_row. rewrite Hk. exact Hnd.
Qed.

Lemma purge_db_delete sid prev keys own0 idn st :
  sid <> "" -> NoDup keys ->
  steady sid prev keys (Some DELETE) (Some COMPLETE) own0 idn st ->
  exists st',
    purge_db st = (Ok tt, st')
    /\ delete_outcome sid (stacks (world st'))
    /\ (truthy own0 = true ->
        lookup_row sid (stacks (world st')) = None)
    /\ (delete_trust_error idn = None -> delete_project_error idn = None ->
        lookup_row sid (stacks (world st')) = None).
Proof.
  intros Hne Hnd Hst. pose proof Hst as (_ & Ha & Hs & Ho & _).
  unfold purge_db. mrun. rewrite Hs.
  cbn [opt_str_eqb String.eqb Ascii.eqb Bool.eqb COMPLETE FAILED negb].
  destruct (prev_raw_template_id (self st)) as [p |]; mrun.
  all: match goal with
       | |- context [store false None false ?S] =>
           assert (HS : steady sid prev keys (Some DELETE) (Some COMPLETE)
                               own0 idn S)
             by (apply (steady_explicit _ _ _ _ _ _ _ _ _ _ Hst);
                 reflexivity);
           destruct (steady_store sid prev keys _ _ _ _ Hne S HS)
             as (res & st1 & E & -> & H1)
       end.
  all: rewrite E; mrun.
  all: pose proof H1 as ((Hid1 & _) & Ha1 & Hs1 & Ho1 & _).
  all: rewrite Ha1, Hs1, Ho1, Hid1.
  all: cbn [opt_str_eqb String.eqb Ascii.eqb Bool.eqb COMPLETE DELETE andb].
  all: match goal with
       | |- context [(_ ;; _) {| self := ?s'; world := ?w' |}] =>
           assert (H2 : steady sid prev keys (Some DELETE) (Some COMPLETE)
                               own0 idn {| self := s'; world := w' |})
             by (apply (steady_explicit _ _ _ _ _ _ _ _ _ _ H1);
                 reflexivity);
           generalize dependent {| self := s'; world := w' |}
       end.
  all: clear E HS; intros S2 H2.
  all: assert (Hgone : forall S, steady sid prev keys (Some DELETE)
                                        (Some COMPLETE) own0 idn S ->
             exists st',
               try_except_NotFound (stack_delete sid) S = (Ok tt, st')
               /\ delete_outcome sid (stacks (world st'))
               /\ (truthy own0 = true ->
                   lookup_row sid (stacks (world st')) = None)
               /\ (delete_trust_error idn = None ->
                   delete_project_error idn = None ->
                   lookup_row sid (stacks (world st')) = None))
    by (intros S HS';
        destruct (stack_delete_gone _ _ _ _ _ _ _ S Hnd HS')
          as (st' & E' & Hl');
        exists st'; unfold delete_outcome; rewrite Hl'; auto).
  all: destruct (truthy own0) eqn:Eo; cbn [negb]; mrun;
    [exact (Hgone S2 H2) |].
  all: destruct (steady_delete_credentials sid prev keys _ _ _ _ Hne
                   (Some COMPLETE) (status_reason (self st1)) S2 H2)
         as (sr & st2 & E2 & (Hsr1 & Hsr2) & H3).
  all: rewrite E2; mrun.
  all: destruct (opt_str_eqb (fst sr) (Some FAILED)) eqn:Ef; mrun;
    [| exact (Hgone st2 H3)].
  all: destruct H3 as ((Hid3 & Hc3 & Ht3 & _ & r3 & Hl3 & Hr3) & _).
  all: destruct (@state_set_persisted st2 sid prev r3 DELETE FAILED (snd sr)
                   Hid3 Hc3 Ht3 Hl3 Hr3 eq_refl eq_refl)
         as (st3 & evs & Hset & _ & Hstk & _).
  all: rewrite Hset; mrun.
  all: exists st3; split; [reflexivity |].
  all: cbn [String.eqb Ascii.eqb Bool.eqb FAILED app] in Hstk.
  all: unfold delete_outcome; rewrite Hstk;
    rewrite (lookup_replace_same sid _ _ r3 Hl3).
  all: split; [destruct r3; split; reflexivity |].
  all: split; [discriminate |].
  all: intros Hn1 Hn2; rewrite (Hsr2 Hn1 Hn2) in Ef; discriminate Ef.
Qed.

Lemma mark_complete_delete (st : State) (sid prev : string) (r : StackRow) :
  id (self st) = Some sid -> sid <> "" ->
  convergence (self st) = true ->
  current_traversal (self st) = Some prev ->
  lookup_row sid (stacks (world st)) = Some r ->
  row_current_traversal r = Some prev ->
  action (self st) = Some DELETE ->
  NoDup (map fst (stacks (world st))) ->
  let tb := stacks (world (snd (mark_complete st))) in
  fst (mark_complete st) = Ok tt
  /\ delete_outcome sid tb
  /\ (truthy (owner_id (self st)) = true -> lookup_row sid tb = None)
  /\ (delete_trust_error (identity (world st)) = None ->
      delete_project_error (identity (world st)) = None ->
      lookup_row sid tb = None).
Proof.
  intros Hid Hne Hc Ht Hl Hr Hact Hnd. cbv zeta.
  unfold mark_complete. mrun. rewrite Hact.
  match goal with
  | |- context [state_set DELETE COMPLETE ?R ?S] =>
      destruct (@state_set_persisted S sid prev r DELETE COMPLETE R
                  Hid Hc Ht Hl Hr eq_refl eq_refl)
        as (st1 & evs & Hset & Hself & Hstk & _ & _ & _ & _ & Hi)
  end.
  cbn [String.eqb Ascii.eqb Bool.eqb COMPLETE FAILED app] in Hself, Hstk.
  mred_in Hself. mred_in Hstk. mred_in Hi.
  rewrite Hset. cbn [is_true fst snd].
  assert (H1 : steady sid prev (map fst (stacks (world st)))
                      (Some DELETE) (Some COMPLETE) (owner_id (self st))
                      (identity (world st)) st1).
  { unfold steady, current. rewrite Hself, Hstk, Hi, replace_row_keys. mred.
    split; [| auto].
    split; [exact Hid |]. split; [exact Hc |]. split; [exact Ht |].
    split; [reflexivity |].
    eexists. split; [eapply lookup_replace_same; exact Hl |].
    rewrite update_row_keeps_traversal. exact Hr. }
  destruct (purge_db_delete _ _ _ _ _ st1 Hne Hnd H1) as (st' & E & Hout).
  rewrite E. cbn [fst snd]. split; [reflexivity | exact Hout].
Qed.

(** C8.  The life of a traversal ID, on a stored convergence stack whose
    traversal is current: [converge_stack] starts the operation, and
    supersedes the one before, by storing a freshly generated traversal ID
    in place of the previous one; a transition to FAILED clears the stored
    traversal ID to the empty string; a transition to COMPLETE leaves the
    stored traversal ID as it is, and so does the whole of [mark_complete]
    for CREATE, UPDATE, ADOPT and ROLLBACK; [mark_complete] for DELETE, the
    table holding one row per stack, leaves no row of the stack, or, when
    the trust or the domain project could not be deleted, a FAILED row
    whose traversal ID is cleared. *)
Theorem traversal_lifecycle (st : State) (sid prev : string) (r : StackRow) :
  id (self st) = Some sid -> sid <> "" ->
  convergence (self st) = true ->
  current_traversal (self st) = Some prev ->
  lookup_row sid (stacks (world st)) = Some r ->
  row_current_traversal r = Some prev ->
  (forall template act new_stack,
      exists pre vs post,
        trace (world (snd (converge_stack template act new_stack st))) =
        trace (world st) ++ pre
          ++ [EvStackUpdate sid vs (Some prev) true] ++ post
        /\ forallb quiet pre = true
        /\ row_current_traversal (update_row r vs)
           = Some (uuid_src (world st) (uuid_next (world st))))
  /\ (forall act reason,
         str_in act [UPDATE; DELETE; CREATE; ADOPT; ROLLBACK] = true ->
         exists st1 r',
           state_set act FAILED reason st = (Ok (Some true), st1)
           /\ current_traversal (self st1) = Some ""
           /\ lookup_row sid (stacks (world st1)) = Some r'
           /\ row_current_traversal r' = Some ""
           /\ row_status r' = Some FAILED)
  /\ (forall act reason,
         str_in act [UPDATE; DELETE; CREATE; ADOPT; ROLLBACK] = true ->
         exists st1 r',
           state_set act COMPLETE reason st = (Ok (Some true), st1)
           /\ current_traversal (self st1) = Some prev
           /\ lookup_row sid (stacks (world st1)) = Some r'
           /\ row_current_traversal r' = Some prev
           /\ row_status r' = Some COMPLETE)
  /\ (forall act,
         action (self st) = Some act ->
         str_in act [UPDATE; CREATE; ADOPT; ROLLBACK] = true ->
         fst (mark_complete st) = Ok tt
         /\ exists r',
             lookup_row sid (stacks (world (snd (mark_complete st)))) = Some r'
             /\ row_current_traversal r' = Some prev
             /\ row_status r' = Some COMPLETE)
  /\ (action (self st) = Some DELETE ->
      NoDup (map fst (stacks (world st))) ->
      let tb := stacks (world (snd (mark_complete st))) in
      fst (mark_complete st) = Ok tt
      /\ delete_outcome sid tb
      /\ (truthy (owner_id (self st)) = true -> lookup_row sid tb = None)
      /\ (delete_trust_error (identity (world st)) = None ->
          delete_project_error (identity (world st)) = None ->
          lookup_row sid tb = None)).
Proof.
  intros Hid Hne Hc Ht Hl Hr.
  split; [| split; [| split; [| split]]]; [| | | repeat split |
    intros Hact Hnd;
    exact (mark_complete_delete st sid prev r Hid Hne Hc Ht Hl Hr Hact Hnd)].
  - intros template act new_stack.
    destruct (@converge_stack_first_store template act new_stack st sid prev r
                Hid Hne Hc Ht Hl)
      as (pre & vs & post & Htr & Hq & _ & Hrow & _).
    cbv zeta in Htr. rewrite Hr, opt_str_eqb_refl in Htr.
    exists pre, vs, post. auto.
  - intros act reason Ha.
    destruct (@state_set_persisted st sid prev r act FAILED reason
                Hid Hc Ht Hl Hr Ha eq_refl)
      as (st1 & evs & Hset & Hself & Hstk & _).
    cbn [String.eqb Ascii.eqb Bool.eqb FAILED app] in Hself, Hstk.
    exists st1; eexists. split; [exact Hset |]. split; [rewrite Hself; reflexivity |].
    split; [rewrite Hstk; eapply lookup_replace_same; exact Hl |].
    destruct r; split; reflexivity.
  - intros act reason Ha.
    destruct (@state_set_persisted st sid prev r act COMPLETE reason
                Hid Hc Ht Hl Hr Ha eq_refl)
      as (st1 & evs & Hset & Hself & Hstk & _).
    cbn [String.eqb Ascii.eqb Bool.eqb FAILED COMPLETE app] in Hself, Hstk.
    exists st1; eexists. split; [exact Hset |].
    split; [rewrite Hself; exact Ht |].
    split; [rewrite Hstk; eapply lookup_replace_same; exact Hl |].
    rewrite update_row_keeps_traversal. split; [exact Hr |].
    destruct r; reflexivity.
  - destruct (@mark_complete_keeps_traversal st sid prev r act
                Hid Hne Hc Ht Hl Hr H H0) as (H1 & _). exact H1.
  - destruct (@mark_complete_keeps_traversal st sid prev r act
                Hid Hne Hc Ht Hl Hr H H0) as (_ & _ & r' & H1 & H2 & H3 & _).
    exists r'. auto.
Qed.

(** C10. [Stack.state_set] called with an action outside [ACTIONS] or a
    status outside [STATUSES] raises [ValueError] and leaves the stack
    object, the database and the trace of collaborator calls exactly as
    they were. *)
Theorem state_set_invalid_raises (act sts reason : string) (st : State) :
  str_in act ACTIONS = false \/ str_in sts STATUSES = false ->
  exists msg, state_set act sts reason st = (Raise (ValueError msg), st).
Proof.
  intros [Ha | Hs]; unfold state_set.
  - rewrite Ha. cbn [negb]. eexists. reflexivity.
  - destruct (str_in act ACTIONS); cbn [negb].
    + rewrite Hs. cbn [negb]. eexists. reflexivity.
    + eexists. reflexivity.
Qed.

Lemma state_set_invalid_raises_witness :
  str_in "FROBNICATE" ACTIONS = false
  /\ exists msg,
      state_set "FROBNICATE" COMPLETE "done" Fixtures.st0
      = (Raise (ValueError msg), Fixtures.st0).
Proof.
  split; [reflexivity |].
  apply (@state_set_invalid_raises "FROBNICATE" COMPLETE "done" Fixtures.st0).
  left. reflexivity.
Defined.

Lemma converge_stack_cas_abort_witness :
  (id (self Fixtures.st_raced) = Some "stack-1"
   /\ convergence (self Fixtures.st_raced) = true
   /\ current_traversal (self Fixtures.st_raced) = Some "trv-0"
   /\ lookup_row "stack-1" (stacks (world Fixtures.st_raced))
      = Some Fixtures.row_advanced
   /\ row_current_traversal Fixtures.row_advanced = Some "trv-9")
  /\ fst (converge_stack Fixtures.new_template UPDATE None Fixtures.st_raced)
     = Ok tt
  /\ stacks (world (snd (converge_stack Fixtures.new_template UPDATE None
                                        Fixtures.st_raced)))
     = stacks (world Fixtures.st_raced).
Proof.
  split; [repeat split |].
  destruct (@converge_stack_cas_abort Fixtures.new_template UPDATE None
              Fixtures.st_raced "stack-1" "trv-0" Fixtures.row_advanced
              eq_refl ltac:(discriminate) eq_refl eq_refl eq_refl)
    as (pre & vs & post & _ & _ & _ & Hlost).
  destruct Hlost as (_ & Hres & Hstk & _); [discriminate |].
  split; assumption.
Defined.

(** The traversal that drove a completed operation stays stored: an
    UPDATE over an empty convergence graph runs to (UPDATE, COMPLETE), and
    the traversal generated for it ([trv-1]) is still the stored current
    traversal afterwards. *)
Lemma traversal_still_current_after_complete :
  fst (converge_stack Fixtures.new_template UPDATE None Fixtures.st0) = Ok tt
  /\ uuid_src (world Fixtures.st0) (uuid_next (world Fixtures.st0)) = "trv-1"
  /\ exists r,
      lookup_row "stack-1"
        (stacks (world (snd (converge_stack Fixtures.new_template UPDATE None
                                            Fixtures.st0)))) = Some r
      /\ row_action r = Some UPDATE
      /\ row_status r = Some COMPLETE
      /\ row_current_traversal r = Some "trv-1".
Proof.
  split; [vm_compute; reflexivity |]. split; [reflexivity |].
  eexists. split; [vm_compute; reflexivity |]. repeat split.
Qed.

(** A DELETE over an empty convergence graph runs to (DELETE, COMPLETE)
    and the row of the stack is gone. *)
Example delete_to_completion_removes_row :
  fst (converge_stack Fixtures.new_template DELETE None Fixtures.st0) = Ok tt
  /\ lookup_row "stack-1"
       (stacks (world (snd (converge_stack Fixtures.new_template DELETE None
                                           Fixtures.st0)))) = None.
Proof. split; vm_compute; reflexivity. Qed.

Lemma traversal_lifecycle_witness :
  (id (self Fixtures.st0) = Some "stack-1"
   /\ convergence (self Fixtures.st0) = true
   /\ current_traversal (self Fixtures.st0) = Some "trv-0"
   /\ lookup_row "stack-1" (stacks (world Fixtures.st0)) = Some Fixtures.row0
   /\ row_current_traversal Fixtures.row0 = Some "trv-0")
  /\ exists st1 r',
      state_set UPDATE FAILED "Stack UPDATE cancelled" Fixtures.st0
      = (Ok (Some true), st1)
      /\ current_traversal (self st1) = Some ""
      /\ lookup_row "stack-1" (stacks (world st1)) = Some r'
      /\ row_current_traversal r' = Some ""
      /\ row_status r' = Some FAILED.
Proof.
  split; [repeat split |].
  destruct (@traversal_lifecycle Fixtures.st0 "stack-1" "trv-0" Fixtures.row0
              eq_refl ltac:(discriminate) eq_refl eq_refl eq_refl eq_refl)
    as (_ & Hfailed & _).
  exact (Hfailed UPDATE "Stack UPDATE cancelled" eq_refl).
Defined.

End StackProps.

Module BestRsrcProps.

Import StackEngine.
Open Scope string_scope.
Open Scope list_scope.

Lemma find_app_split {A} (f : A -> bool) (l l' : list A) :
  find f (l ++ l') =
  match find f l with Some x => Some x | None => find f l' end.
Proof.
  induction l as [| a l IH]; simpl; [reflexivity |].
  destruct (f a); [reflexivity | exact IH].
Qed.

Lemma same_named_cons_other n k r items :
  String.eqb (rsrc_name r) n = false ->
  same_named n ((k, r) :: items) = same_named n items.
Proof. intros H. unfold same_named. simpl. rewrite H. reflexivity. Qed.

Lemma same_named_cons_same n k r items :
  String.eqb (rsrc_name r) n = true ->
  same_named n ((k, r) :: items) = r :: same_named n items.
Proof. intros H. unfold same_named. simpl. rewrite H. reflexivity. Qed.

(** The loop, started with any candidate, against the priority list. *)
Lemma best_loop_priority s n items :
  forall candidate,
    best_loop s n items candidate =
    match find (in_current_template s) (same_named n items) with
    | Some r => Some r
    | None =>
        match find (in_previous_template s) (rev (same_named n items)) with
        | Some r => Some r
        | None =>
            match candidate with
            | Some c => Some c
            | None => hd_error (same_named n items)
            end
        end
    end.
Proof.
  induction items as [| [k r] items IH]; intros candidate.
  - simpl. destruct candidate; reflexivity.
  - cbn [best_loop].
    destruct (String.eqb (rsrc_name r) n) eqn:En; cbn [negb].
    + rewrite (same_named_cons_same n k r items En).
      cbn [find rev]. fold (in_current_template s r).
      destruct (in_current_template s r) eqn:Ec; [reflexivity |].
      fold (in_previous_template s r).
      rewrite find_app_split. cbn [find].
      destruct (in_previous_template s r) eqn:Ep.
      * rewrite IH.
        destruct (find (in_current_template s) (same_named n items));
          [reflexivity |].
        destruct (find (in_previous_template s) (rev (same_named n items)));
          reflexivity.
      * destruct candidate as [c |]; rewrite IH;
          destruct (find (in_current_template s) (same_named n items));
          try reflexivity;
          destruct (find (in_previous_template s)
                         (rev (same_named n items)));
          reflexivity.
    + rewrite (same_named_cons_other n k r items En). apply IH.
Qed.

Lemma get_best_refines_priority s db n :
  _get_best_existing_rsrc_db s db n =
  match db with
  | Some items => best_by_priority s n items
  | None => None
  end.
Proof.
  destruct db as [[| it items] |]; try reflexivity.
  unfold _get_best_existing_rsrc_db, best_by_priority.
  apply best_loop_priority.
Qed.

(** C9. When at least one active row carries the resource's name,
    [_get_best_existing_rsrc_db] returns a row of that name: one whose
    template is the current template when such a row exists; otherwise one
    whose template is the previous raw template when such a row exists;
    otherwise the earliest row of that name in iteration order. *)
Theorem get_best_existing_rsrc_db_priority
        (s : Stack) (items : list (Z * ResourceRow)) (n : string) :
  same_named n items <> [] ->
  exists r,
    _get_best_existing_rsrc_db s (Some items) n = Some r
    /\ In r (same_named n items)
    /\ ((exists c, In c (same_named n items)
                   /\ in_current_template s c = true) ->
        in_current_template s r = true)
    /\ ((forall c, In c (same_named n items) ->
                   in_current_template s c = false) ->
        (exists p, In p (same_named n items)
                   /\ in_previous_template s p = true) ->
        in_previous_template s r = true)
    /\ ((forall c, In c (same_named n items) ->
                   in_current_template s c = false) ->
        (forall p, In p (same_named n items) ->
                   in_previous_template s p = false) ->
        hd_error (same_named n items) = Some r).
Proof.
  intros Hne. rewrite get_best_refines_priority. unfold best_by_priority.
  destruct (find (in_current_template s) (same_named n items)) as [r |] eqn:Fc.
  - apply find_some in Fc. destruct Fc as [Hin Hc].
    exists r. repeat split; auto.
    + intros Hall _. rewrite (Hall _ Hin) in Hc. discriminate.
    + intros Hall _. rewrite (Hall _ Hin) in Hc. discriminate.
  - pose proof (find_none _ _ Fc) as Hnc.
    destruct (find (in_previous_template s) (rev (same_named n items)))
      as [r |] eqn:Fp.
    + apply find_some in Fp. destruct Fp as [Hin Hp].
      apply in_rev in Hin.
      exists r. repeat split; auto.
      * intros [c [Hc1 Hc2]]. rewrite (Hnc _ Hc1) in Hc2. discriminate.
      * intros _ Hall. rewrite (Hall _ Hin) in Hp. discriminate.
    + pose proof (find_none _ _ Fp) as Hnp.
      destruct (same_named n items) as [| r rest] eqn:Es; [contradiction |].
      exists r. repeat split; auto.
      * left; reflexivity.
      * intros [c [Hc1 Hc2]]. rewrite (Hnc _ Hc1) in Hc2. discriminate.
      * intros _ [p [Hp1 Hp2]].
        assert (Hp3 : In p (rev (r :: rest))) by (apply in_rev; rewrite rev_involutive; exact Hp1).
        rewrite (Hnp _ Hp3) in Hp2. discriminate.
Qed.

Lemma get_best_existing_rsrc_db_priority_witness :
  same_named "server" Fixtures.rows3 <> []
  /\ _get_best_existing_rsrc_db Fixtures.stack0 (Some Fixtures.rows3) "server"
     = Some (Fixtures.mk_rsrc 4 "server" (Some 6%Z)).
Proof.
  assert (Hne : same_named "server" Fixtures.rows3 <> []) by discriminate.
  split; [exact Hne |].
  destruct (@get_best_existing_rsrc_db_priority Fixtures.stack0
              Fixtures.rows3 "server" Hne)
    as (r & Hr & Hin & Hcur & _).
  rewrite Hr. f_equal.
  assert (Hc : in_current_template Fixtures.stack0 r = true).
  { apply Hcur. exists (Fixtures.mk_rsrc 4 "server" (Some 6%Z)).
    split; [right; right; left; reflexivity | reflexivity]. }
  cbn in Hin. destruct Hin as [H | [H | [H | []]]]; subst r;
    try discriminate Hc; reflexivity.
Defined.

End BestRsrcProps.

Module WorkerProps.

Import StackEngine Worker.
Open Scope string_scope.
Open Scope list_scope.

(** C2. When the traversal ID of the message differs from the traversal
    ID stored on the stack, [check_resource] never calls
    [CheckResource.check] (which runs the resource's create, update, delete
    or check action).  Between registering and removing its message queue
    it only logs and, when the resource replaces an older one and is itself
    absent from the current graph, marks it DELETE and re-triggers the
    resource it replaces; otherwise it exits normally at once. *)
Theorem check_resource_stale_traversal
        (env : Env) (rsrc : ResourceRow) (stack : Stack) (resource_id : Z)
        (trv : option string) (is_update : bool) (tr0 : list WEvent) :
  trv <> current_traversal stack ->
  let out := check_resource env (Some (rsrc, stack)) resource_id trv
                            is_update tr0 in
  let superseded :=
    match rsrc_replaces rsrc with
    | Some _ => negb (in_graph (rsrc_id rsrc, is_update) (current_deps stack))
    | None => false
    end in
  exists evs,
    snd out = tr0 ++ evs
    /\ forallb (fun e => negb (runs_action e)) evs = true
    /\ evs =
       [WAddMsgQueue (id stack);
        WDebug "Traversal cancelled; re-trigerring."]
       ++ (match rsrc_replaces rsrc with
           | Some old =>
               if superseded
               then [WResourceUpdateAndSave (rsrc_id rsrc) DELETE;
                     WRetriggerCheckResource is_update old]
               else []
           | None => []
           end)
       ++ [WRemoveMsgQueue (id stack)]
    /\ (superseded = false -> fst out = Ok tt).
Proof.
  intros Hne out superseded. subst out superseded.
  apply StackProps.opt_str_eqb_false in Hne.
  unfold check_resource, try_finally, wbind, wemit, _retrigger_replaced.
  rewrite Hne. cbn [negb].
  destruct (rsrc_replaces rsrc) as [old |].
  - destruct (in_graph (rsrc_id rsrc, is_update) (current_deps stack));
      cbn [negb].
    + eexists. unfold wret. cbn [fst snd].
      repeat split; try reflexivity.
      rewrite <- !app_assoc. reflexivity.
    + unfold wbind, wemit, wcall.
      destruct (retrigger_raises env); eexists; cbn [fst snd];
        repeat split; try reflexivity; try discriminate;
        rewrite <- !app_assoc; reflexivity.
  - eexists. unfold wret. cbn [fst snd].
    repeat split; try reflexivity.
    rewrite <- !app_assoc. reflexivity.
Qed.

Lemma check_resource_stale_traversal_witness :
  Some "trv-0" <> current_traversal Fixtures.stack_moved_on
  /\ snd (check_resource Fixtures.quiet_env
             (Some (Fixtures.replacement_rsrc, Fixtures.stack_moved_on))
             12 (Some "trv-0") true [])
     = [WAddMsgQueue (Some "stack-1");
        WDebug "Traversal cancelled; re-trigerring.";
        WResourceUpdateAndSave 12 DELETE;
        WRetriggerCheckResource true 11;
        WRemoveMsgQueue (Some "stack-1")].
Proof.
  assert (Hne : Some "trv-0" <> current_traversal Fixtures.stack_moved_on)
    by discriminate.
  split; [exact Hne |].
  destruct (@check_resource_stale_traversal Fixtures.quiet_env
              Fixtures.replacement_rsrc Fixtures.stack_moved_on 12
              (Some "trv-0") true [] Hne)
    as (evs & Hout & _ & Hevs & _).
  rewrite Hout, Hevs. reflexivity.
Defined.

End WorkerProps.

Module DepsProps.

Import Dependencies.
Open Scope string_scope.
Open Scope list_scope.

Lemma mem_In n l : mem n l = true <-> In n l.
Proof.
  unfold mem. rewrite existsb_exists. split.
  - intros [x [Hx He]]. apply String.eqb_eq in He. subst. exact Hx.
  - intros H. exists n. split; [exact H | apply String.eqb_refl].
Qed.

Lemma mem_false n l : mem n l = false <-> ~ In n l.
Proof.
  rewrite <- mem_In. destruct (mem n l); split; intros; congruence.
Qed.

Lemma requires_In d n m :
  In m (requires d n) <-> In (n, Some m) (dep_edges d).
Proof.
  unfold requires. rewrite in_flat_map. split.
  - intros [[a [b |]] [He Hm]]; cbn [fst snd] in Hm.
    + destruct (String.eqb a n) eqn:E; [| contradiction].
      apply String.eqb_eq in E. destruct Hm as [Hm | []]. subst. exact He.
    + destruct (String.eqb a n); contradiction.
  - intros He. exists (n, Some m). split; [exact He |].
    cbn [fst snd]. rewrite String.eqb_refl. left. reflexivity.
Qed.

Lemma nodes_In d n :
  In n (nodes d) <-> exists e, In e (dep_edges d) /\ In n (endpoints e).
Proof. unfold nodes. rewrite nodup_In, in_flat_map. reflexivity. Qed.

Lemma nodes_NoDup d : NoDup (nodes d).
Proof. apply NoDup_nodup. Qed.

(** *** Walks *)

Lemma is_walk_tail d a c : is_walk d (a :: c) -> is_walk d c.
Proof. destruct c as [| b c]; cbn; [auto | intros [_ H]; exact H]. Qed.

Lemma is_walk_snoc d l a b :
  is_walk d (l ++ [a]) -> In (a, Some b) (dep_edges d) ->
  is_walk d ((l ++ [a]) ++ [b]).
Proof.
  induction l as [| x l IH]; intros Hw He.
  - cbn. auto.
  - cbn [app] in *. destruct (l ++ [a]) as [| y t] eqn:E.
    + destruct l; discriminate.
    + cbn [app]. cbn in Hw. destruct Hw as [H1 H2]. split; [exact H1 |].
      apply IH; assumption.
Qed.

(** Every node of a walk but the last requires its successor. *)
Lemma is_walk_next d l z :
  is_walk d (l ++ [z]) ->
  forall x, In x l ->
  exists y, In y (l ++ [z]) /\ In (x, Some y) (dep_edges d).
Proof.
  induction l as [| a l IH]; intros Hw x Hx; [contradiction |].
  cbn [app] in *. destruct Hx as [Hx | Hx].
  - subst a. destruct (l ++ [z]) as [| b t] eqn:E.
    + destruct l; discriminate.
    + exists b. cbn in Hw. split; [right; left; reflexivity | apply Hw].
  - destruct (IH (is_walk_tail _ _ _ Hw) x Hx) as [y [Hy He]].
    exists y. split; [right; exact Hy | exact He].
Qed.

Lemma closed_walk_next d c :
  closed_walk d c ->
  forall x, In x c -> exists y, In y c /\ In (x, Some y) (dep_edges d).
Proof.
  intros [v [mid [Hc Hw]]] x Hx. subst c.
  change (v :: mid ++ [v]) with ((v :: mid) ++ [v]) in *.
  apply is_walk_next; [exact Hw |].
  apply in_app_or in Hx. destruct Hx as [Hx | [Hx | []]]; [exact Hx |].
  subst x. left. reflexivity.
Qed.

Lemma closed_walk_nonempty d c : closed_walk d c -> exists x, In x c.
Proof. intros [v [mid [Hc _]]]. exists v. subst c. left. reflexivity. Qed.

(** A node of a cycle whose nodes all remain is not a leaf. *)
Lemma cycle_node_not_leaf d c remaining x :
  closed_walk d c -> incl c remaining -> In x c ->
  is_leaf d remaining x = false.
Proof.
  intros Hc Hincl Hx.
  destruct (closed_walk_next d c Hc x Hx) as [y [Hy He]].
  unfold is_leaf. apply not_true_is_false. intros Hall.
  rewrite forallb_forall in Hall.
  specialize (Hall y (proj2 (requires_In d x y) He)).
  apply negb_true_iff in Hall. apply mem_false in Hall.
  apply Hall, Hincl, Hy.
Qed.

(** *** Removing a node *)

Lemma NoDup_remove_node (n : node) l :
  NoDup l -> NoDup (remove string_dec n l).
Proof.
  induction 1 as [| x l Hx Hnd IH]; cbn; [constructor |].
  destruct (string_dec n x); [exact IH |].
  constructor; [| exact IH].
  intros Hin. apply in_remove in Hin. apply Hx, Hin.
Qed.

Lemma length_remove_node (n : node) l :
  NoDup l -> In n l -> S (List.length (remove string_dec n l)) = List.length l.
Proof.
  induction 1 as [| x l Hx Hnd IH]; intros Hin; [contradiction |].
  cbn. destruct (string_dec n x) as [E | E].
  - subst x. rewrite notin_remove by exact Hx. reflexivity.
  - destruct Hin as [Hin | Hin]; [congruence |].
    cbn. rewrite IH by exact Hin. reflexivity.
Qed.

(** *** A cycle blocks the sort *)

Lemma toposort_loop_cycle d c :
  closed_walk d c ->
  forall fuel remaining acc o,
    incl c remaining -> NoDup remaining -> List.length remaining = fuel ->
    toposort_loop fuel d remaining acc <> Ok o.
Proof.
  intros Hc. induction fuel as [| f IH]; intros remaining acc o Hincl Hnd Hlen.
  - destruct (closed_walk_nonempty d c Hc) as [x Hx].
    apply Hincl in Hx. destruct remaining; [contradiction | discriminate].
  - cbn [toposort_loop].
    destruct (find (is_leaf d remaining) remaining) as [n |] eqn:Ef;
      [| discriminate].
    apply find_some in Ef. destruct Ef as [Hn Hleaf].
    apply IH.
    + intros x Hx. apply in_in_remove; [| apply Hincl, Hx].
      intros E. subst x.
      rewrite (cycle_node_not_leaf d c remaining n Hc Hincl Hx) in Hleaf. discriminate.
    + apply NoDup_remove_node, Hnd.
    + pose proof (length_remove_node n remaining Hnd Hn). unfold node in *. lia.
Qed.

(** *** A blocked sort reports a cycle *)

Lemma is_walk_app_r d l1 l2 : is_walk d (l1 ++ l2) -> is_walk d l2.
Proof.
  induction l1 as [| a l1 IH]; [auto |].
  intros H. apply IH. exact (is_walk_tail _ _ _ H).
Qed.

Lemma drop_until_split n path :
  In n path ->
  exists l1 l2, path = l1 ++ n :: l2 /\ drop_until n path = n :: l2.
Proof.
  induction path as [| x path IH]; intros Hin; [contradiction |].
  cbn [drop_until]. destruct (String.eqb x n) eqn:E.
  - apply String.eqb_eq in E. subst x. exists [], path. auto.
  - destruct Hin as [Hin | Hin];
      [subst x; rewrite String.eqb_refl in E; discriminate |].
    destruct (IH Hin) as [l1 [l2 [H1 H2]]].
    exists (x :: l1), l2. split; [cbn; rewrite H1; reflexivity | exact H2].
Qed.

Lemma suffix_ends (l1 : list node) x l2 pre cur :
  l1 ++ x :: l2 = pre ++ [cur] -> exists l', x :: l2 = l' ++ [cur].
Proof.
  intros H.
  destruct (@exists_last _ (x :: l2) ltac:(discriminate)) as [l' [a Ha]].
  exists l'. rewrite Ha in *. rewrite app_assoc in H.
  apply app_inj_tail in H. destruct H as [_ H]. subst a. reflexivity.
Qed.

Lemma blocked_has_pred d remaining n :
  is_leaf d remaining n = false ->
  exists nxt,
    find (fun m => mem m remaining) (requires d n) = Some nxt
    /\ In nxt remaining /\ In (n, Some nxt) (dep_edges d).
Proof.
  intros Hleaf.
  destruct (find (fun m => mem m remaining) (requires d n)) as [nxt |] eqn:Ef.
  - apply find_some in Ef. destruct Ef as [H1 H2].
    exists nxt. split; [reflexivity |]. split.
    + apply mem_In, H2.
    + apply requires_In, H1.
  - exfalso. unfold is_leaf in Hleaf.
    assert (forallb (fun m => negb (mem m remaining)) (requires d n) = true).
    { apply forallb_forall. intros m Hm.
      rewrite (find_none _ _ Ef m Hm). reflexivity. }
    congruence.
Qed.

Lemma walk_closed d remaining :
  (forall n, In n remaining -> is_leaf d remaining n = false) ->
  forall fuel pre cur,
    is_walk d (pre ++ [cur]) -> NoDup (pre ++ [cur]) ->
    incl (pre ++ [cur]) remaining ->
    List.length remaining < fuel + List.length (pre ++ [cur]) ->
    closed_walk d (walk fuel d remaining (pre ++ [cur]) cur).
Proof.
  intros Hblocked. induction fuel as [| f IH]; intros pre cur Hw Hnd Hincl Hlen.
  - pose proof (NoDup_incl_length Hnd Hincl). cbn in Hlen. unfold node in *. lia.
  - cbn [walk].
    assert (Hcur : In cur remaining).
    { apply Hincl, in_or_app. right. left. reflexivity. }
    destruct (blocked_has_pred d remaining cur (Hblocked cur Hcur))
      as [nxt [Ef [Hr He]]].
    rewrite Ef. destruct (mem nxt (pre ++ [cur])) eqn:Em.
    + apply mem_In in Em.
      destruct (drop_until_split nxt _ Em) as [l1 [l2 [Hp Hd]]].
      rewrite Hd. exists nxt, l2. split; [reflexivity |].
      destruct (suffix_ends _ _ _ _ _ (eq_sym Hp)) as [l' Hl'].
      change (nxt :: l2 ++ [nxt]) with ((nxt :: l2) ++ [nxt]).
      rewrite Hl'. apply is_walk_snoc; [| exact He].
      rewrite <- Hl'. apply (is_walk_app_r d l1). rewrite <- Hp. exact Hw.
    + apply mem_false in Em. apply IH.
      * apply is_walk_snoc; assumption.
      * apply NoDup_app; [exact Hnd | repeat constructor; auto | ].
        intros x Hx [Hx' | []]. subst x. exact (Em Hx).
      * intros x Hx. apply in_app_or in Hx.
        destruct Hx as [Hx | [Hx | []]]; [apply Hincl, Hx | subst x; exact Hr].
      * rewrite length_app. cbn [List.length]. unfold node in *. lia.
Qed.

Lemma find_cycle_closed d remaining :
  remaining <> [] ->
  (forall n, In n remaining -> is_leaf d remaining n = false) ->
  closed_walk d (find_cycle d remaining).
Proof.
  intros Hne Hblocked. destruct remaining as [| s rest]; [congruence |].
  unfold find_cycle. apply (walk_closed d (s :: rest) Hblocked (S (List.length (s :: rest))) [] s).
  - cbn. exact I.
  - cbn. repeat constructor. auto.
  - intros x [Hx | []]. subst x. left. reflexivity.
  - cbn. lia.
Qed.

Lemma toposort_loop_raise d :
  forall fuel remaining acc e,
    NoDup remaining -> List.length remaining = fuel ->
    toposort_loop fuel d remaining acc = Raise e ->
    exists cyc, e = CircularDependencyException cyc /\ closed_walk d cyc.
Proof.
  induction fuel as [| f IH]; intros remaining acc e Hnd Hlen Hr.
  - discriminate.
  - cbn [toposort_loop] in Hr.
    destruct (find (is_leaf d remaining) remaining) as [n |] eqn:Ef.
    + pose proof (find_some _ _ Ef) as [Hn _].
      apply (IH (remove string_dec n remaining) (n :: acc) e).
      * apply NoDup_remove_node, Hnd.
      * pose proof (length_remove_node n remaining Hnd Hn). unfold node in *. lia.
      * exact Hr.
    + injection Hr as Hr. subst e. eexists. split; [reflexivity |].
      apply find_cycle_closed.
      * destruct remaining; [discriminate | discriminate].
      * intros x Hx. exact (find_none _ _ Ef x Hx).
Qed.

(** The sort fails exactly on the graphs that have a cycle. *)
Lemma toposort_cyclic d :
  has_cycle d ->
  exists cyc,
    toposort d = Raise (CircularDependencyException cyc) /\ closed_walk d cyc.
Proof.
  intros [c Hc]. unfold toposort.
  destruct (toposort_loop (List.length (nodes d)) d (nodes d) [])
    as [o | e] eqn:E.
  - exfalso. apply (toposort_loop_cycle d c Hc (List.length (nodes d))
                      (nodes d) [] o); auto using nodes_NoDup.
    intros x Hx. destruct (closed_walk_next d c Hc x Hx) as [y [_ He]].
    apply nodes_In. exists (x, Some y). split; [exact He |].
    left. reflexivity.
  - destruct (toposort_loop_raise d _ _ _ _ (nodes_NoDup d) eq_refl E)
      as [cyc [He Hw]].
    subst e. exists cyc. auto.
Qed.

Lemma toposort_acyclic d :
  ~ has_cycle d -> exists order, toposort d = Ok order.
Proof.
  intros Hac. unfold toposort.
  destruct (toposort_loop (List.length (nodes d)) d (nodes d) [])
    as [o | e] eqn:E.
  - exists o. reflexivity.
  - destruct (toposort_loop_raise d _ _ _ _ (nodes_NoDup d) eq_refl E)
      as [cyc [_ Hw]].
    exfalso. apply Hac. exists cyc. exact Hw.
Qed.

(** *** The reversed graph *)

Lemma flip_flip e : flip (flip e) = e.
Proof. destruct e as [a [b |]]; reflexivity. Qed.

Lemma reversed_reversed d : reversed (reversed d) = d.
Proof.
  destruct d as [es]. unfold reversed. cbn. f_equal.
  rewrite map_map. rewrite <- (map_id es) at 2.
  apply map_ext. exact flip_flip.
Qed.

Lemma reversed_edge d a b :
  In (a, Some b) (dep_edges (reversed d)) <-> In (b, Some a) (dep_edges d).
Proof.
  unfold reversed. cbn [dep_edges]. rewrite in_map_iff. split.
  - intros [[x [y |]] [E H]]; cbn in E.
    + injection E as <- <-. exact H.
    + discriminate.
  - intros H. exists (b, Some a). split; [reflexivity | exact H].
Qed.

(** In the reversed graph a node requires the nodes that required it. *)
Lemma requires_reversed d n m :
  In m (requires (reversed d) n) <-> In n (requires d m).
Proof. rewrite !requires_In. apply reversed_edge. Qed.

Lemma is_walk_rev d c : is_walk d c -> is_walk (reversed d) (rev c).
Proof.
  induction c as [| a c IH]; intros Hw; [exact I |].
  destruct c as [| b rest]; [exact I |].
  cbn [is_walk] in Hw. destruct Hw as [He Hw].
  specialize (IH Hw).
  change (rev (a :: b :: rest)) with ((rev rest ++ [b]) ++ [a]).
  apply is_walk_snoc; [exact IH |].
  apply reversed_edge. exact He.
Qed.

Lemma closed_walk_rev d c :
  closed_walk d c -> closed_walk (reversed d) (rev c).
Proof.
  intros [v [mid [Hc Hw]]]. exists v, (rev mid). split.
  - subst c. cbn [rev]. rewrite rev_app_distr. reflexivity.
  - apply is_walk_rev. exact Hw.
Qed.

(** Reversing the graph neither makes nor breaks a cycle. *)
Lemma has_cycle_reversed d : has_cycle (reversed d) <-> has_cycle d.
Proof.
  split; intros [c Hc]; exists (rev c).
  - rewrite <- (reversed_reversed d). apply closed_walk_rev. exact Hc.
  - apply closed_walk_rev. exact Hc.
Qed.

End DepsProps.

Module TopoProps.

Import Dependencies SchedulerInv DepsProps.
Open Scope string_scope.
Open Scope list_scope.

Lemma snoc_split {A} (l1 : list A) m l2 acc n :
  l1 ++ m :: l2 = acc ++ [n] ->
  (l2 = [] /\ m = n /\ l1 = acc)
  \/ (exists l2', l2 = l2' ++ [n] /\ acc = l1 ++ m :: l2').
Proof.
  intros H. destruct (@exists_last _ (m :: l2) ltac:(discriminate))
    as [l' [a Ha]].
  rewrite Ha in H. rewrite app_assoc in H. apply app_inj_tail in H.
  destruct H as [H1 H2]. subst a.
  destruct l2 as [| x l2].
  - left. destruct l' as [| y l'].
    + cbn in Ha. injection Ha as Ha. subst. rewrite app_nil_r. auto.
    + cbn in Ha. injection Ha as _ Ha. destruct l'; discriminate.
  - right. destruct l' as [| y l'].
    + cbn in Ha. discriminate.
    + cbn in Ha. injection Ha as Hm Ha. subst y.
      exists l'. split; [exact Ha | symmetry; exact H1].
Qed.

Lemma sorted_snoc d acc n :
  sorted d acc -> (forall m, In m (requires d n) -> In m acc) ->
  sorted d (acc ++ [n]).
Proof.
  intros Hs Hn l1 x l2 Heq m Hm.
  destruct (snoc_split l1 x l2 acc n (eq_sym Heq)) as [[_ [Hx Hl]] | [l2' [_ Hacc]]].
  - subst. apply Hn, Hm.
  - apply (Hs l1 x l2' Hacc m Hm).
Qed.

Lemma leaf_requires_gone d remaining n m :
  is_leaf d remaining n = true -> In m (requires d n) -> ~ In m remaining.
Proof.
  unfold is_leaf. rewrite forallb_forall. intros H Hm.
  specialize (H m Hm). apply negb_true_iff in H. apply mem_false, H.
Qed.

Lemma toposort_loop_sorted d :
  forall fuel remaining acc order,
    (forall x, In x (nodes d) <-> In x remaining \/ In x acc) ->
    NoDup remaining -> List.length remaining = fuel ->
    sorted d (rev acc) ->
    NoDup acc -> (forall x, In x acc -> ~ In x remaining) ->
    toposort_loop fuel d remaining acc = Ok order ->
    sorted d order /\ (forall x, In x order <-> In x (nodes d))
    /\ NoDup order.
Proof.
  induction fuel as [| f IH];
    intros remaining acc order Hall Hnd Hlen Hs Hna Hdis Hr.
  - cbn in Hr. injection Hr as Hr. subst order.
    destruct remaining; [| discriminate]. split; [exact Hs |]. split.
    + intros x. rewrite <- in_rev. rewrite Hall. cbn. tauto.
    + apply NoDup_rev, Hna.
  - cbn [toposort_loop] in Hr.
    destruct (find (is_leaf d remaining) remaining) as [n |] eqn:Ef;
      [| discriminate].
    pose proof (find_some _ _ Ef) as [Hn Hleaf].
    apply (IH (remove string_dec n remaining) (n :: acc) order).
    + intros x. rewrite Hall. cbn [In]. split.
      * intros [Hx | Hx]; [| tauto].
        destruct (string_dec x n) as [E | E]; [subst; tauto |].
        left. apply in_in_remove; assumption.
      * intros [Hx | [Hx | Hx]]; [| subst; tauto | tauto].
        apply in_remove in Hx. tauto.
    + apply NoDup_remove_node, Hnd.
    + pose proof (length_remove_node n remaining Hnd Hn).
      unfold node in *. lia.
    + cbn [rev]. apply sorted_snoc; [exact Hs |].
      intros m Hm. apply in_rev. rewrite rev_involutive.
      assert (Hmn : In m (nodes d)).
      { apply nodes_In. exists (n, Some m). split.
        - apply requires_In, Hm.
        - right. left. reflexivity. }
      apply Hall in Hmn. destruct Hmn as [Hmn | Hmn]; [| exact Hmn].
      exfalso. exact (leaf_requires_gone d remaining n m Hleaf Hm Hmn).
    + constructor; [| exact Hna]. intros Hin. exact (Hdis n Hin Hn).
    + intros x [Hx | Hx] Hin.
      * subst x. exact (remove_In string_dec remaining n Hin).
      * apply in_remove in Hin. exact (Hdis x Hx (proj1 Hin)).
    + exact Hr.
Qed.

Lemma toposort_sorted d order :
  toposort d = Ok order ->
  sorted d order /\ (forall x, In x order <-> In x (nodes d))
  /\ NoDup order.
Proof.
  intros H.
  apply (toposort_loop_sorted d (List.length (nodes d)) (nodes d) [] order);
    auto.
  - intros x. cbn. tauto.
  - apply nodes_NoDup.
  - intros l1 n l2 Heq. destruct l1; discriminate.
  - constructor.
Qed.

End TopoProps.

Module SchedProps.

Import Dependencies Scheduler SchedulerInv DepsProps TopoProps.
Open Scope string_scope.
Open Scope list_scope.

(** *** Status maps and traces *)

Lemma upd_same st k v : upd st k v k = v.
Proof. unfold upd. rewrite String.eqb_refl. reflexivity. Qed.

Lemma upd_other st k v n : n <> k -> upd st k v n = st n.
Proof.
  intros H. unfold upd. apply String.eqb_neq in H. rewrite H. reflexivity.
Qed.

Lemma calls_of_snoc_same k tr p :
  calls_of k (tr ++ [(k, p)]) = calls_of k tr ++ [(k, p)].
Proof.
  unfold calls_of. rewrite filter_app. cbn. rewrite String.eqb_refl.
  reflexivity.
Qed.

Lemma calls_of_snoc_other n k tr p :
  n <> k -> calls_of n (tr ++ [(k, p)]) = calls_of n tr.
Proof.
  intros H. unfold calls_of. rewrite filter_app. cbn.
  assert (E : String.eqb k n = false) by (apply String.eqb_neq; congruence).
  rewrite E. apply app_nil_r.
Qed.

Lemma steps_S n p : steps n (S p) = steps n p ++ [(n, S p)].
Proof. unfold steps. rewrite seq_S, map_app. reflexivity. Qed.

Lemma in_calls_of n j tr : In (n, j) tr -> In (n, j) (calls_of n tr).
Proof.
  intros H. unfold calls_of. apply filter_In. split; [exact H |].
  cbn. apply String.eqb_refl.
Qed.

(** A node with a call in the trace has been started. *)
Lemma called_started cfg tg n j :
  (forall x, calls_ok cfg tg x) -> In (n, j) (trace tg) ->
  started (stat tg n) = true.
Proof.
  intros Hc Hin. apply in_calls_of in Hin. specialize (Hc n).
  unfold calls_ok in Hc. destruct (stat tg n); try reflexivity;
    rewrite Hc in Hin; contradiction.
Qed.

(** What [can_resume] gives under the invariant. *)
Lemma can_resume_facts cfg tg k pos dl :
  Core cfg tg -> can_resume cfg tg k pos dl ->
  (stat tg k = Waiting \/ stat tg k = Running pos dl)
  /\ (forall m, In m (requires (graph cfg) k) -> stat tg m = Done)
  /\ calls_of k (trace tg) = steps k pos
  /\ (pos <= List.length (task cfg k))%nat.
Proof.
  intros Hcore [Hin [[Hr [Hp Hd]] | Hr]].
  - subst. unfold ready in Hr. pose proof (inv_calls Hcore k) as Hc.
    unfold calls_ok in Hc.
    destruct (stat tg k) eqn:Ek; try discriminate.
    repeat split; auto.
    + intros m Hm. rewrite forallb_forall in Hr. specialize (Hr m Hm).
      destruct (stat tg m); try discriminate. reflexivity.
    + lia.
  - pose proof (inv_calls Hcore k) as Hc. unfold calls_ok in Hc.
    rewrite Hr in Hc. destruct Hc as [Hc1 Hc2]. repeat split; auto.
    intros m Hm. apply (inv_started Hcore k); [rewrite Hr; reflexivity | exact Hm].
Qed.

(** Everything a started node depends on is done. *)
Lemma started_deps_done cfg tg n m :
  Core cfg tg -> depends_on (graph cfg) n m ->
  started (stat tg n) = true -> stat tg m = Done.
Proof.
  intros Hcore Hdep. induction Hdep as [n k Hk | n m k Hm Hdep IH]; intros Hs.
  - exact (inv_started Hcore n Hs k Hk).
  - apply IH. rewrite (inv_started Hcore n Hs m Hm). reflexivity.
Qed.

(** Appending a call for a node that is not done keeps the order. *)
Lemma order_snoc cfg tg k p :
  Core cfg tg -> stat tg k <> Done ->
  forall n m, depends_on (graph cfg) n m ->
              all_before m n (trace tg ++ [(k, p)]).
Proof.
  intros Hcore Hk n m Hm l1 l2 i j Heq Hin.
  destruct (snoc_split l1 (n, j) l2 (trace tg) (k, p) (eq_sym Heq))
    as [[Hl2 _] | [l2' [Hl2 Htr]]].
  - subst l2. contradiction.
  - subst l2. apply in_app_or in Hin. destruct Hin as [Hin | [Hin | []]].
    + exact (inv_order Hcore n m Hm l1 l2' i j Htr Hin).
    + injection Hin as Hmk _. subst m.
      apply Hk. apply (started_deps_done cfg tg n k Hcore Hm).
      apply (called_started cfg tg n j (inv_calls Hcore)).
      rewrite Htr. apply in_or_app. right. left. reflexivity.
Qed.

(** *** The core invariant under one resumption *)

Lemma not_done_of_facts (st : node -> status) k pos dl :
  st k = Waiting \/ st k = Running pos dl -> st k = Done -> False.
Proof. intros [H | H] E; rewrite E in H; discriminate. Qed.

Lemma core_started_upd cfg tg k pos dl v :
  Core cfg tg -> can_resume cfg tg k pos dl ->
  forall n, started (upd (stat tg) k v n) = true ->
            forall m, In m (requires (graph cfg) n) ->
                      upd (stat tg) k v m = Done.
Proof.
  intros Hcore Hcan n Hs m Hm.
  destruct (can_resume_facts cfg tg k pos dl Hcore Hcan) as (F1 & F2 & _).
  assert (Hd : stat tg m = Done).
  { destruct (string_dec n k) as [E | E].
    - subst n. apply F2, Hm.
    - rewrite upd_other in Hs by exact E.
      apply (inv_started Hcore n Hs m Hm). }
  destruct (string_dec m k) as [E | E].
  - subst m. exfalso. exact (not_done_of_facts (stat tg) k pos dl F1 Hd).
  - rewrite upd_other by exact E. exact Hd.
Qed.

Lemma core_nodes_upd cfg tg k pos dl v :
  Core cfg tg -> can_resume cfg tg k pos dl ->
  forall n, started (upd (stat tg) k v n) = true -> In n (topo tg).
Proof.
  intros Hcore [Hin _] n Hs. destruct (string_dec n k) as [E | E].
  - subst n. exact Hin.
  - rewrite upd_other in Hs by exact E. exact (inv_nodes Hcore n Hs).
Qed.

Lemma not_raised_of_facts cfg tg k pos dl e t :
  Core cfg tg -> stat tg k = Waiting \/ stat tg k = Running pos dl ->
  ~ In (k, e, t) (raised tg).
Proof.
  intros Hcore F1 Hin.
  assert (H : stat tg k = Failed e).
  { apply (inv_raised Hcore). exists t. exact Hin. }
  destruct F1 as [F | F]; rewrite F in H; discriminate.
Qed.

Lemma core_done cfg tg k pos dl :
  Core cfg tg -> can_resume cfg tg k pos dl ->
  nth_error (task cfg k) pos = None ->
  Core cfg (set_stat tg (upd (stat tg) k Done)).
Proof.
  intros Hcore Hcan Hnth.
  destruct (can_resume_facts cfg tg k pos dl Hcore Hcan)
    as (F1 & F2 & F3 & F4).
  constructor; cbn [set_stat stat trace raised topo].
  - apply (core_started_upd cfg tg k pos dl Done Hcore Hcan).
  - intros n. unfold calls_ok. cbn [set_stat stat trace].
    destruct (string_dec n k) as [E | E].
    + subst n. rewrite upd_same. rewrite F3.
      apply nth_error_None in Hnth. f_equal. unfold node in *. lia.
    + rewrite upd_other by exact E. apply (inv_calls Hcore n).
  - apply (core_nodes_upd cfg tg k pos dl _ Hcore Hcan).
  - apply (inv_order Hcore).
  - intros n e. destruct (string_dec n k) as [E | E].
    + subst n. rewrite upd_same. split; [| discriminate].
      intros [t Hin].
      exfalso. exact (not_raised_of_facts cfg tg k pos dl e t Hcore F1 Hin).
    + rewrite upd_other by exact E. apply (inv_raised Hcore).
  - apply (inv_raised_nodup Hcore).
Qed.

Lemma core_ok cfg tg k pos dl :
  Core cfg tg -> can_resume cfg tg k pos dl ->
  nth_error (task cfg k) pos = Some StepOk ->
  Core cfg {| topo := topo tg; stat := upd (stat tg) k (Running (S pos) dl);
              trace := trace tg ++ [(k, S pos)]; raised := raised tg;
              rounds := rounds tg |}.
Proof.
  intros Hcore Hcan Hnth.
  destruct (can_resume_facts cfg tg k pos dl Hcore Hcan)
    as (F1 & F2 & F3 & F4).
  constructor; cbn [stat trace raised topo].
  - apply (core_started_upd cfg tg k pos dl _ Hcore Hcan).
  - intros n. unfold calls_ok. cbn [stat trace].
    destruct (string_dec n k) as [E | E].
    + subst n. rewrite upd_same, calls_of_snoc_same, F3, steps_S.
      split; [reflexivity |].
      assert (pos < List.length (task cfg k))%nat
        by (apply nth_error_Some; congruence).
      lia.
    + rewrite upd_other by exact E.
      rewrite calls_of_snoc_other by exact E. apply (inv_calls Hcore n).
  - apply (core_nodes_upd cfg tg k pos dl _ Hcore Hcan).
  - apply order_snoc; [exact Hcore |].
    intros Hd. exact (not_done_of_facts (stat tg) k pos dl F1 Hd).
  - intros n e. destruct (string_dec n k) as [E | E].
    + subst n. rewrite upd_same. split; [| discriminate].
      intros [t Hin].
      exfalso. exact (not_raised_of_facts cfg tg k pos dl e t Hcore F1 Hin).
    + rewrite upd_other by exact E. apply (inv_raised Hcore).
  - apply (inv_raised_nodup Hcore).
Qed.

Lemma core_fail cfg tg k pos dl e t :
  Core cfg tg -> can_resume cfg tg k pos dl ->
  nth_error (task cfg k) pos = Some (StepRaise e) ->
  Core cfg {| topo := topo tg; stat := upd (stat tg) k (Failed e);
              trace := trace tg ++ [(k, S pos)];
              raised := raised tg ++ [(k, e, t)];
              rounds := rounds tg |}.
Proof.
  intros Hcore Hcan Hnth.
  destruct (can_resume_facts cfg tg k pos dl Hcore Hcan)
    as (F1 & F2 & F3 & F4).
  constructor; cbn [stat trace raised topo].
  - apply (core_started_upd cfg tg k pos dl _ Hcore Hcan).
  - intros n. unfold calls_ok. cbn [stat trace].
    destruct (string_dec n k) as [E | E].
    + subst n. rewrite upd_same, calls_of_snoc_same, F3, <- steps_S.
      exists pos. auto.
    + rewrite upd_other by exact E.
      rewrite calls_of_snoc_other by exact E. apply (inv_calls Hcore n).
  - apply (core_nodes_upd cfg tg k pos dl _ Hcore Hcan).
  - apply order_snoc; [exact Hcore |].
    intros Hd. exact (not_done_of_facts (stat tg) k pos dl F1 Hd).
  - intros n e'. destruct (string_dec n k) as [E | E].
    + subst n. rewrite upd_same. split.
      * intros [t' Hin]. apply in_app_or in Hin.
        destruct Hin as [Hin | [Hin | []]].
        -- exfalso.
           exact (not_raised_of_facts cfg tg k pos dl e' t' Hcore F1 Hin).
        -- injection Hin as He _. subst. reflexivity.
      * intros He. injection He as He. subst e'. exists t.
        apply in_or_app. right. left. reflexivity.
    + rewrite upd_other by exact E.
      rewrite <- (inv_raised Hcore n e'). split.
      * intros [t' Hin]. apply in_app_or in Hin.
        destruct Hin as [Hin | [Hin | []]]; [exists t'; exact Hin |].
        injection Hin as Hk _ _. congruence.
      * intros [t' Hin]. exists t'. apply in_or_app. left. exact Hin.
  - rewrite map_app. cbn [map fst].
    apply NoDup_app; [apply (inv_raised_nodup Hcore) | repeat constructor; auto |].
    intros x Hx [Hx' | []]. subst x.
    apply in_map_iff in Hx. destruct Hx as [[[k' e'] t'] [Hk Hin]].
    cbn in Hk. subst k'.
    exact (not_raised_of_facts cfg tg k pos dl e' t' Hcore F1 Hin).
Qed.

Lemma benign_done st g n : benign st g -> st n = Done -> g n = Done.
Proof.
  intros Hb Hd. destruct (Hb n) as [H | [[H _] | [(p & dl & dl' & H & _)
                                                   | (p & dl & t & H & _)]]];
    congruence.
Qed.

Lemma benign_started st g n :
  benign st g -> started (g n) = true -> started (st n) = true.
Proof.
  intros Hb Hs. destruct (Hb n) as [H | [[H H'] | [(p & dl & dl' & H & H')
                                                    | (p & dl & t & H & H')]]].
  - rewrite <- H. exact Hs.
  - rewrite H' in Hs. discriminate.
  - rewrite H. reflexivity.
  - rewrite H. reflexivity.
Qed.

Lemma benign_failed st g n e :
  benign st g -> (g n = Failed e <-> st n = Failed e).
Proof.
  intros Hb. destruct (Hb n) as [H | [[H H'] | [(p & dl & dl' & H & H')
                                                 | (p & dl & t & H & H')]]];
    rewrite ?H, ?H'; split; congruence.
Qed.

Lemma core_benign cfg tg g :
  Core cfg tg -> benign (stat tg) g -> Core cfg (set_stat tg g).
Proof.
  intros Hcore Hb. constructor; cbn [set_stat stat trace raised topo].
  - intros n Hs m Hm. apply (benign_done (stat tg) g m Hb).
    apply (inv_started Hcore n); [| exact Hm].
    exact (benign_started (stat tg) g n Hb Hs).
  - intros n. pose proof (inv_calls Hcore n) as Hc. unfold calls_ok in *.
    cbn [set_stat stat trace].
    destruct (Hb n) as [H | [[H H'] | [(p & dl & dl' & H & H')
                                        | (p & dl & t & H & H')]]].
    + rewrite H. exact Hc.
    + rewrite H'. rewrite H in Hc. exact Hc.
    + rewrite H'. rewrite H in Hc. exact Hc.
    + rewrite H'. rewrite H in Hc. exact Hc.
  - intros n Hs. apply (inv_nodes Hcore n).
    exact (benign_started (stat tg) g n Hb Hs).
  - apply (inv_order Hcore).
  - intros n e. rewrite (benign_failed (stat tg) g n e Hb).
    apply (inv_raised Hcore).
  - apply (inv_raised_nodup Hcore).
Qed.

(** *** The two ways of cancelling *)

Lemma cancel_all_benign cfg tg : benign (stat tg) (cancel_all cfg tg).
Proof.
  intros n. unfold cancel_all. destruct (stat tg n) as [| p dl | | e | | p t].
  - right. left. auto.
  - destruct (error_wait_time cfg n) as [w |].
    + right. right. left. eauto.
    + right. right. right. eauto.
  - left. reflexivity.
  - left. reflexivity.
  - left. reflexivity.
  - left. reflexivity.
Qed.

Lemma cancel_all_not_waiting cfg tg n : cancel_all cfg tg n <> Waiting.
Proof.
  unfold cancel_all. destruct (stat tg n) as [| p dl | | e | | p t];
    try discriminate.
  destruct (error_wait_time cfg n); discriminate.
Qed.

Lemma cd_step cfg st a :
  cd_step_spec cfg st
    (match st a with
     | Waiting =>
         if existsb (fun m => dead (st m)) (requires (graph cfg) a)
         then upd st a CancelledWaiting else st
     | _ => st
     end) a.
Proof.
  unfold cd_step_spec.
  destruct (st a) eqn:Ea; try (left; split; [reflexivity | discriminate]).
  destruct (existsb (fun m => dead (st m)) (requires (graph cfg) a)) eqn:Ex.
  - right. apply existsb_exists in Ex. auto.
  - left. split; [reflexivity |]. intros _ m Hm.
    destruct (dead (st m)) eqn:Ed; [| reflexivity].
    assert (existsb (fun m => dead (st m)) (requires (graph cfg) a) = true)
      by (apply existsb_exists; eauto).
    congruence.
Qed.

Lemma cd_fold_dead cfg l :
  forall st m,
    dead (st m) = true ->
    dead (fold_left
            (fun st n =>
               match st n with
               | Waiting =>
                   if existsb (fun m => dead (st m)) (requires (graph cfg) n)
                   then upd st n CancelledWaiting else st
               | _ => st
               end) l st m) = true.
Proof.
  induction l as [| a l IH]; intros st m Hd; [exact Hd |].
  cbn [fold_left]. apply IH.
  destruct (cd_step cfg st a) as [[E _] | [E [Ha _]]]; rewrite E; [exact Hd |].
  destruct (string_dec m a) as [Em | Em].
  - subst m. rewrite upd_same. reflexivity.
  - rewrite upd_other by exact Em. exact Hd.
Qed.

Lemma cd_fold_char cfg l :
  forall st n,
    let g := fold_left
               (fun st n =>
                  match st n with
                  | Waiting =>
                      if existsb (fun m => dead (st m))
                                 (requires (graph cfg) n)
                      then upd st n CancelledWaiting else st
                  | _ => st
                  end) l st in
    g n = st n
    \/ (st n = Waiting /\ g n = CancelledWaiting
        /\ exists m, In m (requires (graph cfg) n) /\ dead (g m) = true).
Proof.
  induction l as [| a l IH]; intros st n; cbn [fold_left]; [left; reflexivity |].
  cbv zeta.
  destruct (cd_step cfg st a) as [[E _] | [E [Ha [m [Hm Hd]]]]]; rewrite E.
  - apply IH.
  - destruct (IH (upd st a CancelledWaiting) n) as [H | [H1 [H2 H3]]].
    + destruct (string_dec n a) as [En | En].
      * subst n. rewrite upd_same in H. right. split; [exact Ha |].
        split; [exact H |]. exists m. split; [exact Hm |].
        apply cd_fold_dead.
        destruct (string_dec m a) as [Em | Em];
          [subst m; rewrite upd_same; reflexivity
          | rewrite upd_other by exact Em; exact Hd].
      * rewrite upd_other in H by exact En. left. exact H.
    + destruct (string_dec n a) as [En | En].
      * subst n. rewrite upd_same in H1. discriminate.
      * rewrite upd_other in H1 by exact En. right. auto.
Qed.

Lemma cancel_dependents_benign cfg tg :
  benign (stat tg) (cancel_dependents cfg tg).
Proof.
  intros n. unfold cancel_dependents.
  destruct (cd_fold_char cfg (topo tg) (stat tg) n) as [H | [H1 [H2 _]]].
  - left. exact H.
  - right. left. auto.
Qed.

(** After the pass no node that has not started has a dead predecessor. *)
Lemma cd_fold_alive cfg topo0 :
  sorted (graph cfg) topo0 -> NoDup topo0 ->
  forall l2 l1 st,
    topo0 = l1 ++ l2 ->
    (forall n, In n l1 -> st n = Waiting ->
               forall m, In m (requires (graph cfg) n) -> dead (st m) = false) ->
    let g := fold_left
               (fun st n =>
                  match st n with
                  | Waiting =>
                      if existsb (fun m => dead (st m))
                                 (requires (graph cfg) n)
                      then upd st n CancelledWaiting else st
                  | _ => st
                  end) l2 st in
    forall n, In n topo0 -> g n = Waiting ->
              forall m, In m (requires (graph cfg) n) -> dead (g m) = false.
Proof.
  intros Hsorted Hnd. induction l2 as [| a l2 IH]; intros l1 st Htopo HP.
  - cbn. rewrite app_nil_r in Htopo. subst l1. exact HP.
  - cbn [fold_left]. cbv zeta.
    apply (IH (l1 ++ [a])).
    + rewrite <- app_assoc. exact Htopo.
    + intros n Hn Hw m Hm.
      assert (Ha_notin : ~ In a l1).
      { rewrite Htopo in Hnd. apply NoDup_remove_2 in Hnd.
        intros Hin. apply Hnd. apply in_or_app. left. exact Hin. }
      destruct (cd_step cfg st a) as [[E Hal] | [E [Ha [m' [Hm' Hd']]]]];
        rewrite E in *.
      * apply in_app_or in Hn. destruct Hn as [Hn | [Hn | []]].
        -- exact (HP n Hn Hw m Hm).
        -- subst n. exact (Hal Hw m Hm).
      * destruct (string_dec n a) as [En | En];
          [subst n; rewrite upd_same in Hw; discriminate |].
        rewrite upd_other in Hw by exact En.
        apply in_app_or in Hn. destruct Hn as [Hn | [Hn | []]];
          [| congruence].
        assert (Hm1 : In m l1).
        { apply in_split in Hn. destruct Hn as [la [lb Hl1]].
          assert (Hin : In m la).
          { apply (Hsorted la n (lb ++ a :: l2)); [| exact Hm].
            rewrite Htopo, Hl1, <- app_assoc. reflexivity. }
          rewrite Hl1. apply in_or_app. left. exact Hin. }
        assert (Hma : m <> a) by (intros Hma; subst m; exact (Ha_notin Hm1)).
        rewrite upd_other by exact Hma. exact (HP n Hn Hw m Hm).
Qed.

Lemma cancel_dependents_alive cfg tg :
  sorted (graph cfg) (topo tg) -> NoDup (topo tg) ->
  forall n, In n (topo tg) -> cancel_dependents cfg tg n = Waiting ->
            forall m, In m (requires (graph cfg) n) ->
                      dead (cancel_dependents cfg tg m) = false.
Proof.
  intros Hs Hnd. unfold cancel_dependents.
  apply (cd_fold_alive cfg (topo tg) Hs Hnd (topo tg) [] (stat tg) eq_refl).
  intros n [].
Qed.

(** *** The invariant under the moves of the group *)

Lemma topo_advance cfg tg k pos dl :
  topo (fst (advance cfg tg k pos dl)) = topo tg.
Proof.
  unfold advance. destruct (nth_error (task cfg k) pos) as [[| e] |];
    reflexivity.
Qed.

Lemma inv_resumed cfg tg k pos dl v tr rs :
  Inv cfg tg -> can_resume cfg tg k pos dl ->
  (v = Done \/ v = Running (S pos) dl) ->
  Core cfg {| topo := topo tg; stat := upd (stat tg) k v; trace := tr;
              raised := raised tg; rounds := rs |} ->
  Inv cfg {| topo := topo tg; stat := upd (stat tg) k v; trace := tr;
             raised := raised tg; rounds := rs |}.
Proof.
  intros Hinv Hcan Hv Hcore'.
  destruct (can_resume_facts cfg tg k pos dl (inv_core Hinv) Hcan)
    as (F1 & F2 & F3 & F4).
  assert (Hvd : dead v = false) by (destruct Hv; subst v; reflexivity).
  assert (Hkd : dead (stat tg k) = false)
    by (destruct F1 as [F | F]; rewrite F; reflexivity).
  constructor; cbn [stat trace raised topo].
  - exact Hcore'.
  - intros n Hn Hw m Hm.
    destruct (string_dec n k) as [En | En];
      [subst n; rewrite upd_same in Hw; destruct Hv; subst v; discriminate |].
    rewrite upd_other in Hw by exact En.
    destruct (string_dec m k) as [Em | Em];
      [subst m; rewrite upd_same; exact Hvd |].
    rewrite upd_other by exact Em. exact (inv_alive Hinv n Hn Hw m Hm).
  - intros Hr n. destruct (string_dec n k) as [En | En].
    + subst n. rewrite upd_same. exact Hvd.
    + rewrite upd_other by exact En. exact (inv_clean Hinv Hr n).
  - intros Hagg Hr n.
    destruct (string_dec n k) as [En | En].
    + subst n. rewrite upd_same. destruct Hv; subst v; discriminate.
    + rewrite upd_other by exact En. exact (inv_fail_fast Hinv Hagg Hr n).
  - intros n p d Hs.
    destruct (string_dec n k) as [En | En].
    + subst n. rewrite upd_same in Hs.
      destruct Hv as [Hv | Hv]; subst v; [discriminate |].
      injection Hs as Hp Hd. subst dl.
      destruct Hcan as [_ [[_ [_ Hd]] | Hr]]; [discriminate |].
      exact (inv_deadline Hinv k pos d Hr).
    + rewrite upd_other in Hs by exact En.
      exact (inv_deadline Hinv n p d Hs).
  - intros Hagg n. split.
    + intros Hc.
      destruct (string_dec n k) as [En | En];
        [subst n; rewrite upd_same in Hc; destruct Hv; subst v; discriminate |].
      rewrite upd_other in Hc by exact En.
      destruct (proj1 (inv_cancelled Hinv Hagg n) Hc) as [m [Hm Hd]].
      exists m. split; [exact Hm |].
      destruct (string_dec m k) as [Em | Em]; [subst m; congruence |].
      rewrite upd_other by exact Em. exact Hd.
    + intros p t Hc.
      destruct (string_dec n k) as [En | En];
        [subst n; rewrite upd_same in Hc; destruct Hv; subst v; discriminate |].
      rewrite upd_other in Hc by exact En.
      exact (proj2 (inv_cancelled Hinv Hagg n) p t Hc).
Qed.

Lemma inv_failed cfg tg k pos dl e :
  Static cfg tg -> Inv cfg tg -> can_resume cfg tg k pos dl ->
  nth_error (task cfg k) pos = Some (StepRaise e) ->
  Inv cfg (fst (advance cfg tg k pos dl)).
Proof.
  intros Hst Hinv Hcan Hnth. unfold advance. rewrite Hnth. cbn [fst].
  set (tg1 := {| topo := topo tg; stat := upd (stat tg) k (Failed e);
                 trace := trace tg ++ [(k, S pos)];
                 raised := raised tg ++ [(k, e, now cfg tg)];
                 rounds := rounds tg |}).
  pose proof (core_fail cfg tg k pos dl e (now cfg tg) (inv_core Hinv) Hcan
                Hnth) as Hcore1.
  fold tg1 in Hcore1.
  destruct (can_resume_facts cfg tg k pos dl (inv_core Hinv) Hcan)
    as (F1 & F2 & F3 & F4).
  assert (Hr1 : raised tg1 <> []).
  { cbn. intros H. apply app_eq_nil in H. destruct H as [_ H]. discriminate. }
  destruct (aggregate_exceptions cfg) eqn:Hagg.
  - (* the dependents are cancelled *)
    constructor; cbn [set_stat stat trace raised topo].
    + apply (core_benign cfg tg1 _ Hcore1), cancel_dependents_benign.
    + apply (cancel_dependents_alive cfg tg1);
        [exact (st_sorted Hst) | exact (st_nodup Hst)].
    + intros Hr. exfalso. exact (Hr1 Hr).
    + rewrite Hagg. discriminate.
    + intros n p d Hs. exfalso.
      destruct (cd_fold_char cfg (topo tg1) (stat tg1) n) as [H | [_ [H _]]];
        fold (cancel_dependents cfg tg1) in H; [| congruence].
      rewrite Hs in H. cbn [tg1 stat] in H.
      destruct (string_dec n k) as [En | En];
        [subst n; rewrite upd_same in H; discriminate |].
      rewrite upd_other in H by exact En.
      destruct (inv_deadline Hinv n p d (eq_sym H)) as [Ha _]. congruence.
    + intros _ n.
      destruct (cd_fold_char cfg (topo tg1) (stat tg1) n)
        as [H | [H1 [H2 H3]]];
        fold (cancel_dependents cfg tg1) in *.
      * cbn [tg1 stat] in H.
        destruct (string_dec n k) as [En | En].
        -- subst n. rewrite upd_same in H. rewrite H.
           split; [discriminate | intros; discriminate].
        -- rewrite upd_other in H by exact En. rewrite H. split.
           ++ intros Hc.
              destruct (proj1 (inv_cancelled Hinv Hagg n) Hc) as [m [Hm Hd]].
              exists m. split; [exact Hm |].
              apply cd_fold_dead. cbn [tg1 stat].
              destruct (string_dec m k) as [Em | Em];
                [subst m; rewrite upd_same; reflexivity
                | rewrite upd_other by exact Em; exact Hd].
           ++ exact (proj2 (inv_cancelled Hinv Hagg n)).
      * rewrite H2. split; [intros _; exact H3 | intros; discriminate].
  - (* every other node is cancelled *)
    constructor; cbn [set_stat stat trace raised topo].
    + apply (core_benign cfg tg1 _ Hcore1), cancel_all_benign.
    + intros n _ Hw. exfalso. exact (cancel_all_not_waiting cfg tg1 n Hw).
    + intros Hr. exfalso. exact (Hr1 Hr).
    + intros _ _ n. apply cancel_all_not_waiting.
    + intros n p d _. split; [exact Hagg | exact Hr1].
    + rewrite Hagg. discriminate.
Qed.

Lemma inv_advance cfg tg k pos dl :
  Static cfg tg -> Inv cfg tg -> can_resume cfg tg k pos dl ->
  Inv cfg (fst (advance cfg tg k pos dl)).
Proof.
  intros Hst Hinv Hcan.
  destruct (nth_error (task cfg k) pos) as [[| e] |] eqn:Hnth.
  - unfold advance. rewrite Hnth. cbn [fst].
    apply (inv_resumed cfg tg k pos dl _ _ _ Hinv Hcan); [right; reflexivity |].
    exact (core_ok cfg tg k pos dl (inv_core Hinv) Hcan Hnth).
  - exact (inv_failed cfg tg k pos dl e Hst Hinv Hcan Hnth).
  - unfold advance. rewrite Hnth. cbn [fst]. unfold set_stat.
    apply (inv_resumed cfg tg k pos dl _ _ _ Hinv Hcan); [left; reflexivity |].
    exact (core_done cfg tg k pos dl (inv_core Hinv) Hcan Hnth).
Qed.

Lemma inv_expire cfg tg k pos d t :
  Inv cfg tg -> stat tg k = Running pos (Some d) ->
  Inv cfg (set_stat tg (upd (stat tg) k (CancelledRunning pos t))).
Proof.
  intros Hinv Hk.
  destruct (inv_deadline Hinv k pos d Hk) as [Hagg Hr].
  pose proof (inv_fail_fast Hinv Hagg Hr) as Hnw.
  constructor; cbn [set_stat stat trace raised topo].
  - apply (core_benign cfg tg _ (inv_core Hinv)).
    intros n. destruct (string_dec n k) as [En | En].
    + subst n. rewrite upd_same. right. right. right. eauto.
    + rewrite upd_other by exact En. left. reflexivity.
  - intros n _ Hw. exfalso.
    destruct (string_dec n k) as [En | En];
      [subst n; rewrite upd_same in Hw; discriminate |].
    rewrite upd_other in Hw by exact En. exact (Hnw n Hw).
  - intros Hr'. exfalso. exact (Hr Hr').
  - intros _ _ n. destruct (string_dec n k) as [En | En];
      [subst n; rewrite upd_same; discriminate |].
    rewrite upd_other by exact En. apply Hnw.
  - intros n p d' Hs. destruct (string_dec n k) as [En | En];
      [subst n; rewrite upd_same in Hs; discriminate |].
    split; assumption.
  - rewrite Hagg. discriminate.
Qed.

Lemma inv_next_round cfg tg : Inv cfg tg -> Inv cfg (next_round tg).
Proof.
  intros [[H1 H2 H3 H4 H5 H6] H7 H8 H9 H10 H11].
  constructor; [constructor | ..]; assumption.
Qed.

(** *** Rounds and runs preserve what the moves preserve *)

Section Preservation.

Variable cfg : Config.
Variable T : list node.
Variable P : TaskGroup -> Prop.

Hypothesis P_topo : forall tg, P tg -> topo tg = T.

Hypothesis T_order : forall k, In k (dict_order cfg T) -> In k T.

Hypothesis P_advance :
  forall tg k pos dl,
    P tg -> can_resume cfg tg k pos dl ->
    match dl with Some d => (d <? now cfg tg)%Z = false | None => True end ->
    P (fst (advance cfg tg k pos dl)).

Hypothesis P_expire :
  forall tg k pos d,
    P tg -> stat tg k = Running pos (Some d) -> (d <? now cfg tg)%Z = true ->
    P (set_stat tg (upd (stat tg) k (CancelledRunning pos (now cfg tg)))).

Hypothesis P_next : forall tg, P tg -> P (next_round tg).

Lemma start_ready_P ks :
  (forall k, In k ks -> In k T) ->
  forall tg, P tg -> P (fst (start_ready cfg ks tg)).
Proof.
  induction ks as [| k ks IH]; intros Hks tg HP; cbn [start_ready];
    [exact HP |].
  assert (Hks' : forall k', In k' ks -> In k' T)
    by (intros k' Hk'; apply Hks; right; exact Hk').
  specialize (IH Hks').
  assert (Hk : In k (topo tg))
    by (rewrite (P_topo tg HP); apply Hks; left; reflexivity).
  destruct (ready cfg tg k) eqn:Hr; [| apply IH, HP].
  assert (HP' : P (fst (advance cfg tg k O None))).
  { apply P_advance; [exact HP | split; [exact Hk | left; auto] | exact I]. }
  destruct (advance cfg tg k O None) as [tg' [|]]; cbn [fst] in *;
    [exact HP' | apply IH, HP'].
Qed.

Lemma step_running_P ks :
  (forall k, In k ks -> In k T) ->
  forall tg, P tg -> P (fst (step_running cfg ks tg)).
Proof.
  induction ks as [| k ks IH]; intros Hks tg HP; cbn [step_running];
    [exact HP |].
  assert (Hks' : forall k', In k' ks -> In k' T)
    by (intros k' Hk'; apply Hks; right; exact Hk').
  specialize (IH Hks').
  assert (Hkt : In k (topo tg))
    by (rewrite (P_topo tg HP); apply Hks; left; reflexivity).
  destruct (stat tg k) as [| pos dl | | e | | pos t] eqn:Hk;
    try (apply IH, HP).
  destruct dl as [d |].
  - destruct (d <? now cfg tg)%Z eqn:Hd.
    + apply IH. exact (P_expire tg k pos d HP Hk Hd).
    + assert (HP' : P (fst (advance cfg tg k pos (Some d)))).
      { apply P_advance; [exact HP | split; [exact Hkt | right; exact Hk]
                          | exact Hd]. }
      destruct (advance cfg tg k pos (Some d)) as [tg' [|]]; cbn [fst] in *;
        [exact HP' | apply IH, HP'].
  - assert (HP' : P (fst (advance cfg tg k pos None))).
    { apply P_advance; [exact HP | split; [exact Hkt | right; exact Hk]
                        | exact I]. }
    destruct (advance cfg tg k pos None) as [tg' [|]]; cbn [fst] in *;
      [exact HP' | apply IH, HP'].
Qed.

Lemma round_P tg : P tg -> P (round cfg tg).
Proof.
  intros HP. unfold round. rewrite (P_topo tg HP).
  pose proof (start_ready_P (dict_order cfg T) T_order tg HP) as H1.
  destruct (start_ready cfg (dict_order cfg T) tg) as [tg1 [|]];
    cbn [fst] in H1.
  - apply P_next, H1.
  - apply P_next, step_running_P; [exact T_order | exact H1].
Qed.

Lemma run_P fuel :
  forall tg r tg',
    P tg -> run fuel cfg tg = Some (r, tg') ->
    P tg' /\ any_active tg' = false /\ r = outcome_of cfg tg'.
Proof.
  induction fuel as [| f IH]; intros tg r tg' HP Hrun; cbn [run] in Hrun.
  - destruct (any_active tg) eqn:Ha; [discriminate |].
    injection Hrun as Hr Ht. subst. auto.
  - destruct (any_active tg) eqn:Ha.
    + apply (IH (round cfg tg)); [apply round_P, HP | exact Hrun].
    + injection Hrun as Hr Ht. subst. auto.
Qed.

End Preservation.

Lemma static_same_topo cfg tg tg' :
  topo tg' = topo tg -> Static cfg tg -> Static cfg tg'.
Proof.
  intros E [H1 H2 H3]. constructor; rewrite ?E; assumption.
Qed.

Lemma topo_round cfg tg :
  (forall k, In k (dict_order cfg (topo tg)) -> In k (topo tg)) ->
  topo (round cfg tg) = topo tg.
Proof.
  intros Hord.
  apply (round_P cfg (topo tg) (fun tg' => topo tg' = topo tg));
    try reflexivity; try exact Hord.
  - intros tg0 H. exact H.
  - intros tg0 k pos dl H _ _. rewrite topo_advance. exact H.
  - intros tg0 k pos d H _ _. exact H.
  - intros tg0 H. exact H.
Qed.

Lemma sound_advance cfg tg k pos dl :
  Static cfg tg /\ Inv cfg tg -> can_resume cfg tg k pos dl ->
  Static cfg (fst (advance cfg tg k pos dl))
  /\ Inv cfg (fst (advance cfg tg k pos dl)).
Proof.
  intros [Hst Hinv] Hcan. split.
  - apply (static_same_topo cfg tg); [apply topo_advance | exact Hst].
  - apply inv_advance; assumption.
Qed.

(** The predicate carried through a run: the invariant, for a group over
    the nodes [T]. *)
Lemma sound_moves cfg T :
  (forall tg, (topo tg = T /\ Static cfg tg /\ Inv cfg tg) -> topo tg = T)
  /\ (forall tg k pos dl,
         (topo tg = T /\ Static cfg tg /\ Inv cfg tg) ->
         can_resume cfg tg k pos dl ->
         match dl with
         | Some d => (d <? now cfg tg)%Z = false
         | None => True
         end ->
         topo (fst (advance cfg tg k pos dl)) = T
         /\ Static cfg (fst (advance cfg tg k pos dl))
         /\ Inv cfg (fst (advance cfg tg k pos dl)))
  /\ (forall tg k pos d,
         (topo tg = T /\ Static cfg tg /\ Inv cfg tg) ->
         stat tg k = Running pos (Some d) -> (d <? now cfg tg)%Z = true ->
         let tg' := set_stat tg (upd (stat tg) k
                                     (CancelledRunning pos (now cfg tg))) in
         topo tg' = T /\ Static cfg tg' /\ Inv cfg tg')
  /\ (forall tg,
         (topo tg = T /\ Static cfg tg /\ Inv cfg tg) ->
         topo (next_round tg) = T /\ Static cfg (next_round tg)
         /\ Inv cfg (next_round tg)).
Proof.
  split; [| split; [| split]].
  - intros tg H. tauto.
  - intros tg k pos dl (HT & Hst & Hinv) Hcan _. split.
    + rewrite topo_advance. exact HT.
    + apply sound_advance; tauto.
  - intros tg k pos d (HT & Hst & Hinv) Hk Hd. cbv zeta.
    split; [exact HT | split].
    + apply (static_same_topo cfg tg); [reflexivity | exact Hst].
    + apply (inv_expire cfg tg k pos d); assumption.
  - intros tg (HT & Hst & Hinv). split; [exact HT | split].
    + apply (static_same_topo cfg tg); [reflexivity | exact Hst].
    + apply inv_next_round. exact Hinv.
Qed.

Lemma sound_round cfg tg :
  Static cfg tg /\ Inv cfg tg ->
  Static cfg (round cfg tg) /\ Inv cfg (round cfg tg).
Proof.
  intros H.
  destruct (sound_moves cfg (topo tg)) as (M1 & M2 & M3 & M4).
  apply (round_P cfg (topo tg)
           (fun tg' => topo tg' = topo tg /\ Static cfg tg' /\ Inv cfg tg')
           M1 (fun k => proj1 (st_order (proj1 H) (topo tg) k)) M2 M3 M4).
  tauto.
Qed.

Lemma sound_run cfg fuel tg r tg' :
  Static cfg tg /\ Inv cfg tg -> run fuel cfg tg = Some (r, tg') ->
  (topo tg' = topo tg /\ Static cfg tg' /\ Inv cfg tg')
  /\ any_active tg' = false /\ r = outcome_of cfg tg'.
Proof.
  intros H.
  destruct (sound_moves cfg (topo tg)) as (M1 & M2 & M3 & M4).
  apply (run_P cfg (topo tg)
           (fun tg' => topo tg' = topo tg /\ Static cfg tg' /\ Inv cfg tg')
           M1 (fun k => proj1 (st_order (proj1 H) (topo tg) k)) M2 M3 M4).
  tauto.
Qed.

(** The group just constructed satisfies the invariant. *)
Lemma sound_new cfg tg :
  (forall l k, In k (dict_order cfg l) <-> In k l) ->
  DependencyTaskGroup_new cfg = Ok tg ->
  Static cfg tg /\ Inv cfg tg.
Proof.
  intros Hord Hnew. unfold DependencyTaskGroup_new in Hnew.
  destruct (toposort (graph cfg)) as [order | e] eqn:Ht; [| discriminate].
  injection Hnew as Hnew. subst tg.
  destruct (toposort_sorted (graph cfg) order Ht) as (Hs & _ & Hnd).
  split; [constructor; assumption |].
  constructor; [constructor | ..]; cbn [stat trace raised topo].
  - discriminate.
  - intros n. reflexivity.
  - discriminate.
  - intros n m _ l1 l2 i j Heq. destruct l1; discriminate.
  - intros n e. split; [intros [t []] | discriminate].
  - constructor.
  - reflexivity.
  - reflexivity.
  - intros _ H. congruence.
  - discriminate.
  - intros _ n. split; discriminate.
Qed.

End SchedProps.
Module SchedTermination.

Import Dependencies Scheduler SchedulerInv DepsProps TopoProps SchedProps.
Open Scope string_scope.
Open Scope list_scope.
Open Scope nat_scope.

(** *** The work left decreases *)

Lemma work_le cfg st st' l :
  (forall n, In n l -> weight cfg n (st' n) <= weight cfg n (st n)) ->
  work cfg st' l <= work cfg st l.
Proof.
  induction l as [| a l IH]; intros H; cbn [work fold_right]; [lia |].
  fold (work cfg st' l). fold (work cfg st l).
  pose proof (H a (or_introl eq_refl)).
  assert (work cfg st' l <= work cfg st l)
    by (apply IH; intros n Hn; apply H; right; exact Hn).
  lia.
Qed.

Lemma work_lt cfg st st' l k :
  (forall n, In n l -> weight cfg n (st' n) <= weight cfg n (st n)) ->
  In k l -> weight cfg k (st' k) < weight cfg k (st k) ->
  work cfg st' l < work cfg st l.
Proof.
  induction l as [| a l IH]; intros H Hk Hlt; [contradiction |].
  cbn [work fold_right]. fold (work cfg st' l). fold (work cfg st l).
  pose proof (H a (or_introl eq_refl)).
  assert (Hle : work cfg st' l <= work cfg st l)
    by (apply work_le; intros n Hn; apply H; right; exact Hn).
  destruct Hk as [Hk | Hk].
  - subst a. lia.
  - assert (work cfg st' l < work cfg st l)
      by (apply IH; [intros n Hn; apply H; right; exact Hn | exact Hk | exact Hlt]).
    lia.
Qed.

Lemma weight_benign cfg st g n :
  benign st g -> weight cfg n (g n) <= weight cfg n (st n).
Proof.
  intros Hb. destruct (Hb n) as [H | [[H H'] | [(p & dl & dl' & H & H')
                                                 | (p & dl & t & H & H')]]];
    rewrite ?H, ?H'; cbn [weight]; lia.
Qed.

Lemma weight_advance cfg tg k pos dl :
  (stat tg k = Waiting /\ pos = O) \/ stat tg k = Running pos dl ->
  (forall n, weight cfg n (stat (fst (advance cfg tg k pos dl)) n)
             <= weight cfg n (stat tg n))
  /\ weight cfg k (stat (fst (advance cfg tg k pos dl)) k)
     < weight cfg k (stat tg k).
Proof.
  intros Hk.
  assert (Hpos : 0 < weight cfg k (stat tg k))
    by (destruct Hk as [[H _] | H]; rewrite H; cbn; lia).
  unfold advance.
  destruct (nth_error (task cfg k) pos) as [[| e] |] eqn:Hnth; cbn [fst stat set_stat].
  - assert (Hlt : pos < List.length (task cfg k))
      by (apply nth_error_Some; congruence).
    split.
    + intros n. destruct (string_dec n k) as [E | E].
      * subst n. rewrite upd_same.
        destruct Hk as [[H Hp] | H]; rewrite H; cbn [weight]; lia.
      * rewrite upd_other by exact E. lia.
    + rewrite upd_same.
      destruct Hk as [[H Hp] | H]; rewrite H; cbn [weight]; lia.
  - set (tg1 := {| topo := topo tg; stat := upd (stat tg) k (Failed e);
                   trace := trace tg ++ [(k, S pos)];
                   raised := raised tg ++ [(k, e, now cfg tg)];
                   rounds := rounds tg |}).
    assert (Hb : benign (stat tg1)
                   (if aggregate_exceptions cfg then cancel_dependents cfg tg1
                    else cancel_all cfg tg1)).
    { destruct (aggregate_exceptions cfg);
        [apply cancel_dependents_benign | apply cancel_all_benign]. }
    assert (H1 : forall n, weight cfg n (stat tg1 n) <= weight cfg n (stat tg n)).
    { intros n. cbn [tg1 stat]. destruct (string_dec n k) as [E | E].
      - subst n. rewrite upd_same. cbn [weight]. lia.
      - rewrite upd_other by exact E. lia. }
    split.
    + intros n. pose proof (weight_benign cfg _ _ n Hb). pose proof (H1 n). lia.
    + pose proof (weight_benign cfg _ _ k Hb) as H2.
      cbn [tg1 stat] in H2. rewrite upd_same in H2. cbn [weight] in H2.
      fold tg1. lia.
  - split.
    + intros n. destruct (string_dec n k) as [E | E].
      * subst n. rewrite upd_same. cbn [weight]. lia.
      * rewrite upd_other by exact E. lia.
    + rewrite upd_same. cbn [weight]. exact Hpos.
Qed.

Lemma ready_waiting cfg tg k : ready cfg tg k = true -> stat tg k = Waiting.
Proof. unfold ready. destruct (stat tg k); congruence. Qed.

Lemma start_ready_work cfg T ks :
  (forall k, In k ks -> In k T) ->
  forall tg,
    work cfg (stat (fst (start_ready cfg ks tg))) T <= work cfg (stat tg) T
    /\ ((exists k, In k ks /\ ready cfg tg k = true) ->
        work cfg (stat (fst (start_ready cfg ks tg))) T
        < work cfg (stat tg) T).
Proof.
  induction ks as [| k0 ks IH]; intros Hin tg; cbn [start_ready].
  - split; [cbn; lia | intros [k [[] _]]].
  - assert (Hin' : forall k, In k ks -> In k T)
      by (intros k Hk; apply Hin; right; exact Hk).
    destruct (ready cfg tg k0) eqn:Hr.
    + destruct (weight_advance cfg tg k0 O None
                  (or_introl (conj (ready_waiting cfg tg k0 Hr) eq_refl)))
        as [Hle Hlt].
      assert (Hw : work cfg (stat (fst (advance cfg tg k0 O None))) T
                   < work cfg (stat tg) T).
      { apply (work_lt cfg _ _ T k0); [intros n _; apply Hle | | exact Hlt].
        apply Hin. left. reflexivity. }
      destruct (advance cfg tg k0 O None) as [tg' [|]]; cbn [fst] in *.
      * split; [lia | intros _; exact Hw].
      * destruct (IH Hin' tg') as [H1 _]. split; [lia | intros _; lia].
    + destruct (IH Hin' tg) as [H1 H2]. split; [exact H1 |].
      intros [k [[Hk | Hk] Hrk]]; [subst k; congruence |].
      apply H2. exists k. auto.
Qed.

Lemma step_running_work cfg T ks :
  (forall k, In k ks -> In k T) ->
  forall tg,
    work cfg (stat (fst (step_running cfg ks tg))) T <= work cfg (stat tg) T
    /\ ((exists k pos dl, In k ks /\ stat tg k = Running pos dl) ->
        work cfg (stat (fst (step_running cfg ks tg))) T
        < work cfg (stat tg) T).
Proof.
  induction ks as [| k0 ks IH]; intros Hin tg; cbn [step_running].
  - split; [cbn; lia | intros [k [pos [dl [[] _]]]]].
  - assert (Hin' : forall k, In k ks -> In k T)
      by (intros k Hk; apply Hin; right; exact Hk).
    assert (Hk0 : In k0 T) by (apply Hin; left; reflexivity).
    assert (Hskip :
              (forall pos dl, stat tg k0 <> Running pos dl) ->
              work cfg (stat (fst (step_running cfg ks tg))) T
              <= work cfg (stat tg) T
              /\ ((exists k pos dl,
                      In k (k0 :: ks) /\ stat tg k = Running pos dl) ->
                  work cfg (stat (fst (step_running cfg ks tg))) T
                  < work cfg (stat tg) T)).
    { intros Hnr. destruct (IH Hin' tg) as [H1 H2]. split; [exact H1 |].
      intros [k [pos [dl [[Hk | Hk] Hrk]]]];
        [subst k; exfalso; exact (Hnr pos dl Hrk) |].
      apply H2. exists k, pos, dl. auto. }
    destruct (stat tg k0) as [| pos dl | | e | | pos t] eqn:Hs;
      try (apply Hskip; intros; discriminate).
    assert (Hadv :
              work cfg (stat (fst (advance cfg tg k0 pos dl))) T
              < work cfg (stat tg) T ->
              work cfg (stat (fst (match advance cfg tg k0 pos dl with
                                   | (tg', true) => (tg', true)
                                   | (tg', false) => step_running cfg ks tg'
                                   end))) T
              < work cfg (stat tg) T).
    { intros Hw. destruct (advance cfg tg k0 pos dl) as [tg' [|]];
        cbn [fst] in *; [exact Hw |].
      destruct (IH Hin' tg') as [H1 _]. lia. }
    assert (Hw : work cfg (stat (fst (advance cfg tg k0 pos dl))) T
                 < work cfg (stat tg) T).
    { destruct (weight_advance cfg tg k0 pos dl (or_intror Hs)) as [Hle Hlt].
      apply (work_lt cfg _ _ T k0); [intros n _; apply Hle | exact Hk0 | exact Hlt]. }
    destruct dl as [d |].
    + destruct (d <? now cfg tg)%Z.
      * set (tg' := set_stat tg (upd (stat tg) k0
                                     (CancelledRunning pos (now cfg tg)))).
        assert (Hw' : work cfg (stat tg') T < work cfg (stat tg) T).
        { apply (work_lt cfg _ _ T k0); [| exact Hk0 |].
          - intros n _. cbn [tg' set_stat stat].
            destruct (string_dec n k0) as [E | E].
            + subst n. rewrite upd_same, Hs. cbn [weight]. lia.
            + rewrite upd_other by exact E. lia.
          - cbn [tg' set_stat stat]. rewrite upd_same, Hs. cbn [weight]. lia. }
        destruct (IH Hin' tg') as [H1 _]. split; [lia | intros _; lia].
      * specialize (Hadv Hw). split; [lia | intros _; exact Hadv].
    + specialize (Hadv Hw). split; [lia | intros _; exact Hadv].
Qed.

Lemma start_ready_none cfg ks :
  forall tg, (forall k, In k ks -> ready cfg tg k = false) ->
             start_ready cfg ks tg = (tg, false).
Proof.
  induction ks as [| k ks IH]; intros tg H; cbn [start_ready]; [reflexivity |].
  rewrite (H k (or_introl eq_refl)). apply IH.
  intros k' Hk'. apply H. right. exact Hk'.
Qed.

(** *** No deadlock *)

Lemma first_waiting (st : node -> status) l :
  (exists n, In n l /\ st n = Waiting) ->
  exists l1 n l2,
    l = l1 ++ n :: l2 /\ st n = Waiting
    /\ forall x, In x l1 -> st x <> Waiting.
Proof.
  induction l as [| a l IH]; intros [n [Hn Hw]]; [contradiction |].
  destruct (st a) eqn:Ea;
    try (exists [], a, l; repeat split; [assumption | intros x []]).
  all: destruct Hn as [Hn | Hn]; [subst a; congruence |].
  all: destruct (IH (ex_intro _ n (conj Hn Hw))) as (l1 & x & l2 & Hl & Hx & Hb).
  all: exists (a :: l1), x, l2; split; [cbn; rewrite Hl; reflexivity |].
  all: split; [exact Hx |].
  all: intros y [Hy | Hy]; [subst y; congruence | apply Hb, Hy].
Qed.

Lemma no_deadlock cfg tg :
  Static cfg tg -> Inv cfg tg -> any_active tg = true ->
  (exists k, In k (topo tg) /\ ready cfg tg k = true)
  \/ (exists k pos dl, In k (topo tg) /\ stat tg k = Running pos dl).
Proof.
  intros Hst Hinv Hact.
  destruct (existsb (fun n => is_running (stat tg n)) (topo tg)) eqn:Hrun.
  - right. apply existsb_exists in Hrun. destruct Hrun as [k [Hk Hr]].
    destruct (stat tg k) as [| pos dl | | | |] eqn:Es; try discriminate.
    exists k, pos, dl. auto.
  - left.
    assert (Hnr : forall x, In x (topo tg) ->
                            forall pos dl, stat tg x <> Running pos dl).
    { intros x Hx pos dl Hs.
      assert (existsb (fun n => is_running (stat tg n)) (topo tg) = true).
      { apply existsb_exists. exists x. rewrite Hs. auto. }
      congruence. }
    unfold any_active in Hact. apply existsb_exists in Hact.
    destruct Hact as [n0 [Hn0 Ha0]].
    assert (Hw0 : stat tg n0 = Waiting).
    { destruct (stat tg n0) as [| pos dl | | | |] eqn:Es; try discriminate;
        [reflexivity | exfalso; exact (Hnr n0 Hn0 pos dl Es)]. }
    destruct (first_waiting (stat tg) (topo tg)
                (ex_intro _ n0 (conj Hn0 Hw0)))
      as (l1 & n & l2 & Hl & Hw & Hb).
    assert (Hn : In n (topo tg))
      by (rewrite Hl; apply in_or_app; right; left; reflexivity).
    exists n. split; [exact Hn |].
    unfold ready. rewrite Hw. apply forallb_forall. intros m Hm.
    assert (Hm1 : In m l1) by exact (st_sorted Hst l1 n l2 Hl m Hm).
    assert (Hmt : In m (topo tg))
      by (rewrite Hl; apply in_or_app; left; exact Hm1).
    pose proof (inv_alive Hinv n Hn Hw m Hm) as Hd.
    pose proof (Hb m Hm1) as Hmw.
    destruct (stat tg m) as [| pos dl | | | |] eqn:Es; try discriminate;
      try reflexivity; [congruence | exfalso; exact (Hnr m Hmt pos dl Es)].
Qed.

Lemma round_work cfg tg :
  Static cfg tg -> Inv cfg tg -> any_active tg = true ->
  work cfg (stat (round cfg tg)) (topo tg) < work cfg (stat tg) (topo tg).
Proof.
  intros Hst Hinv Hact. unfold round.
  set (order := dict_order cfg (topo tg)).
  assert (Hin : forall k, In k order -> In k (topo tg))
    by (intros k; apply (st_order Hst)).
  destruct (start_ready_work cfg (topo tg) order Hin tg) as [H1 H1s].
  destruct (existsb (ready cfg tg) order) eqn:Hex.
  - apply existsb_exists in Hex.
    specialize (H1s Hex).
    destruct (start_ready cfg order tg) as [tg1 [|]]; cbn [fst] in *;
      cbn [next_round stat]; [exact H1s |].
    destruct (step_running_work cfg (topo tg) order Hin tg1) as [H2 _]. lia.
  - assert (Hnone : forall k, In k order -> ready cfg tg k = false).
    { intros k Hk. destruct (ready cfg tg k) eqn:Hr; [| reflexivity].
      assert (existsb (ready cfg tg) order = true)
        by (apply existsb_exists; eauto).
      congruence. }
    rewrite (start_ready_none cfg order tg Hnone). cbn [next_round stat].
    destruct (step_running_work cfg (topo tg) order Hin tg) as [_ H2].
    apply H2.
    destruct (no_deadlock cfg tg Hst Hinv Hact)
      as [[k [Hk Hr]] | [k [pos [dl [Hk Hs]]]]].
    + rewrite (Hnone k (proj2 (st_order Hst (topo tg) k) Hk)) in Hr.
      discriminate.
    + exists k, pos, dl. split; [| exact Hs].
      apply (st_order Hst). exact Hk.
Qed.

Lemma active_work cfg tg :
  any_active tg = true -> 0 < work cfg (stat tg) (topo tg).
Proof.
  unfold any_active. intros H. apply existsb_exists in H.
  destruct H as [n [Hn Ha]].
  assert (H0 : work cfg (fun _ => Done) (topo tg) < work cfg (stat tg) (topo tg)).
  { apply (work_lt cfg _ _ (topo tg) n); [intros; cbn; lia | exact Hn |].
    destruct (stat tg n); try discriminate; cbn; lia. }
  lia.
Qed.

(** Enough rounds bring every run to its end. *)
Lemma run_terminates cfg :
  forall fuel tg,
    Static cfg tg -> Inv cfg tg ->
    work cfg (stat tg) (topo tg) <= fuel ->
    exists r tg', run fuel cfg tg = Some (r, tg').
Proof.
  induction fuel as [| f IH]; intros tg Hst Hinv Hw; cbn [run].
  - destruct (any_active tg) eqn:Ha; [| eauto].
    pose proof (active_work cfg tg Ha). lia.
  - destruct (any_active tg) eqn:Ha; [| eauto].
    destruct (sound_round cfg tg (conj Hst Hinv)) as [Hst' Hinv'].
    apply IH; [exact Hst' | exact Hinv' |].
    pose proof (round_work cfg tg Hst Hinv Ha).
    rewrite topo_round by (intros k; apply (st_order Hst)). lia.
Qed.

End SchedTermination.

(* ================================================================== *)
(** ** The grace period after a failure *)

Module SchedTimed.

Import Dependencies Scheduler SchedulerInv DepsProps TopoProps SchedProps SchedTermination.
Open Scope nat_scope.

Section Grace.

Variable cfg : Config.
Variable w : Z.

Hypothesis Hagg : aggregate_exceptions cfg = false.
Hypothesis Hwait : forall n, error_wait_time cfg n = Some w.
Hypothesis Hclock : forall r, (wallclock cfg r <= wallclock cfg (S r))%Z.

Lemma timed_resumed tg k pos dl v tr :
  Inv cfg tg -> Timed cfg w tg -> can_resume cfg tg k pos dl ->
  v = Done \/ v = Running (S pos) dl ->
  Timed cfg w {| topo := topo tg; stat := upd (stat tg) k v; trace := tr;
                 raised := raised tg; rounds := rounds tg |}.
Proof.
  intros Hinv Ht [_ Hcan] Hv.
  constructor; unfold now; cbn [stat raised rounds].
  - exact (tm_failures Ht).
  - intros n p d f0 rest Hs Hr. destruct (string_dec n k) as [E | E].
    + subst n. rewrite upd_same in Hs.
      destruct Hv as [Hv | Hv]; subst v; [discriminate |].
      injection Hs as _ Hd. subst dl.
      destruct Hcan as [[Hrd _] | Hk].
      * exfalso. unfold ready in Hrd.
        destruct (stat tg k) eqn:Hk; try discriminate.
        apply (inv_fail_fast Hinv Hagg) with (n := k); [| exact Hk].
        rewrite Hr. discriminate.
      * exact (tm_deadline Ht k pos d f0 rest Hk Hr).
    + rewrite upd_other in Hs by exact E.
      exact (tm_deadline Ht n p d f0 rest Hs Hr).
  - intros n p t Hs. destruct (string_dec n k) as [E | E].
    + subst n. rewrite upd_same in Hs.
      destruct Hv as [Hv | Hv]; subst v; discriminate.
    + rewrite upd_other in Hs by exact E.
      exact (tm_cancelled Ht n p t Hs).
Qed.

Lemma head_in_time tg f0 rest :
  Timed cfg w tg -> raised tg = f0 :: rest -> (snd f0 <= now cfg tg)%Z.
Proof.
  intros Ht Hr. pose proof (tm_failures Ht f0) as H.
  rewrite Hr in H. specialize (H (or_introl eq_refl)). lia.
Qed.

Lemma timed_failed tg k pos dl e :
  Inv cfg tg -> Timed cfg w tg -> can_resume cfg tg k pos dl ->
  nth_error (task cfg k) pos = Some (StepRaise e) ->
  Timed cfg w (fst (advance cfg tg k pos dl)).
Proof.
  intros Hinv Ht [_ Hcan] Hnth. unfold advance. rewrite Hnth. cbv zeta.
  rewrite Hagg. cbn [fst].
  set (tg1 := {| topo := topo tg; stat := upd (stat tg) k (Failed e);
                 trace := trace tg ++ [(k, S pos)];
                 raised := raised tg ++ [(k, e, now cfg tg)];
                 rounds := rounds tg |}).
  assert (Hnow : now cfg tg1 = now cfg tg) by reflexivity.
  constructor; unfold set_stat; cbn [stat raised];
    change (now cfg {| topo := topo tg1; stat := cancel_all cfg tg1;
                       trace := trace tg1; raised := raised tg1;
                       rounds := rounds tg1 |}) with (now cfg tg).
  - intros f Hf. unfold tg1 in *. cbn [raised] in *.
    apply in_app_or in Hf. destruct (raised tg) as [| f0 rest] eqn:Hr.
    + destruct Hf as [[] | [Hf | []]]. subst f. cbn. lia.
    + cbn [app]. pose proof (head_in_time tg f0 rest Ht Hr) as H0.
      destruct Hf as [Hf | [Hf | []]].
      * pose proof (tm_failures Ht f) as H. rewrite Hr in H.
        exact (H Hf).
      * subst f. cbn [snd]. lia.
  - intros n p d f0 rest Hs Hr. unfold cancel_all in Hs.
    rewrite Hnow in Hs. unfold tg1 in Hs, Hr. cbn [stat raised] in Hs, Hr.
    destruct (string_dec n k) as [E | E];
      [subst n; rewrite upd_same in Hs; discriminate |].
    rewrite upd_other in Hs by exact E.
    destruct (stat tg n) as [| p0 dl0 | | e0 | | p0 t0] eqn:Hn;
      try discriminate.
    rewrite Hwait in Hs. injection Hs as Hp Hd. subst p0.
    destruct (raised tg) as [| g0 grest] eqn:Hrt.
    + cbn [app] in Hr. injection Hr as Hf0 _. subst f0. cbn [snd].
      destruct dl0 as [d0 |].
      * destruct (inv_deadline Hinv n p d0 Hn) as [_ Hne].
        exfalso. apply Hne. exact Hrt.
      * subst d. reflexivity.
    + cbn [app] in Hr. injection Hr as Hf0 _. subst g0.
      pose proof (head_in_time tg f0 grest Ht Hrt) as H0.
      pose proof (tm_deadline Ht n p dl0 f0 grest Hn Hrt) as H1.
      subst dl0 d. f_equal. lia.
  - intros n p t Hs. unfold cancel_all in Hs.
    unfold tg1 in Hs. cbn [stat raised] in Hs.
    destruct (string_dec n k) as [E | E];
      [subst n; rewrite upd_same in Hs; discriminate |].
    rewrite upd_other in Hs by exact E.
    destruct (stat tg n) as [| p0 dl0 | | e0 | | p0 t0] eqn:Hn;
      try discriminate.
    + rewrite Hwait in Hs. discriminate.
    + injection Hs as Hp Ht0. subst p0 t0.
      destruct (tm_cancelled Ht n p t Hn) as (f0 & rest & Hr & Hb).
      exists f0, (rest ++ [(k, e, now cfg tg)]). unfold tg1. cbn [raised].
      rewrite Hr. split; [reflexivity | exact Hb].
Qed.

Lemma timed_advance tg k pos dl :
  Inv cfg tg -> Timed cfg w tg -> can_resume cfg tg k pos dl ->
  Timed cfg w (fst (advance cfg tg k pos dl)).
Proof.
  intros Hinv Ht Hcan.
  destruct (nth_error (task cfg k) pos) as [[| e] |] eqn:Hnth.
  - unfold advance. rewrite Hnth. cbn [fst].
    apply (timed_resumed tg k pos dl _ _ Hinv Ht Hcan). right. reflexivity.
  - exact (timed_failed tg k pos dl e Hinv Ht Hcan Hnth).
  - unfold advance. rewrite Hnth. cbn [fst]. unfold set_stat.
    apply (timed_resumed tg k pos dl _ _ Hinv Ht Hcan). left. reflexivity.
Qed.

Lemma timed_expire tg k pos d :
  Inv cfg tg -> Timed cfg w tg ->
  stat tg k = Running pos (Some d) -> (d <? now cfg tg)%Z = true ->
  Timed cfg w (set_stat tg (upd (stat tg) k
                                (CancelledRunning pos (now cfg tg)))).
Proof.
  intros Hinv Ht Hk Hd. apply Z.ltb_lt in Hd.
  constructor; unfold set_stat, now; cbn [stat raised rounds];
    fold (now cfg tg).
  - exact (tm_failures Ht).
  - intros n p d' f0 rest Hs Hr. destruct (string_dec n k) as [E | E].
    + subst n. rewrite upd_same in Hs. discriminate.
    + rewrite upd_other in Hs by exact E.
      exact (tm_deadline Ht n p d' f0 rest Hs Hr).
  - intros n p t Hs. destruct (string_dec n k) as [E | E].
    + subst n. rewrite upd_same in Hs. injection Hs as Hp Ht0. subst p t.
      destruct (inv_deadline Hinv k pos d Hk) as [_ Hne].
      destruct (raised tg) as [| f0 rest] eqn:Hr; [contradiction |].
      exists f0, rest. split; [reflexivity |].
      pose proof (tm_deadline Ht k pos (Some d) f0 rest Hk Hr) as Hd'.
      injection Hd' as Hd'. lia.
    + rewrite upd_other in Hs by exact E.
      exact (tm_cancelled Ht n p t Hs).
Qed.

Lemma timed_next_round tg : Timed cfg w tg -> Timed cfg w (next_round tg).
Proof.
  intros Ht. pose proof (Hclock (rounds tg)) as Hc.
  constructor; unfold next_round, now; cbn [stat raised rounds].
  - intros f Hf. pose proof (tm_failures Ht f Hf) as H. unfold now in H.
    destruct (raised tg); lia.
  - exact (tm_deadline Ht).
  - intros n p t Hs.
    destruct (tm_cancelled Ht n p t Hs) as (f0 & rest & Hr & Hb).
    exists f0, rest. unfold now in Hb. split; [exact Hr | lia].
Qed.

(** The predicate carried through a run with a grace period. *)
Lemma grace_moves T :
  let P := fun tg => topo tg = T /\ Static cfg tg /\ Inv cfg tg
                     /\ Timed cfg w tg in
  (forall tg, P tg -> topo tg = T)
  /\ (forall tg k pos dl,
         P tg -> can_resume cfg tg k pos dl ->
         match dl with
         | Some d => (d <? now cfg tg)%Z = false
         | None => True
         end ->
         P (fst (advance cfg tg k pos dl)))
  /\ (forall tg k pos d,
         P tg -> stat tg k = Running pos (Some d) ->
         (d <? now cfg tg)%Z = true ->
         P (set_stat tg (upd (stat tg) k
                             (CancelledRunning pos (now cfg tg)))))
  /\ (forall tg, P tg -> P (next_round tg)).
Proof.
  destruct (sound_moves cfg T) as (M1 & M2 & M3 & M4).
  cbv zeta. split; [| split; [| split]].
  - tauto.
  - intros tg0 k pos dl (HT & Hs0 & Hi0 & Ht0) Hcan Hd.
    destruct (M2 tg0 k pos dl (conj HT (conj Hs0 Hi0)) Hcan Hd)
      as (A & B & C).
    repeat (split; [assumption |]). apply timed_advance; assumption.
  - intros tg0 k pos d (HT & Hs0 & Hi0 & Ht0) Hk Hd.
    destruct (M3 tg0 k pos d (conj HT (conj Hs0 Hi0)) Hk Hd) as (A & B & C).
    repeat (split; [assumption |]).
    apply (timed_expire tg0 k pos d); assumption.
  - intros tg0 (HT & Hs0 & Hi0 & Ht0).
    destruct (M4 tg0 (conj HT (conj Hs0 Hi0))) as (A & B & C).
    repeat (split; [assumption |]). apply timed_next_round. exact Ht0.
Qed.

Lemma timed_round tg :
  Static cfg tg -> Inv cfg tg -> Timed cfg w tg ->
  Static cfg (round cfg tg) /\ Inv cfg (round cfg tg)
  /\ Timed cfg w (round cfg tg).
Proof.
  intros Hst Hinv Ht.
  destruct (grace_moves (topo tg)) as (M1 & M2 & M3 & M4).
  apply (round_P cfg (topo tg) _ M1 (fun k => proj1 (st_order Hst (topo tg) k))
           M2 M3 M4).
  tauto.
Qed.

(** A run keeps the invariant and the timing facts. *)
Lemma timed_run fuel tg r tg' :
  Static cfg tg -> Inv cfg tg -> Timed cfg w tg ->
  run fuel cfg tg = Some (r, tg') ->
  (topo tg' = topo tg /\ Static cfg tg' /\ Inv cfg tg' /\ Timed cfg w tg')
  /\ any_active tg' = false /\ r = outcome_of cfg tg'.
Proof.
  intros Hst Hinv Ht.
  destruct (grace_moves (topo tg)) as (M1 & M2 & M3 & M4).
  apply (run_P cfg (topo tg) _ M1 (fun k => proj1 (st_order Hst (topo tg) k))
           M2 M3 M4).
  tauto.
Qed.

Lemma timed_after_rounds j tg :
  Static cfg tg -> Inv cfg tg -> Timed cfg w tg ->
  Static cfg (after_rounds cfg j tg) /\ Inv cfg (after_rounds cfg j tg)
  /\ Timed cfg w (after_rounds cfg j tg).
Proof.
  intros Hst Hinv Ht. induction j as [| j IH]; [cbn; tauto |].
  change (after_rounds cfg (S j) tg)
    with (round cfg (after_rounds cfg j tg)).
  apply timed_round; tauto.
Qed.

(** *** Once the grace period is over *)

(** When the deadline of every node in progress has passed, a pass over
    the runners cancels those it visits and resumes none. *)
Lemma step_running_expired ks :
  forall tg,
    (forall n pos dl, stat tg n = Running pos dl ->
                      exists d, dl = Some d /\ (d <? now cfg tg)%Z = true) ->
    (forall n, is_running (stat (fst (step_running cfg ks tg)) n) = true ->
               is_running (stat tg n) = true /\ ~ In n ks)
    /\ (forall n, stat (fst (step_running cfg ks tg)) n = Waiting ->
                  stat tg n = Waiting).
Proof.
  induction ks as [| k ks IH]; intros tg Hexp; cbn [step_running].
  - cbn [fst]. split; [intros n H; split; [exact H | intros []] | auto].
  - destruct (stat tg k) as [| pos dl | | e | | pos t] eqn:Hk.
    2: {
      destruct (Hexp k pos dl Hk) as [d [Hdl Hd]]. subst dl. rewrite Hd.
      set (tg' := set_stat tg (upd (stat tg) k
                                   (CancelledRunning pos (now cfg tg)))).
      assert (Hexp' : forall n p dl, stat tg' n = Running p dl ->
                exists d', dl = Some d' /\ (d' <? now cfg tg')%Z = true).
      { intros n p dl Hn. unfold tg' in Hn. cbn [set_stat stat] in Hn.
        destruct (string_dec n k) as [E | E];
          [subst n; rewrite upd_same in Hn; discriminate |].
        rewrite upd_other in Hn by exact E. exact (Hexp n p dl Hn). }
      destruct (IH tg' Hexp') as [A B]. split.
      - intros n Hn. destruct (A n Hn) as [Hr Hnin].
        unfold tg' in Hr. cbn [set_stat stat] in Hr.
        destruct (string_dec n k) as [E | E];
          [subst n; rewrite upd_same in Hr; discriminate |].
        rewrite upd_other in Hr by exact E.
        split; [exact Hr | intros [H | H]; [congruence | exact (Hnin H)]].
      - intros n Hn. specialize (B n Hn).
        unfold tg' in B. cbn [set_stat stat] in B.
        destruct (string_dec n k) as [E | E];
          [subst n; rewrite upd_same in B; discriminate |].
        rewrite upd_other in B by exact E. exact B. }
    all: destruct (IH tg Hexp) as [A B]; split; [| exact B];
      intros n Hn; destruct (A n Hn) as [Hr Hnin];
      (split; [exact Hr |]); intros [H | H]; [| exact (Hnin H)];
      subst n; rewrite Hk in Hr; discriminate.
Qed.

(** The round in which the clock has passed the grace period is the
    last one. *)
Lemma expired_round tg f0 rest :
  Static cfg tg -> Inv cfg tg -> Timed cfg w tg ->
  raised tg = f0 :: rest -> (snd f0 + w < now cfg tg)%Z ->
  any_active (round cfg tg) = false.
Proof.
  intros Hst Hinv Ht Hr Hlt.
  assert (Hne : raised tg <> []) by (rewrite Hr; discriminate).
  pose proof (inv_fail_fast Hinv Hagg Hne) as Hnw.
  unfold any_active.
  rewrite topo_round by (intros k; apply (st_order Hst)).
  unfold round. rewrite start_ready_none.
  2: { intros k _. unfold ready. specialize (Hnw k).
       destruct (stat tg k); try reflexivity. contradiction. }
  cbn [next_round stat].
  destruct (step_running_expired (dict_order cfg (topo tg)) tg) as [A B].
  { intros n pos dl Hn. exists (snd f0 + w)%Z. split.
    - exact (tm_deadline Ht n pos dl f0 rest Hn Hr).
    - apply Z.ltb_lt. exact Hlt. }
  destruct (existsb _ (topo tg)) eqn:He; [| reflexivity].
  apply existsb_exists in He. destruct He as [n [Hn Ha]].
  destruct (stat (fst (step_running cfg (dict_order cfg (topo tg)) tg)) n)
    as [| pos dl | | e | | pos t] eqn:Hs; try discriminate.
  - exfalso. exact (Hnw n (B n Hs)).
  - exfalso. destruct (A n) as [_ Hnin]; [rewrite Hs; reflexivity |].
    apply Hnin. apply (st_order Hst). exact Hn.
Qed.

End Grace.

Lemma timed_new cfg w tg :
  DependencyTaskGroup_new cfg = Ok tg -> Timed cfg w tg.
Proof.
  unfold DependencyTaskGroup_new. intros H.
  destruct (toposort (graph cfg)) as [order | e]; [| discriminate].
  injection H as H. subst tg.
  constructor; cbn [stat raised].
  - intros f [].
  - discriminate.
  - discriminate.
Qed.

(** *** Rounds *)

Lemma rounds_advance cfg tg k pos dl :
  rounds (fst (advance cfg tg k pos dl)) = rounds tg.
Proof.
  unfold advance. destruct (nth_error (task cfg k) pos) as [[| e] |];
    reflexivity.
Qed.

Lemma rounds_start_ready cfg ks :
  forall tg, rounds (fst (start_ready cfg ks tg)) = rounds tg.
Proof.
  induction ks as [| k ks IH]; intros tg; cbn [start_ready]; [reflexivity |].
  destruct (ready cfg tg k); [| apply IH].
  pose proof (rounds_advance cfg tg k O None) as H.
  destruct (advance cfg tg k O None) as [tg' [|]]; cbn [fst] in *;
    [exact H | rewrite IH; exact H].
Qed.

Lemma rounds_step_running cfg ks :
  forall tg, rounds (fst (step_running cfg ks tg)) = rounds tg.
Proof.
  induction ks as [| k ks IH]; intros tg; cbn [step_running]; [reflexivity |].
  destruct (stat tg k) as [| pos dl | | e | | pos t]; try apply IH.
  destruct (match dl with Some d => (d <? now cfg tg)%Z | None => false end);
    [rewrite IH; reflexivity |].
  pose proof (rounds_advance cfg tg k pos dl) as H.
  destruct (advance cfg tg k pos dl) as [tg' [|]]; cbn [fst] in *;
    [exact H | rewrite IH; exact H].
Qed.

Lemma rounds_round cfg tg : rounds (round cfg tg) = S (rounds tg).
Proof.
  unfold round.
  pose proof (rounds_start_ready cfg (dict_order cfg (topo tg)) tg) as H.
  destruct (start_ready cfg (dict_order cfg (topo tg)) tg) as [tg1 [|]];
    cbn [fst] in H; cbn [next_round rounds]; [congruence |].
  rewrite rounds_step_running. congruence.
Qed.

Lemma rounds_after cfg j tg :
  rounds (after_rounds cfg j tg) = j + rounds tg.
Proof.
  induction j as [| j IH]; [reflexivity |].
  change (after_rounds cfg (S j) tg)
    with (round cfg (after_rounds cfg j tg)).
  rewrite rounds_round, IH. reflexivity.
Qed.

(** If no runner is left after [j] rounds, [j] rounds of fuel are enough. *)
Lemma run_after cfg j :
  forall tg, any_active (after_rounds cfg j tg) = false ->
             exists r tg', run j cfg tg = Some (r, tg').
Proof.
  induction j as [| j IH]; intros tg H; cbn [run].
  - cbn in H. rewrite H. eauto.
  - destruct (any_active tg); [| eauto].
    apply IH. unfold after_rounds in *. rewrite Nat.iter_succ_r in H.
    exact H.
Qed.

End SchedTimed.

(* ================================================================== *)
(** ** No exception is lost *)

Module SchedRecorded.

Import Dependencies Scheduler SchedulerInv DepsProps TopoProps SchedProps.
Open Scope nat_scope.

Lemma resumable_not_failed cfg tg k pos dl e :
  can_resume cfg tg k pos dl -> stat tg k <> Failed e.
Proof.
  intros [_ [[Hr _] | Hr]] Hf.
  - unfold ready in Hr. rewrite Hf in Hr. discriminate.
  - rewrite Hf in Hr. discriminate.
Qed.

(** A change of status of a node that has not failed keeps what the
    trace records. *)
Lemma recorded_upd cfg tg k v rs rd :
  Recorded cfg tg -> (forall e, stat tg k <> Failed e) ->
  Recorded cfg {| topo := topo tg; stat := upd (stat tg) k v;
                  trace := trace tg; raised := rs; rounds := rd |}
  /\ forall n p, In (n, S p) (trace tg) ->
       nth_error (task cfg n) p = Some StepOk
       \/ exists e, nth_error (task cfg n) p = Some (StepRaise e)
                    /\ upd (stat tg) k v n = Failed e.
Proof.
  intros Hrec Hk.
  assert (H : forall n p, In (n, S p) (trace tg) ->
       nth_error (task cfg n) p = Some StepOk
       \/ exists e, nth_error (task cfg n) p = Some (StepRaise e)
                    /\ upd (stat tg) k v n = Failed e).
  { intros n p Hin. destruct (Hrec n p Hin) as [Hok | (e & Hn & Hs)];
      [left; exact Hok | right].
    exists e. split; [exact Hn |].
    destruct (string_dec n k) as [E | E];
      [subst n; exfalso; exact (Hk e Hs) |].
    rewrite upd_other by exact E. exact Hs. }
  split; [exact H | exact H].
Qed.

Lemma recorded_advance cfg tg k pos dl :
  Recorded cfg tg -> can_resume cfg tg k pos dl ->
  Recorded cfg (fst (advance cfg tg k pos dl)).
Proof.
  intros Hrec Hcan.
  assert (Hk : forall e, stat tg k <> Failed e)
    by (intros e; exact (resumable_not_failed cfg tg k pos dl e Hcan)).
  unfold advance.
  destruct (nth_error (task cfg k) pos) as [[| e] |] eqn:Hnth; cbn [fst].
  - intros n p Hin. cbn [trace stat] in *.
    apply in_app_or in Hin. destruct Hin as [Hin | [Hin | []]].
    + exact (proj2 (recorded_upd cfg tg k _ (raised tg)
                      (rounds tg) Hrec Hk) n p Hin).
    + injection Hin as <- <-. left. exact Hnth.
  - set (tg1 := {| topo := topo tg; stat := upd (stat tg) k (Failed e);
                   trace := trace tg ++ [(k, S pos)];
                   raised := raised tg ++ [(k, e, now cfg tg)];
                   rounds := rounds tg |}).
    assert (Hb : benign (stat tg1)
                   (if aggregate_exceptions cfg
                    then cancel_dependents cfg tg1 else cancel_all cfg tg1)).
    { destruct (aggregate_exceptions cfg);
        [apply cancel_dependents_benign | apply cancel_all_benign]. }
    intros n p Hin. unfold set_stat in *. cbn [trace stat] in *.
    unfold tg1 in Hin. cbn [trace] in Hin.
    apply in_app_or in Hin. destruct Hin as [Hin | [Hin | []]].
    + destruct (proj2 (recorded_upd cfg tg k (Failed e) (raised tg)
                         (rounds tg) Hrec Hk) n p Hin)
        as [Hok | (e' & Hn & Hs)]; [left; exact Hok | right].
      exists e'. split; [exact Hn |].
      apply (benign_failed _ _ n e' Hb). exact Hs.
    + injection Hin as <- <-. right. exists e. split; [exact Hnth |].
      apply (benign_failed _ _ k e Hb). unfold tg1. cbn [stat].
      apply upd_same.
  - exact (proj1 (recorded_upd cfg tg k Done (raised tg)
                    (rounds tg) Hrec Hk)).
Qed.

Lemma recorded_moves cfg T :
  let P := fun tg => topo tg = T /\ Static cfg tg /\ Inv cfg tg
                     /\ Recorded cfg tg in
  (forall tg, P tg -> topo tg = T)
  /\ (forall tg k pos dl,
         P tg -> can_resume cfg tg k pos dl ->
         match dl with
         | Some d => (d <? now cfg tg)%Z = false
         | None => True
         end ->
         P (fst (advance cfg tg k pos dl)))
  /\ (forall tg k pos d,
         P tg -> stat tg k = Running pos (Some d) ->
         (d <? now cfg tg)%Z = true ->
         P (set_stat tg (upd (stat tg) k
                             (CancelledRunning pos (now cfg tg)))))
  /\ (forall tg, P tg -> P (next_round tg)).
Proof.
  destruct (sound_moves cfg T) as (M1 & M2 & M3 & M4).
  cbv zeta. split; [| split; [| split]].
  - tauto.
  - intros tg0 k pos dl (HT & Hs0 & Hi0 & Hr0) Hcan Hd.
    destruct (M2 tg0 k pos dl (conj HT (conj Hs0 Hi0)) Hcan Hd)
      as (A & B & C).
    repeat (split; [assumption |]). apply recorded_advance; assumption.
  - intros tg0 k pos d (HT & Hs0 & Hi0 & Hr0) Hk Hd.
    destruct (M3 tg0 k pos d (conj HT (conj Hs0 Hi0)) Hk Hd) as (A & B & C).
    repeat (split; [assumption |]).
    apply (recorded_upd cfg tg0 k _ (raised tg0) (rounds tg0) Hr0).
    intros e He. rewrite He in Hk. discriminate.
  - intros tg0 (HT & Hs0 & Hi0 & Hr0).
    destruct (M4 tg0 (conj HT (conj Hs0 Hi0))) as (A & B & C).
    repeat (split; [assumption |]). exact Hr0.
Qed.

(** At the end of a run every call that raised is accounted for. *)
Lemma recorded_run cfg fuel tg r tg' :
  Static cfg tg -> Inv cfg tg -> Recorded cfg tg ->
  run fuel cfg tg = Some (r, tg') -> Recorded cfg tg'.
Proof.
  intros Hst Hinv Hrec Hrun.
  destruct (recorded_moves cfg (topo tg)) as (M1 & M2 & M3 & M4).
  apply (run_P cfg (topo tg) _ M1 (fun k => proj1 (st_order Hst (topo tg) k))
           M2 M3 M4 fuel tg r tg'); [tauto | exact Hrun].
Qed.

Lemma recorded_new cfg tg : DependencyTaskGroup_new cfg = Ok tg -> Recorded cfg tg.
Proof.
  unfold DependencyTaskGroup_new. intros H.
  destruct (toposort (graph cfg)) as [order | e]; [| discriminate].
  injection H as <-. intros n p [].
Qed.

End SchedRecorded.

(* ================================================================== *)
(** ** What a run of a task group guarantees *)

Module SchedFacts.

Import Dependencies Scheduler SchedulerInv DepsProps TopoProps SchedProps
       SchedTermination SchedTimed.
Open Scope nat_scope.
Open Scope string_scope.
Open Scope list_scope.

(** A group that could be constructed runs to its end. *)
Lemma run_result cfg tg0 :
  (forall l k, In k (dict_order cfg l) <-> In k l) ->
  DependencyTaskGroup_new cfg = Ok tg0 ->
  exists fuel tg, run fuel cfg tg0 = Some (outcome_of cfg tg, tg).
Proof.
  intros Hord Hnew. destruct (sound_new cfg tg0 Hord Hnew) as [Hst Hinv].
  destruct (run_terminates cfg _ tg0 Hst Hinv (le_n _)) as (r & tg & Hrun).
  exists (work cfg (stat tg0) (topo tg0)), tg.
  destruct (sound_run cfg _ tg0 r tg (conj Hst Hinv) Hrun) as (_ & _ & Hr).
  rewrite Hrun, Hr. reflexivity.
Qed.

(** *** The direction of the traversal *)

Lemma graph_forward cfg : reverse cfg = false -> graph cfg = deps cfg.
Proof. unfold graph. intros ->. reflexivity. Qed.

Lemma graph_reverse cfg :
  reverse cfg = true -> graph cfg = reversed (deps cfg).
Proof. unfold graph. intros ->. reflexivity. Qed.

Lemma depends_on_snoc d n m k :
  depends_on d n m -> In k (requires d m) -> depends_on d n k.
Proof.
  induction 1 as [n m Hm | n x m Hx _ IH]; intros Hk.
  - apply depends_trans with (m := m);
      [exact Hm | apply depends_direct; exact Hk].
  - apply depends_trans with (m := x); [exact Hx | exact (IH Hk)].
Qed.

Lemma depends_on_flip d n k :
  depends_on d n k -> depends_on (reversed d) k n.
Proof.
  induction 1 as [n k Hk | n m k Hm _ IH].
  - apply depends_direct. apply requires_reversed. exact Hk.
  - apply depends_on_snoc with (m := m); [exact IH |].
    apply requires_reversed. exact Hm.
Qed.

Lemma depends_on_reversed d n k :
  depends_on (reversed d) n k <-> depends_on d k n.
Proof.
  split; intros H.
  - rewrite <- (reversed_reversed d). apply depends_on_flip. exact H.
  - apply depends_on_flip. exact H.
Qed.

(** To wait for a node is to depend on it in the graph as traversed. *)
Lemma waits_for_graph cfg n k :
  waits_for cfg n k <-> depends_on (graph cfg) n k.
Proof.
  unfold waits_for, graph. destruct (reverse cfg); [| reflexivity].
  symmetry. apply depends_on_reversed.
Qed.

Lemma has_cycle_graph cfg : has_cycle (graph cfg) <-> has_cycle (deps cfg).
Proof.
  unfold graph. destruct (reverse cfg); [| reflexivity].
  apply has_cycle_reversed.
Qed.

Lemma new_rounds cfg tg0 :
  DependencyTaskGroup_new cfg = Ok tg0 -> rounds tg0 = 0.
Proof.
  unfold DependencyTaskGroup_new. destruct (toposort (graph cfg)); intros H;
    [injection H as <-; reflexivity | discriminate].
Qed.

Lemma new_topo cfg tg0 order :
  DependencyTaskGroup_new cfg = Ok tg0 -> toposort (graph cfg) = Ok order ->
  topo tg0 = order.
Proof.
  unfold DependencyTaskGroup_new. intros H E. rewrite E in H.
  injection H as <-. reflexivity.
Qed.

Lemma final_inactive tg n :
  any_active tg = false -> In n (topo tg) -> active (stat tg n) = false.
Proof.
  unfold any_active. intros H Hn.
  destruct (active (stat tg n)) eqn:Ha; [| reflexivity].
  rewrite <- H. symmetry. apply existsb_exists. exists n. auto.
Qed.

Lemma calls_started cfg tg b :
  Core cfg tg -> calls_of b (trace tg) <> [] -> started (stat tg b) = true.
Proof.
  intros Hcore Hb.
  destruct (calls_of b (trace tg)) as [| [n j] l] eqn:Hc; [contradiction |].
  assert (Hin : In (n, j) (calls_of b (trace tg)))
    by (rewrite Hc; left; reflexivity).
  unfold calls_of in Hin. apply filter_In in Hin. destruct Hin as [Hin Hn].
  cbn in Hn. apply String.eqb_eq in Hn. subst n.
  exact (called_started cfg tg b j (inv_calls Hcore) Hin).
Qed.

(** A node is complete before a node that requires it begins. *)
Lemma completes_before_requires cfg tg a b :
  Core cfg tg -> In a (requires (graph cfg) b) ->
  completes_before cfg a b (trace tg).
Proof.
  intros Hcore Hab. split.
  - apply (inv_order Hcore b a). apply depends_direct. exact Hab.
  - intros Hb.
    pose proof (inv_started Hcore b (calls_started cfg tg b Hcore Hb) a Hab)
      as Ha.
    pose proof (inv_calls Hcore a) as Hc. unfold calls_ok in Hc.
    rewrite Ha in Hc. exact Hc.
Qed.

(** *** When no action raises *)

Lemma no_raise_clean cfg tg : Inv cfg tg -> no_raise cfg -> raised tg = [].
Proof.
  intros Hinv Hno.
  destruct (raised tg) as [| [[n e] t] rest] eqn:Hr; [reflexivity |].
  exfalso.
  assert (Hf : stat tg n = Failed e).
  { apply (inv_raised (inv_core Hinv) n e). exists t. rewrite Hr.
    left. reflexivity. }
  pose proof (inv_calls (inv_core Hinv) n) as Hc. unfold calls_ok in Hc.
  rewrite Hf in Hc. destruct Hc as [p [_ Hp]]. exact (Hno n p e Hp).
Qed.

Lemma no_raise_all_done cfg tg n :
  Inv cfg tg -> no_raise cfg -> any_active tg = false -> In n (topo tg) ->
  calls_of n (trace tg) = steps n (List.length (task cfg n)).
Proof.
  intros Hinv Hno Hact Hn.
  pose proof (inv_clean Hinv (no_raise_clean cfg tg Hinv Hno) n) as Hd.
  pose proof (final_inactive tg n Hact Hn) as Ha.
  pose proof (inv_calls (inv_core Hinv) n) as Hc. unfold calls_ok in Hc.
  destruct (stat tg n); try discriminate. exact Hc.
Qed.

(** *** The shape of an ordered trace *)

Lemma all_before_tail a b ev tr :
  all_before a b (ev :: tr) -> all_before a b tr.
Proof.
  intros H l1 l2 i j E. apply (H (ev :: l1) l2 i j). rewrite E. reflexivity.
Qed.

Lemma all_before_filter f a b tr :
  all_before a b tr -> all_before a b (filter f tr).
Proof.
  induction tr as [| ev tr IH]; intros H; cbn [filter].
  - exact H.
  - pose proof (IH (all_before_tail a b ev tr H)) as IH'.
    destruct (f ev); [| exact IH'].
    intros l1 l2 i j E Hin. destruct l1 as [| x l1]; cbn [app] in E.
    + injection E as Hev Hl2. subst ev l2.
      apply filter_In in Hin. destruct Hin as [Hin _].
      exact (H [] tr i j eq_refl Hin).
    + injection E as _ E. exact (IH' l1 l2 i j E Hin).
Qed.

Lemma calls_of_cons n x j tr :
  calls_of n ((x, j) :: tr)
  = if String.eqb x n then (x, j) :: calls_of n tr else calls_of n tr.
Proof. reflexivity. Qed.

Lemma others_cons a x j tr :
  others a ((x, j) :: tr)
  = if String.eqb x a then others a tr else (x, j) :: others a tr.
Proof.
  unfold others. cbn [filter fst]. destruct (String.eqb x a); reflexivity.
Qed.

Lemma no_calls a tr :
  (forall i, ~ In (a, i) tr) -> calls_of a tr = [] /\ others a tr = tr.
Proof.
  induction tr as [| [n j] tr IH]; intros H; [split; reflexivity |].
  destruct IH as [IH1 IH2].
  { intros i Hi. apply (H i). right. exact Hi. }
  rewrite calls_of_cons, others_cons.
  destruct (String.eqb n a) eqn:E.
  - apply String.eqb_eq in E. subst n. exfalso. apply (H j).
    left. reflexivity.
  - rewrite IH1, IH2. split; reflexivity.
Qed.

Lemma only_calls d tr :
  (forall b i, In (b, i) tr -> b = d) -> others d tr = [] /\ calls_of d tr = tr.
Proof.
  induction tr as [| [n j] tr IH]; intros H; [split; reflexivity |].
  destruct IH as [IH1 IH2].
  { intros b i Hi. apply (H b i). right. exact Hi. }
  rewrite calls_of_cons, others_cons.
  rewrite (H n j (or_introl eq_refl)), String.eqb_refl, IH1, IH2.
  split; reflexivity.
Qed.

(** The calls for a node that precedes all the others come first. *)
Lemma split_first a tr :
  (forall b j, In (b, j) tr -> b <> a -> all_before a b tr) ->
  tr = calls_of a tr ++ others a tr.
Proof.
  induction tr as [| [n j] tr IH]; intros H; [reflexivity |].
  rewrite calls_of_cons, others_cons.
  destruct (String.eqb n a) eqn:E.
  - cbn [app]. f_equal. apply IH. intros b i Hb Hne.
    apply (all_before_tail a b (n, j)).
    apply (H b i); [right; exact Hb | exact Hne].
  - assert (Hne : n <> a) by (apply String.eqb_neq; exact E).
    pose proof (H n j (or_introl eq_refl) Hne) as Hb.
    destruct (no_calls a tr) as [H1 H2].
    { intros i Hi. exact (Hb [] tr i j eq_refl Hi). }
    rewrite H1, H2. reflexivity.
Qed.

(** The calls for a node that follows all the others come last. *)
Lemma split_last d tr :
  (forall b j, In (b, j) tr -> b <> d -> all_before b d tr) ->
  tr = others d tr ++ calls_of d tr.
Proof.
  induction tr as [| [n j] tr IH]; intros H; [reflexivity |].
  rewrite calls_of_cons, others_cons.
  destruct (String.eqb n d) eqn:E.
  - apply String.eqb_eq in E. subst n.
    destruct (only_calls d tr) as [H1 H2].
    { intros b i Hb. destruct (string_dec b d) as [Hbd | Hbd]; [exact Hbd |].
      exfalso. exact (H b i (or_intror Hb) Hbd [] tr i j eq_refl Hb). }
    rewrite H1, H2. reflexivity.
  - cbn [app]. f_equal. apply IH. intros b i Hb Hne.
    apply (all_before_tail b d (n, j)).
    apply (H b i); [right; exact Hb | exact Hne].
Qed.

Lemma calls_of_others n a tr :
  n <> a -> calls_of n (others a tr) = calls_of n tr.
Proof.
  intros Hne. induction tr as [| [x j] tr IH]; [reflexivity |].
  rewrite others_cons, calls_of_cons.
  destruct (String.eqb x a) eqn:Ea.
  - apply String.eqb_eq in Ea. subst x.
    assert (E : String.eqb a n = false) by (apply String.eqb_neq; congruence).
    rewrite E. exact IH.
  - rewrite calls_of_cons. destruct (String.eqb x n); [f_equal |]; exact IH.
Qed.

Lemma in_others a n j tr :
  In (n, j) (others a tr) <-> In (n, j) tr /\ n <> a.
Proof.
  unfold others. rewrite filter_In. cbn [fst].
  rewrite Bool.negb_true_iff, String.eqb_neq. tauto.
Qed.

(** Three nodes in a row. *)
Lemma trace_three a b c tr :
  a <> b -> a <> c -> b <> c ->
  (forall n j, In (n, j) tr -> n = a \/ n = b \/ n = c) ->
  all_before a b tr -> all_before a c tr -> all_before b c tr ->
  tr = calls_of a tr ++ calls_of b tr ++ calls_of c tr.
Proof.
  intros Hab Hac Hbc Hall H1 H2 H3.
  rewrite (split_first a tr) at 1.
  2: { intros n j Hin Hne.
       destruct (Hall n j Hin) as [E | [E | E]]; subst n;
         [contradiction | exact H1 | exact H2]. }
  f_equal.
  rewrite (split_first b (others a tr)) at 1.
  2: { intros n j Hin Hne. apply in_others in Hin. destruct Hin as [Hin Hna].
       destruct (Hall n j Hin) as [E | [E | E]]; subst n;
         try contradiction.
       apply all_before_filter. exact H3. }
  rewrite (calls_of_others b a tr) by congruence. f_equal.
  rewrite <- (calls_of_others c a tr) by congruence.
  rewrite <- (calls_of_others c b (others a tr)) by congruence.
  symmetry. apply only_calls. intros n j Hin.
  apply in_others in Hin. destruct Hin as [Hin Hnb].
  apply in_others in Hin. destruct Hin as [Hin Hna].
  destruct (Hall n j Hin) as [E | [E | E]]; subst n; try contradiction.
  reflexivity.
Qed.

(** A first node, two nodes in any order, and a last node. *)
Lemma trace_diamond a b1 b2 d tr :
  a <> b1 -> a <> b2 -> a <> d -> b1 <> d -> b2 <> d ->
  (forall n j, In (n, j) tr -> n = a \/ n = b1 \/ n = b2 \/ n = d) ->
  all_before a b1 tr -> all_before a b2 tr -> all_before a d tr ->
  all_before b1 d tr -> all_before b2 d tr ->
  exists mid,
    tr = calls_of a tr ++ mid ++ calls_of d tr
    /\ calls_of b1 mid = calls_of b1 tr
    /\ calls_of b2 mid = calls_of b2 tr
    /\ forall ev, In ev mid -> fst ev = b1 \/ fst ev = b2.
Proof.
  intros Hab1 Hab2 Had Hb1d Hb2d Hall H1 H2 H3 H4 H5.
  exists (others d (others a tr)). split; [| split; [| split]].
  - rewrite (split_first a tr) at 1.
    2: { intros n j Hin Hne.
         destruct (Hall n j Hin) as [E | [E | [E | E]]]; subst n;
           [contradiction | exact H1 | exact H2 | exact H3]. }
    f_equal.
    rewrite (split_last d (others a tr)) at 1.
    2: { intros n j Hin Hne. apply in_others in Hin.
         destruct Hin as [Hin Hna].
         destruct (Hall n j Hin) as [E | [E | [E | E]]]; subst n;
           try contradiction; apply all_before_filter; assumption. }
    rewrite (calls_of_others d a tr) by congruence. reflexivity.
  - rewrite !calls_of_others by congruence. reflexivity.
  - rewrite !calls_of_others by congruence. reflexivity.
  - intros [n j] Hin. cbn [fst].
    apply in_others in Hin. destruct Hin as [Hin Hnd].
    apply in_others in Hin. destruct Hin as [Hin Hna].
    destruct (Hall n j Hin) as [E | [E | [E | E]]]; subst n;
      try contradiction; auto.
Qed.

(** *** After a failure *)

(** A node that depends on a failed node was never started. *)
Lemma failed_blocks cfg tg n k e :
  Core cfg tg -> stat tg k = Failed e -> depends_on (graph cfg) n k ->
  calls_of n (trace tg) = [].
Proof.
  intros Hcore Hk Hdep.
  assert (Hs : started (stat tg n) = false).
  { destruct (started (stat tg n)) eqn:Hs; [| reflexivity].
    rewrite (started_deps_done cfg tg n k Hcore Hdep Hs) in Hk.
    discriminate. }
  pose proof (inv_calls Hcore n) as Hc. unfold calls_ok in Hc.
  destruct (stat tg n); try discriminate; exact Hc.
Qed.

(** With aggregation, a cancelled node depends on a failed one. *)
Lemma cancelled_has_failed cfg tg :
  Static cfg tg -> Inv cfg tg -> aggregate_exceptions cfg = true ->
  forall len l1 n l2,
    List.length l1 < len -> topo tg = l1 ++ n :: l2 ->
    stat tg n = CancelledWaiting ->
    exists k e, stat tg k = Failed e /\ depends_on (graph cfg) n k.
Proof.
  intros Hst Hinv Hagg.
  induction len as [| len IH]; intros l1 n l2 Hlen Htopo Hn; [lia |].
  destruct (proj1 (inv_cancelled Hinv Hagg n) Hn) as [m [Hm Hd]].
  destruct (stat tg m) as [| p dl | | e | | p t] eqn:Hsm; try discriminate.
  - exists m, e. split; [exact Hsm | apply depends_direct; exact Hm].
  - pose proof (st_sorted Hst l1 n l2 Htopo m Hm) as Hin.
    apply in_split in Hin. destruct Hin as [la [lb Hl1]].
    destruct (IH la m (lb ++ n :: l2)) as (k & e & Hk & Hdep).
    + rewrite Hl1, length_app in Hlen. cbn in Hlen. lia.
    + rewrite Htopo, Hl1, <- app_assoc. reflexivity.
    + exact Hsm.
    + exists k, e. split; [exact Hk |].
      apply depends_trans with (m := m); assumption.
  - exfalso. exact (proj2 (inv_cancelled Hinv Hagg m) p t Hsm).
Qed.

End SchedFacts.

(* ================================================================== *)
(** ** Ordering, failures and the grace period of a task group *)

Module GroupProps.

Import Dependencies Scheduler SchedulerInv DepsProps TopoProps SchedProps
       SchedTermination SchedTimed SchedRecorded SchedFacts SchedFixtures.
Open Scope nat_scope.
Open Scope string_scope.
Open Scope list_scope.

(** C3.  A forward task group ([reverse] not set) over the chain ([C]
    requires [B] requires [A]) or over the diamond ([D] requires [B1] and
    [B2], both requiring [A]), whatever the actions, the iteration order
    of the runners and the clock, runs to its end, and in the calls
    [do_step] it has made: in the chain
    [A] is complete before [B] begins and [B] before [C] begins; in the
    diamond [A] is complete before [B1] or [B2] begins and both are
    complete before [D] begins, nothing being said of the order of [B1]
    and [B2] among themselves.  When no action raises, the run succeeds
    and the calls are all the steps of [A], then those of [B], then those
    of [C]; in the diamond all the steps of [A], then those of [B1] and
    [B2] in some interleaving, then all those of [D]. *)
Theorem dependency_order_chain_diamond
        (cfg : Config) (tg0 : TaskGroup)
        (Hfwd : reverse cfg = false)
        (Hord : forall l k, In k (dict_order cfg l) <-> In k l)
        (Hnew : DependencyTaskGroup_new cfg = Ok tg0) :
  (exists fuel tg, run fuel cfg tg0 = Some (outcome_of cfg tg, tg))
  /\ forall fuel r tg,
      run fuel cfg tg0 = Some (r, tg) ->
      let tr := trace tg in
      let all n := steps n (List.length (task cfg n)) in
      (deps cfg = chain ->
       completes_before cfg "A" "B" tr /\ completes_before cfg "B" "C" tr
       /\ (no_raise cfg ->
           r = Ok tt /\ tr = all "A" ++ all "B" ++ all "C"))
      /\ (deps cfg = diamond ->
          completes_before cfg "A" "B1" tr /\ completes_before cfg "A" "B2" tr
          /\ completes_before cfg "B1" "D" tr
          /\ completes_before cfg "B2" "D" tr
          /\ (no_raise cfg ->
              r = Ok tt
              /\ exists mid,
                  tr = all "A" ++ mid ++ all "D"
                  /\ calls_of "B1" mid = all "B1"
                  /\ calls_of "B2" mid = all "B2"
                  /\ forall ev, In ev mid ->
                                fst ev = "B1" \/ fst ev = "B2")).
Proof.
  split; [exact (run_result cfg tg0 Hord Hnew) |].
  intros fuel r tg Hrun. cbv zeta.
  destruct (sound_new cfg tg0 Hord Hnew) as [Hst0 Hinv0].
  destruct (sound_run cfg fuel tg0 r tg (conj Hst0 Hinv0) Hrun)
    as ((Htopo & Hst & Hinv) & Hact & Hr).
  pose proof (inv_core Hinv) as Hcore.
  assert (Hev : forall n j, In (n, j) (trace tg) -> In n (topo tg0)).
  { intros n j Hin. rewrite <- Htopo. apply (inv_nodes Hcore n).
    exact (called_started cfg tg n j (inv_calls Hcore) Hin). }
  assert (Hok : no_raise cfg -> r = Ok tt).
  { intros Hno. rewrite Hr. unfold outcome_of.
    rewrite (no_raise_clean cfg tg Hinv Hno). reflexivity. }
  assert (Hall : no_raise cfg -> forall n, In n (topo tg0) ->
            steps n (List.length (task cfg n)) = calls_of n (trace tg)).
  { intros Hno n Hn. symmetry.
    apply (no_raise_all_done cfg tg n Hinv Hno Hact). rewrite Htopo.
    exact Hn. }
  pose proof (graph_forward cfg Hfwd) as Hg.
  split; intros Hdeps.
  - assert (Ht0 : topo tg0 = ["A"; "B"; "C"]).
    { apply (new_topo cfg tg0 _ Hnew).
      rewrite (graph_forward cfg Hfwd), Hdeps. reflexivity. }
    assert (HAB : In "A" (requires (graph cfg) "B"))
      by (rewrite Hg, Hdeps; left; reflexivity).
    assert (HBC : In "B" (requires (graph cfg) "C"))
      by (rewrite Hg, Hdeps; left; reflexivity).
    pose proof (completes_before_requires cfg tg "A" "B" Hcore HAB) as C1.
    pose proof (completes_before_requires cfg tg "B" "C" Hcore HBC) as C2.
    split; [exact C1 | split; [exact C2 |]].
    intros Hno. split; [exact (Hok Hno) |].
    rewrite Ht0 in Hall, Hev.
    rewrite !(Hall Hno) by (cbn; auto).
    apply trace_three; try discriminate.
    + intros n j Hin. specialize (Hev n j Hin). cbn in Hev.
      intuition congruence.
    + exact (proj1 C1).
    + apply (inv_order Hcore "C" "A").
      apply depends_trans with (m := "B");
        [exact HBC | apply depends_direct; exact HAB].
    + exact (proj1 C2).
  - assert (Ht0 : topo tg0 = ["A"; "B1"; "B2"; "D"]).
    { apply (new_topo cfg tg0 _ Hnew).
      rewrite (graph_forward cfg Hfwd), Hdeps. reflexivity. }
    assert (HA1 : In "A" (requires (graph cfg) "B1"))
      by (rewrite Hg, Hdeps; left; reflexivity).
    assert (HA2 : In "A" (requires (graph cfg) "B2"))
      by (rewrite Hg, Hdeps; left; reflexivity).
    assert (H1D : In "B1" (requires (graph cfg) "D"))
      by (rewrite Hg, Hdeps; left; reflexivity).
    assert (H2D : In "B2" (requires (graph cfg) "D"))
      by (rewrite Hg, Hdeps; right; left; reflexivity).
    pose proof (completes_before_requires cfg tg "A" "B1" Hcore HA1) as C1.
    pose proof (completes_before_requires cfg tg "A" "B2" Hcore HA2) as C2.
    pose proof (completes_before_requires cfg tg "B1" "D" Hcore H1D) as C3.
    pose proof (completes_before_requires cfg tg "B2" "D" Hcore H2D) as C4.
    repeat (split; [assumption |]).
    intros Hno. split; [exact (Hok Hno) |].
    rewrite Ht0 in Hall, Hev.
    rewrite !(Hall Hno) by (cbn; auto).
    apply trace_diamond; try discriminate.
    + intros n j Hin. specialize (Hev n j Hin). cbn in Hev.
      intuition congruence.
    + exact (proj1 C1).
    + exact (proj1 C2).
    + apply (inv_order Hcore "D" "A").
      apply depends_trans with (m := "B1");
        [exact H1D | apply depends_direct; exact HA1].
    + exact (proj1 C3).
    + exact (proj1 C4).
Qed.

(** The two middle nodes of the diamond do interleave, in either order:
    the runners iterated as given and in the reverse order. *)
Example diamond_interleavings :
  option_map (fun p => trace (snd p))
             (run 6 (diamond_group as_given) (fresh ["A"; "B1"; "B2"; "D"]))
  = Some [("A", 1); ("A", 2); ("B1", 1); ("B2", 1); ("B1", 2); ("B2", 2);
          ("D", 1); ("D", 2)]
  /\ option_map (fun p => trace (snd p))
                (run 6 (diamond_group (@rev node))
                     (fresh ["A"; "B1"; "B2"; "D"]))
     = Some [("A", 1); ("A", 2); ("B2", 1); ("B1", 1); ("B2", 2); ("B1", 2);
             ("D", 1); ("D", 2)].
Proof. split; reflexivity. Qed.

(** C4.  A task group with [aggregate_exceptions] set, forward or
    reverse, runs to its end, and then: a failed node is one whose action
    raised at its last call, and a node whose action raised in some call
    is failed with the exception raised; no call was ever made for a node
    that waits for a failed node, which in a forward group is a node that
    depends on it, directly or through other nodes, and in a reverse group
    a node that it depends on; every node that neither failed nor waits
    for a failed node has run all its steps and is done; and if some node
    failed, the run raises an [ExceptionGroup] that lists the exception of
    each failed node, one entry per failed node and no other entry. *)
Theorem aggregate_exceptions_all
        (cfg : Config) (tg0 : TaskGroup)
        (Hagg : aggregate_exceptions cfg = true)
        (Hord : forall l k, In k (dict_order cfg l) <-> In k l)
        (Hnew : DependencyTaskGroup_new cfg = Ok tg0) :
  (exists fuel tg, run fuel cfg tg0 = Some (outcome_of cfg tg, tg))
  /\ forall fuel r tg,
      run fuel cfg tg0 = Some (r, tg) ->
      (forall k e,
          stat tg k = Failed e ->
          exists p, calls_of k (trace tg) = steps k (S p)
                    /\ nth_error (task cfg k) p = Some (StepRaise e))
      /\ (forall k p e,
             In (k, S p) (trace tg) ->
             nth_error (task cfg k) p = Some (StepRaise e) ->
             stat tg k = Failed e)
      /\ (forall n k e,
             stat tg k = Failed e -> waits_for cfg n k ->
             calls_of n (trace tg) = [])
      /\ (forall n,
             In n (topo tg0) ->
             (forall k e, stat tg k = Failed e ->
                          n <> k /\ ~ waits_for cfg n k) ->
             stat tg n = Done
             /\ calls_of n (trace tg) = steps n (List.length (task cfg n)))
      /\ ((exists k e, stat tg k = Failed e) ->
          exists fl : list (node * exn),
            r = Raise (ExceptionGroup (map snd fl))
            /\ NoDup (map fst fl)
            /\ forall n e, In (n, e) fl <-> stat tg n = Failed e).
Proof.
  split; [exact (run_result cfg tg0 Hord Hnew) |].
  intros fuel r tg Hrun.
  destruct (sound_new cfg tg0 Hord Hnew) as [Hst0 Hinv0].
  destruct (sound_run cfg fuel tg0 r tg (conj Hst0 Hinv0) Hrun)
    as ((Htopo & Hst & Hinv) & Hact & Hr).
  pose proof (inv_core Hinv) as Hcore.
  pose proof (recorded_run cfg fuel tg0 r tg Hst0 Hinv0
                (recorded_new cfg tg0 Hnew) Hrun) as Hrec.
  split; [| split; [| split; [| split]]].
  - intros k e Hk. pose proof (inv_calls Hcore k) as Hc.
    unfold calls_ok in Hc. rewrite Hk in Hc. exact Hc.
  - intros k p e Hin Hnth.
    destruct (Hrec k p Hin) as [Hok | (e' & Hn & Hs)]; [congruence |].
    rewrite Hs. congruence.
  - intros n k e Hk Hdep. apply waits_for_graph in Hdep.
    exact (failed_blocks cfg tg n k e Hcore Hk Hdep).
  - intros n Hn Hfree. rewrite <- Htopo in Hn.
    pose proof (final_inactive tg n Hact Hn) as Ha.
    pose proof (inv_calls Hcore n) as Hc. unfold calls_ok in Hc.
    destruct (stat tg n) as [| p dl | | e | | p t] eqn:Hs; try discriminate.
    + split; [reflexivity | exact Hc].
    + exfalso. destruct (Hfree n e Hs) as [Hne _]. apply Hne. reflexivity.
    + exfalso. apply in_split in Hn. destruct Hn as [l1 [l2 Hl]].
      destruct (cancelled_has_failed cfg tg Hst Hinv Hagg
                  (S (List.length l1)) l1 n l2 (le_n _) Hl Hs)
        as (k & e & Hk & Hdep).
      apply waits_for_graph in Hdep.
      exact (proj2 (Hfree k e Hk) Hdep).
    + exfalso. exact (proj2 (inv_cancelled Hinv Hagg n) p t Hs).
  - intros (k & e & Hk).
    exists (map fst (raised tg)). split; [| split].
    + rewrite Hr. unfold outcome_of.
      destruct (proj2 (inv_raised Hcore k e) Hk) as [t Hin].
      destruct (raised tg) as [| [[k0 e0] t0] rest] eqn:Hrs; [contradiction |].
      rewrite Hagg, map_map. reflexivity.
    + rewrite map_map. exact (inv_raised_nodup Hcore).
    + intros n e'. rewrite <- (inv_raised Hcore n e'). rewrite in_map_iff.
      split.
      * intros [[[n0 e0] t] [E Hin]]. cbn in E. injection E as -> ->.
        exists t. exact Hin.
      * intros [t Hin]. exists (n, e', t). split; [reflexivity | exact Hin].
Qed.

(** C5.  Building the dependency graph from edges that contain a cycle
    raises [CircularDependencyException], and so does constructing a task
    group over a graph with these edges, in either direction; both do so
    in the constructor, before any task exists, and the cycle each
    reports, walked in order along the edges of the graph as traversed,
    returns to its starting node.  From edges without a cycle the graph is
    built, and a task group over it is constructed that has made no call
    and started no node. *)
Theorem circular_dependency_at_construction
        (edges : list Edge) (cfg : Config)
        (Hdeps : deps cfg = {| dep_edges := edges |}) :
  (has_cycle (deps cfg) ->
   (exists cyc,
       Dependencies_new edges = Raise (CircularDependencyException cyc)
       /\ closed_walk (deps cfg) cyc)
   /\ (exists cyc,
          DependencyTaskGroup_new cfg
          = Raise (CircularDependencyException cyc)
          /\ closed_walk (graph cfg) cyc))
  /\ (~ has_cycle (deps cfg) ->
      Dependencies_new edges = Ok (deps cfg)
      /\ exists tg,
          DependencyTaskGroup_new cfg = Ok tg
          /\ trace tg = [] /\ forall n, stat tg n = Waiting).
Proof.
  unfold Dependencies_new. cbv zeta. rewrite <- Hdeps. split; intros Hc.
  - split.
    + destruct (toposort_cyclic (deps cfg) Hc) as [cyc [Ht Hw]].
      exists cyc. rewrite Ht. auto.
    + apply has_cycle_graph in Hc.
      destruct (toposort_cyclic (graph cfg) Hc) as [cyc [Ht Hw]].
      exists cyc. unfold DependencyTaskGroup_new. rewrite Ht. auto.
  - split.
    + destruct (toposort_acyclic (deps cfg) Hc) as [order Ht].
      rewrite Ht. reflexivity.
    + assert (Hg : ~ has_cycle (graph cfg))
        by (intros H; apply Hc, has_cycle_graph, H).
      destruct (toposort_acyclic (graph cfg) Hg) as [order Ht].
      unfold DependencyTaskGroup_new. rewrite Ht. eexists.
      split; [reflexivity | split; reflexivity].
Qed.

(** C7.  A task group without [aggregate_exceptions], forward or
    reverse, in which every node has the grace period [w], with a clock
    that never goes back, runs to its end.  A call that raised leaves a failure recorded.  When failures
    were recorded, the first of them for node [k] with the exception [e]
    at time [t0]: the run raises [e] itself, which is what the action of
    [k] raised at its last call; at the time the run returns either more
    than [w] has elapsed since [t0] or every node that was started has
    finished, by completing or by raising; a node cancelled while in
    progress was cancelled later than [t0 + w].  And the round whose
    clock has passed [t0 + w] is the last one: the run returns at its
    end. *)
Theorem error_wait_time_grace
        (cfg : Config) (w : Z) (tg0 : TaskGroup)
        (Hagg : aggregate_exceptions cfg = false)
        (Hwait : forall n, error_wait_time cfg n = Some w)
        (Hclock : forall i, (wallclock cfg i <= wallclock cfg (S i))%Z)
        (Hord : forall l k, In k (dict_order cfg l) <-> In k l)
        (Hnew : DependencyTaskGroup_new cfg = Ok tg0) :
  (exists fuel tg, run fuel cfg tg0 = Some (outcome_of cfg tg, tg))
  /\ (forall fuel r tg,
         run fuel cfg tg0 = Some (r, tg) ->
         forall k p e,
           In (k, S p) (trace tg) ->
           nth_error (task cfg k) p = Some (StepRaise e) ->
           raised tg <> [])
  /\ (forall fuel r tg,
         run fuel cfg tg0 = Some (r, tg) ->
         forall k e t0 rest,
           raised tg = (k, e, t0) :: rest ->
           r = Raise e /\ stat tg k = Failed e
           /\ (exists p, calls_of k (trace tg) = steps k (S p)
                         /\ nth_error (task cfg k) p = Some (StepRaise e))
           /\ ((t0 + w < now cfg tg)%Z
               \/ forall n, started (stat tg n) = true ->
                            finished (stat tg n))
           /\ (forall n pos t,
                  stat tg n = CancelledRunning pos t ->
                  (t0 + w < t <= now cfg tg)%Z))
  /\ (forall i k e t0 rest,
         raised (after_rounds cfg i tg0) = (k, e, t0) :: rest ->
         (t0 + w < wallclock cfg i)%Z ->
         exists r tg, run (S i) cfg tg0 = Some (r, tg)).
Proof.
  destruct (sound_new cfg tg0 Hord Hnew) as [Hst0 Hinv0].
  pose proof (timed_new cfg w tg0 Hnew) as Ht0.
  split; [exact (run_result cfg tg0 Hord Hnew) | split; [| split]].
  - intros fuel r tg Hrun k p e Hin Hnth Hnil.
    destruct (sound_run cfg fuel tg0 r tg (conj Hst0 Hinv0) Hrun)
      as ((_ & _ & Hinv) & _).
    pose proof (recorded_run cfg fuel tg0 r tg Hst0 Hinv0
                  (recorded_new cfg tg0 Hnew) Hrun) as Hrec.
    destruct (Hrec k p Hin) as [Hok | (e' & Hn & Hs)]; [congruence |].
    destruct (proj2 (inv_raised (inv_core Hinv) k e') Hs) as [t Ht].
    rewrite Hnil in Ht. contradiction.
  - intros fuel r tg Hrun k e t0 rest Hrs.
    destruct (timed_run cfg w Hagg Hwait Hclock fuel tg0 r tg
                Hst0 Hinv0 Ht0 Hrun)
      as ((Htopo & Hst & Hinv & Ht) & Hact & Hr).
    pose proof (inv_core Hinv) as Hcore.
    assert (Hcr : forall n pos t, stat tg n = CancelledRunning pos t ->
                                  (t0 + w < t <= now cfg tg)%Z).
    { intros n pos t Hn.
      destruct (tm_cancelled Ht n pos t Hn) as (f0 & rest' & Hr' & Hb).
      rewrite Hrs in Hr'. injection Hr' as <- _. exact Hb. }
    assert (Hk : stat tg k = Failed e).
    { apply (inv_raised Hcore k e). exists t0. rewrite Hrs.
      left. reflexivity. }
    split; [| split; [| split; [| split]]].
    + rewrite Hr. unfold outcome_of. rewrite Hrs, Hagg. reflexivity.
    + exact Hk.
    + pose proof (inv_calls Hcore k) as Hc. unfold calls_ok in Hc.
      rewrite Hk in Hc. exact Hc.
    + destruct (Z_lt_le_dec (t0 + w) (now cfg tg)) as [Hlt | Hle];
        [left; exact Hlt | right].
      intros n Hs. pose proof (inv_nodes Hcore n Hs) as Hn.
      pose proof (final_inactive tg n Hact Hn) as Ha.
      destruct (stat tg n) as [| p dl | | e' | | p t] eqn:Hsn;
        try discriminate.
      * left. reflexivity.
      * right. exists e'. reflexivity.
      * pose proof (Hcr n p t Hsn). lia.
    + exact Hcr.
  - intros i k e t0 rest Hrs Hlt.
    apply run_after.
    change (after_rounds cfg (S i) tg0)
      with (round cfg (after_rounds cfg i tg0)).
    destruct (timed_after_rounds cfg w Hagg Hwait Hclock i tg0
                Hst0 Hinv0 Ht0) as (Hst & Hinv & Ht).
    apply (expired_round cfg w Hagg (after_rounds cfg i tg0) (k, e, t0) rest
             Hst Hinv Ht Hrs).
    unfold now. rewrite rounds_after, (new_rounds cfg tg0 Hnew), Nat.add_0_r.
    exact Hlt.
Qed.

(** *** Instances *)

(** [test_aggregate_exceptions_raises_all_at_the_end], with two failing
    nodes: both exceptions are in the group. *)
Example aggregate_two_failures :
  option_map (fun p => (fst p, trace (snd p)))
             (run 2 (group fork a_b_fail true None as_given)
                  (fresh ["B"; "A"; "C"]))
  = Some (Raise (ExceptionGroup [e1; e2]), [("B", 1); ("A", 1); ("B", 2)]).
Proof. reflexivity. Qed.

(** [test_exception_grace_period_expired]: [B] is still in progress when
    the grace period is over and is cancelled before its fifth step. *)
Example grace_period_expired :
  option_map (fun p => (fst p, trace (snd p), stat (snd p) "B"))
             (run 4 expired_group (fresh ["B"; "A"; "C"]))
  = Some (Raise e1,
          [("B", 1); ("A", 1); ("B", 2); ("A", 2); ("B", 3); ("B", 4)],
          CancelledRunning 4 1%Z).
Proof. reflexivity. Qed.

Lemma dummy_no_raise d aggr wait order : no_raise (group d dummy aggr wait order).
Proof.
  intros n p e. cbn. destruct p as [| [| [| p]]]; cbn; try discriminate.
  destruct p; discriminate.
Qed.

Lemma circular_edges_cycle : has_cycle {| dep_edges := circular_edges |}.
Proof.
  exists ["first"; "second"; "third"; "first"].
  exists "first", ["second"; "third"]. split; [reflexivity |].
  cbn. intuition.
Qed.

(** The chain of [test_chain_fwd], three steps for every node. *)
Lemma dependency_order_chain_diamond_witness :
  DependencyTaskGroup_new chain_group = Ok (fresh ["A"; "B"; "C"])
  /\ match run 9 chain_group (fresh ["A"; "B"; "C"]) with
     | Some (r, tg) =>
         r = Ok tt
         /\ trace tg = steps "A" 3 ++ steps "B" 3 ++ steps "C" 3
     | None => False
     end.
Proof.
  split; [reflexivity |].
  destruct (run 9 chain_group (fresh ["A"; "B"; "C"])) as [[r tg] |] eqn:Hrun.
  - destruct (dependency_order_chain_diamond
                chain_group (fresh ["A"; "B"; "C"]) eq_refl
                (fun l k => conj (fun H => H) (fun H => H)) eq_refl)
      as [_ H].
    destruct (H 9 r tg Hrun) as [Hc _].
    destruct (Hc eq_refl) as (_ & _ & Hok).
    exact (Hok (dummy_no_raise chain false None as_given)).
  - vm_compute in Hrun. discriminate.
Defined.

(** The chain with a failing first node: neither [B] nor [C] is called. *)
Lemma aggregate_exceptions_all_witness :
  aggregate_exceptions aggregate_group = true
  /\ DependencyTaskGroup_new aggregate_group = Ok (fresh ["A"; "B"; "C"])
  /\ match run 1 aggregate_group (fresh ["A"; "B"; "C"]) with
     | Some (r, tg) =>
         stat tg "A" = Failed e1
         /\ calls_of "B" (trace tg) = [] /\ calls_of "C" (trace tg) = []
     | None => False
     end.
Proof.
  split; [reflexivity | split; [reflexivity |]].
  destruct (run 1 aggregate_group (fresh ["A"; "B"; "C"]))
    as [[r tg] |] eqn:Hrun.
  - destruct (aggregate_exceptions_all
                aggregate_group (fresh ["A"; "B"; "C"]) eq_refl
                (fun l k => conj (fun H => H) (fun H => H)) eq_refl)
      as [_ H].
    destruct (H 1 r tg Hrun) as (_ & _ & Hdep & _).
    assert (HA : stat tg "A" = Failed e1).
    { vm_compute in Hrun. injection Hrun as _ <-. reflexivity. }
    assert (HB : depends_on chain "B" "A")
      by (apply depends_direct; left; reflexivity).
    split; [exact HA | split].
    + exact (Hdep "B" "A" e1 HA HB).
    + apply (Hdep "C" "A" e1 HA).
      apply depends_trans with (m := "B"); [left; reflexivity | exact HB].
  - vm_compute in Hrun. discriminate.
Defined.

(** The edges of [test_circular_deps]. *)
Lemma circular_dependency_at_construction_witness :
  has_cycle {| dep_edges := circular_edges |}
  /\ (exists cyc,
         Dependencies_new circular_edges
         = Raise (CircularDependencyException cyc)
         /\ closed_walk {| dep_edges := circular_edges |} cyc)
  /\ exists cyc,
      DependencyTaskGroup_new
        (group {| dep_edges := circular_edges |} dummy false None as_given)
      = Raise (CircularDependencyException cyc)
      /\ closed_walk {| dep_edges := circular_edges |} cyc.
Proof.
  split; [exact circular_edges_cycle |].
  exact (proj1 (circular_dependency_at_construction
                  circular_edges
                  (group {| dep_edges := circular_edges |} dummy
                         false None as_given) eq_refl)
               circular_edges_cycle).
Defined.

(** [test_exception_grace_period]: [A] fails in its second step while [B]
    is in progress; [B] makes its three steps within the five seconds. *)
Lemma error_wait_time_grace_witness :
  aggregate_exceptions grace_group = false
  /\ DependencyTaskGroup_new grace_group = Ok (fresh ["B"; "A"; "C"])
  /\ match run 3 grace_group (fresh ["B"; "A"; "C"]) with
     | Some (r, tg) =>
         r = Raise e1 /\ stat tg "A" = Failed e1
         /\ calls_of "B" (trace tg) = steps "B" 3
     | None => False
     end.
Proof.
  split; [reflexivity | split; [reflexivity |]].
  destruct (run 3 grace_group (fresh ["B"; "A"; "C"])) as [[r tg] |] eqn:Hrun.
  - destruct (error_wait_time_grace
                grace_group 5%Z (fresh ["B"; "A"; "C"]) eq_refl
                (fun n => eq_refl)
                (fun i => proj1 (Nat2Z.inj_le i (S i)) (Nat.le_succ_diag_r i))
                (fun l k => conj (fun H => H) (fun H => H)) eq_refl)
      as (_ & _ & H & _).
    assert (Hrs : raised tg = [("A", e1, 0%Z)]
                  /\ calls_of "B" (trace tg) = steps "B" 3).
    { vm_compute in Hrun. injection Hrun as _ <-. split; reflexivity. }
    destruct (H 3 r tg Hrun "A" e1 0%Z [] (proj1 Hrs)) as (Hr & Hs & _).
    split; [exact Hr | split; [exact Hs | exact (proj2 Hrs)]].
  - vm_compute in Hrun. discriminate.
Defined.

(** The chain of [test_chain_fwd] traversed in reverse: the group is
    constructed, runs to its end without error, and makes all the steps of
    [C], then those of [B], then those of [A]; so [B] begins before [A]
    has made any step, and [C] before [B]. *)
Lemma reverse_chain_runs_backwards :
  DependencyTaskGroup_new reverse_chain_group = Ok (fresh ["C"; "B"; "A"])
  /\ exists tg,
      run 9 reverse_chain_group (fresh ["C"; "B"; "A"]) = Some (Ok tt, tg)
      /\ trace tg = steps "C" 3 ++ steps "B" 3 ++ steps "A" 3
      /\ ~ completes_before reverse_chain_group "A" "B" (trace tg)
      /\ ~ completes_before reverse_chain_group "B" "C" (trace tg).
Proof.
  split; [reflexivity |].
  eexists. split; [vm_compute; reflexivity |].
  cbn [trace]. split; [reflexivity |]. split; intros [Hb _].
  - apply (Hb (steps "C" 3) ([("B", 2); ("B", 3)] ++ steps "A" 3) 1 1
             eq_refl).
    cbn. auto 10.
  - apply (Hb [] ([("C", 2); ("C", 3)] ++ steps "B" 3 ++ steps "A" 3) 1 1
             eq_refl).
    cbn. auto 10.
Qed.

(** Reverse groups with [aggregate_exceptions] over the chain [C]
    requires [B] requires [A].  When step 1 of [C] raises, as in
    [test_aggregate_exceptions_cancels_tasks_in_reverse_order], that call
    is the only one: [A] and [B] are never invoked although neither
    depends on [C].  When step 1 of [B] raises, [C], which depends on
    [B], has made all its steps before, and [A], which does not depend
    on [B], is never invoked. *)
Lemma reverse_group_cancels_requirements :
  (exists tg,
      run 1 (reverse_aggregate_group c_fails) (fresh ["C"; "B"; "A"])
      = Some (Raise (ExceptionGroup [e1]), tg)
      /\ trace tg = [("C", 1)]
      /\ stat tg "C" = Failed e1
      /\ stat tg "A" = CancelledWaiting /\ stat tg "B" = CancelledWaiting
      /\ ~ depends_on chain "A" "C" /\ ~ depends_on chain "B" "C")
  /\ exists tg,
      run 5 (reverse_aggregate_group b_fails) (fresh ["C"; "B"; "A"])
      = Some (Raise (ExceptionGroup [e1]), tg)
      /\ stat tg "B" = Failed e1
      /\ depends_on chain "C" "B"
      /\ calls_of "C" (trace tg) = steps "C" 3
      /\ ~ depends_on chain "A" "B"
      /\ stat tg "A" = CancelledWaiting
      /\ calls_of "A" (trace tg) = [].
Proof.
  assert (HA : forall k, ~ depends_on chain "A" k).
  { intros k H. inversion H as [n x Hin | n m x Hin _]; exact Hin. }
  assert (HB : ~ depends_on chain "B" "C").
  { intros H. inversion H as [n x Hin | n m x Hin Hd]; subst.
    - cbn in Hin. intuition discriminate.
    - cbn in Hin. destruct Hin as [<- | []]. exact (HA _ Hd). }
  split; eexists; (split; [vm_compute; reflexivity |]); cbn [trace stat].
  - repeat split; try reflexivity; [exact (HA "C") | exact HB].
  - repeat split; try reflexivity;
      [apply depends_direct; left; reflexivity | exact (HA "B")].
Qed.

(** Groups with a grace period and [aggregate_exceptions].  In
    [test_exception_grace_period] with aggregation the caller does not
    receive the exception [e1] raised by [A] but an [ExceptionGroup]
    around it.  In [test_exception_grace_period_expired] with
    aggregation the grace period is not applied: it is over after the
    third round, yet [B] makes all its five steps and is not cancelled. *)
Lemma aggregate_group_ignores_grace :
  aggregate_exceptions aggregate_grace_group = true
  /\ (forall n, error_wait_time aggregate_grace_group n = Some 5%Z)
  /\ (exists tg,
         run 4 aggregate_grace_group (fresh ["B"; "A"; "C"])
         = Some (Raise (ExceptionGroup [e1]), tg)
         /\ raised tg = [("A", e1, 0%Z)]
         /\ Raise (ExceptionGroup [e1]) <> @Raise unit e1)
  /\ exists tg,
      run 6 aggregate_expired_group (fresh ["B"; "A"; "C"])
      = Some (Raise (ExceptionGroup [e1]), tg)
      /\ raised tg = [("A", e1, 0%Z)]
      /\ (0 + 0 < wallclock aggregate_expired_group 3)%Z
      /\ run 4 aggregate_expired_group (fresh ["B"; "A"; "C"]) = None
      /\ stat tg "B" = Done
      /\ calls_of "B" (trace tg) = steps "B" 5.
Proof.
  split; [reflexivity |]. split; [reflexivity |].
  split; eexists; (split; [vm_compute; reflexivity |]); cbn [raised].
  - split; [reflexivity | discriminate].
  - repeat split.
Qed.

End GroupProps.

(* ================================================================== *)
(** ** The deadline of a task runner *)

Module TaskRunnerProps.

Import TaskRunner.
Open Scope Z_scope.

(** C6.  A runner that is started, not done and suspended at [s], with
    the deadline [d]: [step()] compares the clock with the deadline
    before anything else.  Up to the deadline the task is resumed
    normally.  Once the clock has passed it, the task is not resumed but
    [Timeout] is raised into it at [s], and the runner is done: when
    the task catches the exception, whether it then returns or suspends
    again, [step()] answers done and nothing reaches the caller; when
    the task raises, which it does with [Timeout] itself if it does not
    catch it, that exception leaves [step()]. *)
Theorem step_timeout {St : Type} (r : Runner St) (s : St) (d now : Z)
        (Hdone : done r = false) (Hgen : gen r = Some (Suspended s))
        (Hdl : deadline r = Some d) :
  (now <= d ->
   step r now = match next (task r) s with
                | Yielded s' => (Ok false, with_gen r (Suspended s') false)
                | Returned => (Ok true, with_gen r Finished true)
                | Raised e => (Raise e, with_gen r Finished false)
                end)
  /\ (d < now ->
      step r now = (match throw (task r) Timeout s with
                    | Returned => Ok true
                    | Yielded _ => Ok true
                    | Raised e => Raise e
                    end, with_gen r Finished true)).
Proof.
  unfold step, expired. rewrite Hdone, Hgen, Hdl. split; intros H.
  - assert (E : (d <? now) = false) by (apply Z.ltb_ge; exact H).
    rewrite E. reflexivity.
  - assert (E : (d <? now) = true) by (apply Z.ltb_lt; exact H).
    rewrite E. destruct (throw (task r) Timeout s); reflexivity.
Qed.

(** [test_timeout_return]: the task returns when it is timed out. *)
Lemma step_timeout_witness :
  let r := snd (start (new_runner return_on_timeout) (Some 1) 0 0) in
  done r = false /\ gen r = Some (Suspended tt) /\ deadline r = Some 1
  /\ step r 2 = (Ok true, with_gen r Finished true).
Proof.
  cbv zeta. split; [reflexivity | split; [reflexivity | split]];
    [reflexivity |].
  exact (proj2 (step_timeout
                  (snd (start (new_runner return_on_timeout) (Some 1) 0 0))
                  tt 1 2 eq_refl eq_refl eq_refl) eq_refl).
Defined.

(** [test_timeout_swallowed]: the task catches [Timeout] and suspends
    again instead of returning; [step()] answers done and no [Timeout]
    leaves it. *)
Lemma swallowed_timeout_does_not_propagate :
  let r := snd (start (new_runner swallow_timeout) (Some 1) 0 0) in
  done r = false /\ gen r = Some (Suspended false) /\ deadline r = Some 1
  /\ throw (task r) Timeout false = Yielded true
  /\ fst (step r 2) = Ok true
  /\ fst (step r 2) <> Raise Timeout.
Proof.
  cbv zeta. repeat split; try reflexivity. discriminate.
Qed.

End TaskRunnerProps.
